(** * Snapshot reconciliation engine of sheet-sql-connect

    A shallow embedding of the reconciliation core of the repository:

    - the diff engine ([computeRowHash], [computeRowId], [computeDiff],
      [normalizeRow]),
    - the sanitizers of the schema module ([sanitizeColumnName],
      [sanitizeTableName]),
    - the snapshot store of [lib/database/sync.js] ([getSnapshot],
      [applyDiff], [storeSnapshot]) over an in-memory relational table,
    - the per-sheet lock of [lib/sync-lock.js] ([acquireSyncLock],
      [waitForSync], [withSyncLock]),
    - the row operations of [lib/database/operations.js]
      ([fetchTableData], [getRowPosition], [insertRow]),
    - the function that the sync routes run under that lock,
    - the sheet id helpers ([extractSheetId], [validateSheetInput]).

    Conventions of the embedding:

    - Strings are byte strings.  JavaScript code units and bytes coincide
      on ASCII text, which is what the column sanitizer produces; the
      default [sort] order and [trim] are those of ASCII text.
    - Rows and diff items are plain objects, kept as the list of their
      own properties in insertion order; a cell is undefined, null, an
      integer or a string.
    - The database is one table held in memory.  A statement either
      rewrites the table or raises and leaves it alone; [applyDiff] and
      [storeSnapshot] return the outcome together with the stored table,
      which is the committed working copy or, after a rollback, the table
      as it was.
    - Asynchronous functions are state transformers: awaiting a callback
      is running it on the current state. *)

From Stdlib Require Import ZArith Lia List Ascii DecimalString DecimalFacts DecimalNat.
From Stdlib Require Import Sorted.
From Stdlib Require String.
From stdpp Require Import base option list finite gmap strings.

Local Open Scope Z_scope.

(* ===================================================================== *)
(** ** JavaScript values and plain objects *)
(* ===================================================================== *)

Module Js.

(** The JavaScript values that flow through the reconciliation code:
    cells of a row, hashes, surrogate keys and revisions. *)
Inductive jsval : Type :=
| VUndefined
| VNull
| VNum (z : Z)
| VStr (s : string).

#[global] Instance jsval_eq_dec : EqDecision jsval.
Proof. solve_decision. Defined.

(** [!!v]: undefined, null, 0 and the empty string are falsy. *)
Definition truthy (v : jsval) : bool :=
  match v with
  | VUndefined | VNull => false
  | VNum z => negb (z =? 0)
  | VStr s => negb (String.eqb s "")
  end.

(** [a || b] *)
Definition js_or (a b : jsval) : jsval := if truthy a then a else b.

(** [a !== b] on the values above. *)
Definition strict_neq (a b : jsval) : bool := negb (bool_decide (a = b)).

Definition string_of_Z (z : Z) : string := NilZero.string_of_int (Z.to_int z).

Definition string_of_nat (n : nat) : string :=
  NilZero.string_of_uint (Nat.to_uint n).

(** [String(v)] *)
Definition toString (v : jsval) : string :=
  match v with
  | VUndefined => "undefined"
  | VNull => "null"
  | VNum z => string_of_Z z
  | VStr s => s
  end.

(** A plain object: its own data properties in insertion order. *)
Definition obj : Type := list (string * jsval).

(** The text of a built-in function, as [String] gives it. *)
Definition native (name : string) : string :=
  "function " +:+ name +:+ "() { [native code] }".

(** The properties that every plain object inherits from
    [Object.prototype].  Their values are built-in functions, and for
    [__proto__] the prototype itself.  The code compares what it reads
    with null and undefined, tests its truthiness and takes its
    [String(...)]; for all of this such a value is as good as its text,
    and that is what the model keeps. *)
Definition inherited (k : string) : jsval :=
  if String.eqb k "__proto__" then VStr "[object Object]"
  else if String.eqb k "constructor" then VStr (native "Object")
  else if bool_decide (k ∈ ["__defineGetter__"; "__defineSetter__"; "hasOwnProperty";
                             "__lookupGetter__"; "__lookupSetter__"; "isPrototypeOf";
                             "propertyIsEnumerable"; "toString"; "valueOf";
                             "toLocaleString"])
       then VStr (native k)
  else VUndefined.

(** [o[k]]: the own property, else the inherited one, else undefined. *)
Fixpoint obj_get (o : obj) (k : string) : jsval :=
  match o with
  | [] => inherited k
  | (k', v) :: o' => if String.eqb k' k then v else obj_get o' k
  end.

(** Defining the own property [k]: overwrites in place, or appends a new
    property. *)
Fixpoint obj_put (o : obj) (k : string) (v : jsval) : obj :=
  match o with
  | [] => [(k, v)]
  | (k', v') :: o' =>
      if String.eqb k' k then (k', v) :: o' else (k', v') :: obj_put o' k v
  end.

(** [o[k] = v] for a value that is no object.  The key [__proto__] is
    the accessor of [Object.prototype], whose setter ignores such a
    value: the object stays as it is. *)
Definition obj_set (o : obj) (k : string) (v : jsval) : obj :=
  if String.eqb k "__proto__" then o else obj_put o k v.

(** [Object.keys(o)]: the keys in insertion order.  (The engine lists
    keys that are array indices first; [computeRowHash] sorts the keys
    right away, so the order of enumeration does not reach its result.) *)
Definition obj_keys (o : obj) : list string := map fst o.

(** [xs.join(sep)] *)
Fixpoint join (sep : string) (xs : list string) : string :=
  match xs with
  | [] => ""
  | [x] => x
  | x :: rest => x +:+ sep +:+ join sep rest
  end.

(** [xs.sort()] on strings: ascending in code-unit order.  The sort is
    an insertion sort, stable like the engine's. *)
Fixpoint sort_insert (x : string) (xs : list string) : list string :=
  match xs with
  | [] => [x]
  | y :: ys => if String.ltb y x || String.eqb y x
               then y :: sort_insert x ys
               else x :: y :: ys
  end.

Definition sort (xs : list string) : list string :=
  fold_right sort_insert [] (rev xs).

(** [s.includes(t)] *)
Fixpoint includes (s t : string) : bool :=
  String.prefix t s ||
  match s with
  | EmptyString => false
  | String _ s' => includes s' t
  end.

Definition lower_ascii (c : ascii) : ascii :=
  let n := nat_of_ascii c in
  if ((65 <=? n) && (n <=? 90))%nat then ascii_of_nat (n + 32) else c.

(** [s.toLowerCase()] on ASCII text. *)
Fixpoint toLowerCase (s : string) : string :=
  match s with
  | EmptyString => EmptyString
  | String c s' => String (lower_ascii c) (toLowerCase s')
  end.

End Js.

(* ===================================================================== *)
(** ** SHA-256 (FIPS 180-4), hex encoded *)
(* ===================================================================== *)

Module Sha256.

Definition modulus : Z := 2 ^ 32.

Definition add32 (x y : Z) : Z := (x + y) mod modulus.

Definition rotr (n x : Z) : Z :=
  Z.lor (Z.shiftr x n) (Z.shiftl x (32 - n) mod modulus).

Definition ch (x y z : Z) : Z :=
  Z.lxor (Z.land x y) (Z.land (Z.lxor x (modulus - 1)) z).

Definition maj (x y z : Z) : Z :=
  Z.lxor (Z.lxor (Z.land x y) (Z.land x z)) (Z.land y z).

Definition bsig0 (x : Z) : Z := Z.lxor (Z.lxor (rotr 2 x) (rotr 13 x)) (rotr 22 x).
Definition bsig1 (x : Z) : Z := Z.lxor (Z.lxor (rotr 6 x) (rotr 11 x)) (rotr 25 x).
Definition ssig0 (x : Z) : Z := Z.lxor (Z.lxor (rotr 7 x) (rotr 18 x)) (Z.shiftr x 3).
Definition ssig1 (x : Z) : Z := Z.lxor (Z.lxor (rotr 17 x) (rotr 19 x)) (Z.shiftr x 10).

(** Round constants, in decimal. *)
Definition round_constants : list Z :=
 [1116352408; 1899447441; 3049323471; 3921009573; 961987163; 1508970993;
  2453635748; 2870763221; 3624381080; 310598401; 607225278; 1426881987;
  1925078388; 2162078206; 2614888103; 3248222580; 3835390401; 4022224774;
  264347078; 604807628; 770255983; 1249150122; 1555081692; 1996064986;
  2554220882; 2821834349; 2952996808; 3210313671; 3336571891; 3584528711;
  113926993; 338241895; 666307205; 773529912; 1294757372; 1396182291;
  1695183700; 1986661051; 2177026350; 2456956037; 2730485921; 2820302411;
  3259730800; 3345764771; 3516065817; 3600352804; 4094571909; 275423344;
  430227734; 506948616; 659060556; 883997877; 958139571; 1322822218;
  1537002063; 1747873779; 1955562222; 2024104815; 2227730452; 2361852424;
  2428436474; 2756734187; 3204031479; 3329325298].

Definition initial_state : list Z :=
  [1779033703; 3144134277; 1013904242; 2773480762;
   1359893119; 2600822924; 528734635; 1541459225].

Definition bytes_of_string (s : string) : list Z :=
  map (fun c => Z.of_nat (nat_of_ascii c)) (String.list_ascii_of_string s).

(** Big-endian bytes of [x], [n] of them. *)
Fixpoint be_bytes (n : nat) (x : Z) : list Z :=
  match n with
  | O => []
  | S n' => be_bytes n' (Z.shiftr x 8) ++ [x mod 256]
  end.

(** The message, a 1 bit, zero bits up to 56 mod 64 bytes, then the bit
    length on 64 bits. *)
Definition pad (msg : list Z) : list Z :=
  let len := Z.of_nat (length msg) in
  let zeros := Z.to_nat ((55 - len) mod 64) in
  msg ++ [128] ++ repeat 0 zeros ++ be_bytes 8 (8 * len).

Definition word_of_bytes (bs : list Z) : Z :=
  fold_left (fun acc b => acc * 256 + b) bs 0.

(** Cut a list into chunks of [n] items; [fuel] bounds the number of
    chunks. *)
Fixpoint chunks {A} (fuel n : nat) (l : list A) : list (list A) :=
  match fuel with
  | O => []
  | S fuel' =>
      match l with
      | [] => []
      | _ => take n l :: chunks fuel' n (drop n l)
      end
  end.

(** Message schedule: [w] holds the words computed so far, latest first. *)
Fixpoint extend (n : nat) (w : list Z) : list Z :=
  match n with
  | O => w
  | S n' =>
      let wt := add32 (add32 (ssig1 (nth 1 w 0)) (nth 6 w 0))
                      (add32 (ssig0 (nth 14 w 0)) (nth 15 w 0)) in
      extend n' (wt :: w)
  end.

Definition schedule (block : list Z) : list Z :=
  rev (extend 48 (rev (map word_of_bytes (chunks 16 4 block)))).

Definition round (st : list Z) (kw : Z * Z) : list Z :=
  match st with
  | [a; b; c; d; e; f; g; h] =>
      let t1 := add32 (add32 (add32 h (bsig1 e)) (ch e f g))
                      (add32 (fst kw) (snd kw)) in
      let t2 := add32 (bsig0 a) (maj a b c) in
      [add32 t1 t2; a; b; c; add32 d t1; e; f; g]
  | _ => st
  end.

Definition compress (h : list Z) (block : list Z) : list Z :=
  let final := fold_left round (combine round_constants (schedule block)) h in
  map (fun p => add32 (fst p) (snd p)) (combine h final).

Definition hex_digit (d : Z) : ascii :=
  if d <? 10 then ascii_of_nat (Z.to_nat (48 + d))
  else ascii_of_nat (Z.to_nat (87 + d)).

Definition hex_of_byte (b : Z) : string :=
  String (hex_digit (b / 16)) (String (hex_digit (b mod 16)) EmptyString).

Definition hex_of_word (w : Z) : string :=
  fold_right (fun b acc => hex_of_byte b +:+ acc) "" (be_bytes 4 w).

(** [crypto.createHash('sha256').update(s, 'utf8').digest('hex')] *)
Definition sha256 (s : string) : string :=
  let msg := pad (bytes_of_string s) in
  let blocks := chunks (length msg) 64 msg in
  let h := fold_left compress blocks initial_state in
  fold_right (fun w acc => hex_of_word w +:+ acc) "" h.

End Sha256.

(* ===================================================================== *)
(** ** Diff engine *)
(* ===================================================================== *)

Module DiffEngine.
Import Js.

(** Body of the loop of [computeRowHash]: null and undefined become the
    empty string, everything else is stringified. *)
Definition normalize_value (value : jsval) : string :=
  match value with
  | VNull | VUndefined => ""
  | _ => toString value
  end.

(** The [normalized] object of [computeRowHash] after the loop over
    [columns]. *)
Definition normalized_of (row : obj) (columns : list string) : obj :=
  fold_left
    (fun normalized col => obj_set normalized col (VStr (normalize_value (obj_get row col))))
    columns [].

(** The canonical text handed to SHA-256: sorted keys, ["key:value"]
    pairs joined by ["|"]. *)
Definition normalizedString (row : obj) (columns : list string) : string :=
  let normalized := normalized_of row columns in
  let sortedKeys := sort (obj_keys normalized) in
  join "|" (map (fun key => key +:+ ":" +:+ toString (obj_get normalized key)) sortedKeys).

Definition computeRowHash (row : obj) (columns : list string) : string :=
  Sha256.sha256 (normalizedString row columns).

Definition idPatterns : list string :=
  ["id"; "uuid"; "_id"; "row_id"; "key"; "primary_key"].

(** The loop over [idPatterns] in [computeRowId]: the first pattern whose
    first matching column holds a truthy value decides. *)
Fixpoint natural_id (row : obj) (columns patterns : list string) : option string :=
  match patterns with
  | [] => None
  | pattern :: rest =>
      match List.find (fun col => includes (toLowerCase col) (toLowerCase pattern)) columns with
      | Some idCol =>
          if truthy (VStr idCol) && truthy (obj_get row idCol)
          then Some (toString (obj_get row idCol))
          else natural_id row columns rest
      | None => natural_id row columns rest
      end
  end.

Definition computeRowId (row : obj) (columns : list string) (rowIndex : jsval) : string :=
  match natural_id row columns idPatterns with
  | Some id => id
  | None => computeRowHash row columns
  end.

(** Values of the two position maps. *)
Record SheetRowData := mkSheetRowData
  { sr_row : obj; sr_hash : jsval; sr_rowId : jsval; sr_index : nat }.

Record DbRowData := mkDbRowData
  { dr_row : obj; dr_hash : jsval; dr_rowId : jsval; dr_dbId : jsval; dr_index : nat }.

(** Entries of the three result lists. *)
Record InsertItem := mkInsert
  { ins_row : obj; ins_hash : jsval; ins_rowId : jsval; ins_index : nat }.

Record UpdateItem := mkUpdate
  { upd_row : obj; upd_hash : jsval; upd_rowId : jsval;
    upd_dbRow : obj; upd_dbHash : jsval; upd_dbId : jsval; upd_index : nat }.

Record DeleteItem := mkDelete
  { del_row : obj; del_hash : jsval; del_rowId : jsval; del_dbId : jsval; del_index : nat }.

Record Diff := mkDiff
  { inserts : list InsertItem;
    updates : list UpdateItem;
    deletes : list DeleteItem;
    unchanged : Z }.

(** [sheetRows.forEach((row, index) => sheetRowsByIndex.set(index, ...))]:
    the map from position to data is the list of the data in order. *)
Definition sheetRowsByIndex (sheetRows : list obj) (columns : list string) : list SheetRowData :=
  imap (fun index row =>
          mkSheetRowData row
            (VStr (computeRowHash row columns))
            (VStr (computeRowId row columns (VNum (Z.of_nat index))))
            index)
       sheetRows.

Definition dbRowsByIndex (dbRows : list obj) (columns : list string) : list DbRowData :=
  imap (fun index dbRow =>
          mkDbRowData dbRow
            (js_or (obj_get dbRow "row_hash") (VStr (computeRowHash dbRow columns)))
            (js_or (obj_get dbRow "row_id")
                   (VStr (computeRowId dbRow columns (js_or (obj_get dbRow "id") (VNum 0)))))
            (obj_get dbRow "id")
            index)
       dbRows.

(** The state of the comparison loop: the three arrays being pushed to. *)
Definition acc : Type := list InsertItem * list UpdateItem * list DeleteItem.

(** One iteration of [for (let index = 0; index < maxIndex; index++)]. *)
Definition diff_step (sheetMap : list SheetRowData) (dbMap : list DbRowData)
           (a : acc) (index : nat) : acc :=
  let '(ins, upd, del) := a in
  match sheetMap !! index, dbMap !! index with
  | Some sheetRowData, None =>
      (ins ++ [mkInsert (sr_row sheetRowData) (sr_hash sheetRowData)
                        (sr_rowId sheetRowData) index], upd, del)
  | None, Some dbRowData =>
      (ins, upd, del ++ [mkDelete (dr_row dbRowData) (dr_hash dbRowData)
                                  (dr_rowId dbRowData) (dr_dbId dbRowData) index])
  | Some sheetRowData, Some dbRowData =>
      if strict_neq (sr_hash sheetRowData) (dr_hash dbRowData)
      then (ins, upd ++ [mkUpdate (sr_row sheetRowData) (sr_hash sheetRowData)
                                  (sr_rowId sheetRowData) (dr_row dbRowData)
                                  (dr_hash dbRowData) (dr_dbId dbRowData) index], del)
      else (ins, upd, del)
  | None, None => (ins, upd, del)
  end.

Definition computeDiff (sheetRows dbRows : list obj) (columns : list string) : Diff :=
  let sheetMap := sheetRowsByIndex sheetRows columns in
  let dbMap := dbRowsByIndex dbRows columns in
  let maxSheetIndex := length sheetRows in
  let maxDbIndex := length dbRows in
  let maxIndex := Nat.max maxSheetIndex maxDbIndex in
  let '(ins, upd, del) :=
    fold_left (diff_step sheetMap dbMap) (seq 0 maxIndex) ([], [], []) in
  mkDiff ins upd del
         (Z.of_nat (length sheetRows) - Z.of_nat (length ins) - Z.of_nat (length upd)).

(** [normalizeRow(row, columns)] *)
Definition normalizeRow (row : obj) (columns : list string) : obj :=
  fold_left
    (fun normalized col =>
       let value := obj_get row col in
       match value with
       | VNull | VUndefined => obj_set normalized col (VStr "")
       | _ => obj_set normalized col (VStr (toString value))
       end)
    columns [].

End DiffEngine.

(* ===================================================================== *)
(** ** Schema module: column sanitizer *)
(* ===================================================================== *)

Module Schema.
Import Js.

(** [trim] strips white space and line terminators from both ends.  On
    the UTF-8 text of a string these are the single bytes of
    U+0009..U+000D and U+0020, the two bytes C2 A0 of U+00A0, and the
    three bytes of U+1680 (E1 9A 80), U+2000..U+200A, U+2028, U+2029 and
    U+202F (E2 80 80..8A, A8, A9, AF), U+205F (E2 81 9F), U+3000
    (E3 80 80) and U+FEFF (EF BB BF). *)
Definition is_space (c : ascii) : bool :=
  let n := nat_of_ascii c in
  (((9 <=? n) && (n <=? 13)) || (n =? 32))%nat.

Definition is_space2 (c1 c2 : ascii) : bool :=
  ((nat_of_ascii c1 =? 194) && (nat_of_ascii c2 =? 160))%nat.

Definition is_space3 (c1 c2 c3 : ascii) : bool :=
  let n1 := nat_of_ascii c1 in
  let n2 := nat_of_ascii c2 in
  let n3 := nat_of_ascii c3 in
  (((n1 =? 225) && (n2 =? 154) && (n3 =? 128))
   || ((n1 =? 226) && (n2 =? 128) &&
       (((128 <=? n3) && (n3 <=? 138)) || (n3 =? 168) || (n3 =? 169) || (n3 =? 175)))
   || ((n1 =? 226) && (n2 =? 129) && (n3 =? 159))
   || ((n1 =? 227) && (n2 =? 128) && (n3 =? 128))
   || ((n1 =? 239) && (n2 =? 187) && (n3 =? 191)))%nat.

(** [s.trimStart()] *)
Fixpoint trim_start (s : string) : string :=
  match s with
  | String c1 s1 =>
      if is_space c1 then trim_start s1
      else match s1 with
           | String c2 s2 =>
               if is_space2 c1 c2 then trim_start s2
               else match s2 with
                    | String c3 s3 =>
                        if is_space3 c1 c2 c3 then trim_start s3 else s
                    | EmptyString => s
                    end
           | EmptyString => s
           end
  | EmptyString => EmptyString
  end.

(** [s] is white space throughout. *)
Fixpoint only_spaces (s : string) : bool :=
  match s with
  | String c1 s1 =>
      if is_space c1 then only_spaces s1
      else match s1 with
           | String c2 s2 =>
               if is_space2 c1 c2 then only_spaces s2
               else match s2 with
                    | String c3 s3 => is_space3 c1 c2 c3 && only_spaces s3
                    | EmptyString => false
                    end
           | EmptyString => false
           end
  | EmptyString => true
  end.

(** [s.trimEnd()]: the text up to the point from which only white space
    follows. *)
Fixpoint trim_end (s : string) : string :=
  match s with
  | String c s' => if only_spaces s then EmptyString else String c (trim_end s')
  | EmptyString => EmptyString
  end.

(** [s.trim()] *)
Definition trim (s : string) : string := trim_end (trim_start s).

(** The class [[a-zA-Z0-9_]]. *)
Definition is_ident_char (c : ascii) : bool :=
  let n := nat_of_ascii c in
  (((97 <=? n) && (n <=? 122)) || ((65 <=? n) && (n <=? 90))
   || ((48 <=? n) && (n <=? 57)) || (n =? 95))%nat.

Definition is_digit (c : ascii) : bool :=
  let n := nat_of_ascii c in ((48 <=? n) && (n <=? 57))%nat.

(** [s.replace(/[^a-zA-Z0-9_]/g, '_')] *)
Fixpoint replace_special (s : string) : string :=
  match s with
  | String c s' => String (if is_ident_char c then c else "_"%char) (replace_special s')
  | EmptyString => EmptyString
  end.

(** [s.replace(/_+/g, '_')] *)
Fixpoint collapse_underscores (s : string) : string :=
  match s with
  | String c s' =>
      if Ascii.eqb c "_" then
        match s' with
        | String c' _ => if Ascii.eqb c' "_" then collapse_underscores s'
                         else String c (collapse_underscores s')
        | EmptyString => String c EmptyString
        end
      else String c (collapse_underscores s')
  | EmptyString => EmptyString
  end.

(** [/^[0-9]/.test(s)] *)
Definition starts_with_digit (s : string) : bool :=
  match s with
  | String c _ => is_digit c
  | EmptyString => false
  end.

Definition sanitizeColumnName (columnName : string) : string :=
  let sanitized :=
    toLowerCase (collapse_underscores (replace_special (trim columnName))) in
  let sanitized :=
    if starts_with_digit sanitized then "col_" +:+ sanitized else sanitized in
  let cut := String.substring 0 63 sanitized in
  if truthy (VStr cut) then cut else "unnamed_column".

(** [sanitizeTableName(sheetId)] *)
Definition sanitizeTableName (sheetId : string) : string :=
  "sheet_" +:+ replace_special sheetId.

End Schema.

(* ===================================================================== *)
(** ** Snapshot store *)
(* ===================================================================== *)

Module SnapshotStore.
Import Js DiffEngine Schema.

(** The statements of [sync.js] run against a table of the shape that
    [ensureTableSchema] creates, on a server whose encoding is UTF-8.
    A statement raises
    - when the server cannot read a parameter: a text with a NUL byte, a
      key or a revision that is not a 32-bit integer, a hash or a source
      too long for its VARCHAR column;
    - when the sequence of the key ([id SERIAL]) is exhausted;
    - when it would store NULL in [row_hash] ([VARCHAR(64) NOT NULL]).
    [applyDiff] and [storeSnapshot] run their statements in one
    transaction, without savepoints: once a statement has raised, every
    later statement of the transaction raises as well, and COMMIT then
    rolls back (without raising).  The loops catch what a statement
    raises and go on with the next item.  Values taken from the
    sequence are not given back by a rollback. *)

(** *** The physical table

    One row of a sheet table as [ensureTableSchema] creates it: the
    surrogate key, the two timestamps, the snapshot columns, and the data
    columns (all TEXT; an absent key is SQL NULL). *)
Record Entry := mkEntry
  { e_id : Z;
    e_created_at : Z;
    e_updated_at : Z;
    e_row_hash : string;
    e_revision : Z;
    e_source : string;
    e_deleted_at : option Z;
    e_data : gmap string string }.

#[global] Instance Entry_eq_dec : EqDecision Entry.
Proof. solve_decision. Defined.

(** The table: its columns in ordinal position, its rows in physical
    order, and the next value of the SERIAL sequence. *)
Record Table := mkTable
  { t_columns : list string;
    t_rows : list Entry;
    t_next_id : Z }.

Definition systemColumns : list string :=
  ["id"; "created_at"; "updated_at"; "row_hash"; "revision"; "source"; "deleted_at"].

(** [SELECT column_name FROM information_schema.columns WHERE ...
     AND column_name NOT IN (<system columns>) ORDER BY ordinal_position] *)
Definition dbColumnNames (tbl : Table) : list string :=
  filter (fun c => c ∉ systemColumns) (t_columns tbl).

(** *** Statements and their parameters *)

(** A bound parameter as the driver sends it: NULL or text. *)
Definition pg_text (v : jsval) : option string :=
  match v with
  | VUndefined | VNull => None
  | VNum z => Some (string_of_Z z)
  | VStr s => Some s
  end.

(** The 32-bit integers of the key and the revision columns. *)
Definition int4 (z : Z) : bool := (-2147483648 <=? z) && (z <=? 2147483647).

Fixpoint skip_blanks (s : string) : string :=
  match s with
  | String c s' => if is_space c then skip_blanks s' else s
  | EmptyString => EmptyString
  end.

(** The decimal digits at the start of [s], read onto [acc], and the
    text that follows them. *)
Fixpoint read_digits (acc : Z) (s : string) : Z * string :=
  match s with
  | String c s' =>
      if is_digit c
      then read_digits (10 * acc + Z.of_nat (nat_of_ascii c - 48)) s'
      else (acc, s)
  | EmptyString => (acc, EmptyString)
  end.

(** The server's reading of a text as an [INTEGER]: blanks, an optional
    sign, decimal digits, blanks; [None] when the text is not of this
    form or the number does not fit. *)
Definition int4in (s : string) : option Z :=
  let s := skip_blanks s in
  let '(negative, s) :=
    match s with
    | String c s' =>
        if Ascii.eqb c "-" then (true, s')
        else if Ascii.eqb c "+" then (false, s') else (false, s)
    | EmptyString => (false, s)
    end in
  if starts_with_digit s then
    let '(n, rest) := read_digits 0 s in
    let z := if negative then - n else n in
    if String.eqb (skip_blanks rest) "" && int4 z then Some z else None
  else None.

(** A parameter compared with the integer key: [None] when the server
    cannot read it as a 32-bit integer, [Some None] is NULL. *)
Definition pg_int (v : jsval) : option (option Z) :=
  match v with
  | VUndefined | VNull => Some None
  | VNum z => if int4 z then Some (Some z) else None
  | VStr s => match int4in s with
              | Some z => Some (Some z)
              | None => None
              end
  end.

Fixpoint has_nul (s : string) : bool :=
  match s with
  | String c s' => (nat_of_ascii c =? 0)%nat || has_nul s'
  | EmptyString => false
  end.

(** A text parameter: [None] when the server refuses it (text holds no
    NUL byte), [Some None] is NULL. *)
Definition bind_text (v : jsval) : option (option string) :=
  match pg_text v with
  | None => Some None
  | Some s => if has_nul s then None else Some (Some s)
  end.

(** A byte that continues a character of UTF-8 text. *)
Definition is_continuation (c : ascii) : bool :=
  let n := nat_of_ascii c in ((128 <=? n) && (n <? 192))%nat.

(** [s] cut after its first [n] characters: what is kept, and the
    rest. *)
Fixpoint split_chars (n : nat) (s : string) : string * string :=
  match s with
  | String c s' =>
      if is_continuation c then
        let '(kept, rest) := split_chars n s' in (String c kept, rest)
      else
        match n with
        | O => (EmptyString, s)
        | S n' => let '(kept, rest) := split_chars n' s' in (String c kept, rest)
        end
  | EmptyString => (EmptyString, EmptyString)
  end.

Fixpoint all_spaces (s : string) : bool :=
  match s with
  | String c s' => (nat_of_ascii c =? 32)%nat && all_spaces s'
  | EmptyString => true
  end.

(** Storing a text in a [VARCHAR(n)] column: a text of more than [n]
    characters is refused, unless the excess is spaces, which are then
    cut off. *)
Definition varchar (n : nat) (s : string) : option string :=
  let '(kept, rest) := split_chars n s in
  if String.eqb rest "" then Some s
  else if all_spaces rest then Some kept else None.

(** The value for [row_hash VARCHAR(64)]. *)
Definition bind_hash (v : jsval) : option (option string) :=
  match bind_text v with
  | Some (Some s) => match varchar 64 s with
                     | Some h => Some (Some h)
                     | None => None
                     end
  | other => other
  end.

(** The value for [source VARCHAR(50)]. *)
Definition bind_source (source : string) : option string :=
  if has_nul source then None else varchar 50 source.

Definition bind_revision (revision : Z) : option Z :=
  if int4 revision then Some revision else None.

(** The values for the data columns, all TEXT. *)
Definition bind_values (vals : list (option string)) : option (list (option string)) :=
  if forallb (fun v => match v with Some s => negb (has_nul s) | None => true end) vals
  then Some vals else None.

(** The statements as [sync.js] and [operations.js] issue them, with the
    parameters as the code passes them. *)
Inductive Stmt : Type :=
| UpdateRow (hash : jsval) (revision : Z) (source : string)
            (cols : list string) (vals : list (option string)) (id : jsval)
| InsertRow (hash : jsval) (revision : Z) (source : string)
            (cols : list string) (vals : list (option string))
| SoftDeleteById (revision : Z) (id : jsval)
| SoftDeleteByHash (revision : Z) (hash : jsval).

(** The same statements with the parameters as the server has read
    them; [None] is NULL. *)
Inductive Bound : Type :=
| BUpdate (hash : option string) (revision : Z) (source : string)
          (cols : list string) (vals : list (option string)) (key : option Z)
| BInsert (hash : option string) (revision : Z) (source : string)
          (cols : list string) (vals : list (option string))
| BDeleteById (revision : Z) (key : option Z)
| BDeleteByHash (revision : Z) (hash : option string).

(** Reading the parameters; [None] when the server refuses one. *)
Definition bind (stmt : Stmt) : option Bound :=
  match stmt with
  | UpdateRow hash revision source cols vals id =>
      h ← bind_hash hash; r ← bind_revision revision; src ← bind_source source;
      vs ← bind_values vals; key ← pg_int id;
      Some (BUpdate h r src cols vs key)
  | InsertRow hash revision source cols vals =>
      h ← bind_hash hash; r ← bind_revision revision; src ← bind_source source;
      vs ← bind_values vals;
      Some (BInsert h r src cols vs)
  | SoftDeleteById revision id =>
      r ← bind_revision revision; key ← pg_int id;
      Some (BDeleteById r key)
  | SoftDeleteByHash revision hash =>
      r ← bind_revision revision; h ← bind_text hash;
      Some (BDeleteByHash r h)
  end.

Definition is_active (e : Entry) : bool :=
  match e_deleted_at e with None => true | Some _ => false end.

(** [SET "c1" = v1, "c2" = v2, ...] on the data columns. *)
Definition set_data (cols : list string) (vals : list (option string))
           (d : gmap string string) : gmap string string :=
  fold_left (fun d cv => match cv.2 with
                         | Some v => <[cv.1 := v]> d
                         | None => delete cv.1 d
                         end)
            (combine cols vals) d.

(** Rewriting the rows a WHERE clause selects; the table's BEFORE UPDATE
    trigger stamps [updated_at] on each of them. *)
Definition update_where (now : Z) (sel : Entry -> bool) (f : Entry -> Entry)
           (rows : list Entry) : list Entry :=
  map (fun e => if sel e
                then let e' := f e in
                     mkEntry (e_id e') (e_created_at e') now (e_row_hash e')
                             (e_revision e') (e_source e') (e_deleted_at e') (e_data e')
                else e)
      rows.

Definition with_rows (tbl : Table) (rows : list Entry) : Table :=
  mkTable (t_columns tbl) rows (t_next_id tbl).

(** Running a statement whose parameters the server has read, on the
    working copy of the table; [None] when it raises: an UPDATE that
    would store a NULL hash in a row, an INSERT that finds the sequence
    exhausted or carries a NULL hash. *)
Definition execute (now : Z) (b : Bound) (tbl : Table) : option Table :=
  match b with
  | BUpdate hash revision source cols vals key =>
      let sel e := bool_decide (Some (e_id e) = key) && is_active e in
      match hash with
      | None => if existsb sel (t_rows tbl) then None else Some tbl
      | Some h =>
          Some (with_rows tbl
            (update_where now sel
               (fun e => mkEntry (e_id e) (e_created_at e) (e_updated_at e) h
                                 revision source (e_deleted_at e)
                                 (set_data cols vals (e_data e)))
               (t_rows tbl)))
      end
  | BInsert hash revision source cols vals =>
      if int4 (t_next_id tbl) then
        match hash with
        | None => None
        | Some h =>
            Some (mkTable (t_columns tbl)
                    (t_rows tbl ++
                       [mkEntry (t_next_id tbl) now now h revision source None
                                (set_data cols vals ∅)])
                    (t_next_id tbl + 1))
        end
      else None
  | BDeleteById revision key =>
      let sel e := bool_decide (Some (e_id e) = key) && is_active e in
      Some (with_rows tbl
        (update_where now sel
           (fun e => mkEntry (e_id e) (e_created_at e) (e_updated_at e) (e_row_hash e)
                             revision (e_source e) (Some now) (e_data e))
           (t_rows tbl)))
  | BDeleteByHash revision hash =>
      let sel e := bool_decide (Some (e_row_hash e) = hash) && is_active e in
      Some (with_rows tbl
        (update_where now sel
           (fun e => mkEntry (e_id e) (e_created_at e) (e_updated_at e) (e_row_hash e)
                             revision (e_source e) (Some now) (e_data e))
           (t_rows tbl)))
  end.

(** A statement on the table, outside or inside a transaction that is
    still intact: [None] when it raises, in which case it has no effect
    on the rows. *)
Definition exec (now : Z) (stmt : Stmt) (tbl : Table) : option Table :=
  b ← bind stmt; execute now b tbl.

(** The values of the sequence that a raising statement has taken: the
    INSERT that fails on the NULL hash has evaluated the default of
    [id] before. *)
Definition burnt (stmt : Stmt) (tbl : Table) : Z :=
  match bind stmt with
  | Some (BInsert None _ _ _ _) => if int4 (t_next_id tbl) then 1 else 0
  | _ => 0
  end.

(** *** Transactions *)

(** The transaction of a connection: intact, with its working copy of
    the table, or aborted by a statement that raised; what then remains
    is the value the sequence has reached. *)
Inductive Tx : Type :=
| Open (working : Table)
| Aborted (sequence : Z).

(** [connection.query(sql, params)] inside the transaction: the
    transaction afterwards, and whether the call returned ([true]) or
    threw ([false]). *)
Definition query (now : Z) (stmt : Stmt) (tx : Tx) : Tx * bool :=
  match tx with
  | Open working =>
      match exec now stmt working with
      | Some working' => (Open working', true)
      | None => (Aborted (t_next_id working + burnt stmt working), false)
      end
  | Aborted sequence => (Aborted sequence, false)
  end.

(** [connection.commit()] of a transaction begun on [tbl]: the stored
    table afterwards. *)
Definition commit (tbl : Table) (tx : Tx) : Table :=
  match tx with
  | Open working => working
  | Aborted sequence => mkTable (t_columns tbl) (t_rows tbl) sequence
  end.

(** *** getSnapshot *)

Fixpoint insert_by_id (e : Entry) (l : list Entry) : list Entry :=
  match l with
  | [] => [e]
  | x :: l' => if e_id x <=? e_id e then x :: insert_by_id e l' else e :: x :: l'
  end.

(** [ORDER BY id] *)
Definition order_by_id (l : list Entry) : list Entry :=
  fold_right insert_by_id [] l.

(** [SELECT ... WHERE deleted_at IS NULL ORDER BY id] *)
Definition select_active (tbl : Table) : list Entry :=
  order_by_id (filter (fun e => is_active e = true) (t_rows tbl)).

Definition js_of_timestamp (t : option Z) : jsval :=
  match t with None => VNull | Some z => VNum z end.

(** [row[dbCol] || ''] for a TEXT column. *)
Definition cell_or_empty (e : Entry) (dbCol : string) : jsval :=
  js_or (match e_data e !! dbCol with Some s => VStr s | None => VNull end) (VStr "").

Definition snapshot_row (dbCols : list string) (columns : list string) (row : Entry) : obj :=
  let rowObj : obj :=
    [("id", VNum (e_id row)); ("row_hash", VStr (e_row_hash row));
     ("revision", VNum (e_revision row)); ("source", VStr (e_source row));
     ("deleted_at", js_of_timestamp (e_deleted_at row))] in
  fold_left
    (fun rowObj originalCol =>
       let sanitizedCol := sanitizeColumnName originalCol in
       match List.find (fun dbCol => String.eqb dbCol sanitizedCol) dbCols with
       | Some dbCol =>
           if truthy (VStr dbCol)
           then obj_set rowObj originalCol (cell_or_empty row dbCol)
           else obj_set rowObj originalCol (VStr "")
       | None => obj_set rowObj originalCol (VStr "")
       end)
    columns rowObj.

Definition getSnapshot (tbl : Table) (columns : list string) : list obj :=
  map (snapshot_row (dbColumnNames tbl) columns) (select_active tbl).

(** *** Column mapping shared by applyDiff and storeSnapshot *)

(** The [while (seenSanitized.has(uniqueSanitized))] loop, starting from
    [counter]; [fuel] bounds the iterations. *)
Fixpoint uniqueSanitized (fuel : nat) (seenSanitized : gset string)
         (sanitized : string) (counter : nat) : string :=
  let candidate := sanitized +:+ "_" +:+ string_of_nat counter in
  match fuel with
  | O => candidate
  | S fuel' =>
      if bool_decide (candidate ∈ seenSanitized)
      then uniqueSanitized fuel' seenSanitized sanitized (S counter)
      else candidate
  end.

(** One iteration of [for (const originalCol of columns)]; the state is
    [sanitizedColumns] and [seenSanitized] (the source also fills
    [columnMap], which nothing reads).  A set of [n] names that holds
    [sanitized] misses one of the first [n] candidates, so [n] iterations
    of the inner loop suffice ([uniqueSanitized_fresh]). *)
Definition column_step (st : list string * gset string) (originalCol : string)
  : list string * gset string :=
  let '(sanitizedColumns, seenSanitized) := st in
  let sanitized := sanitizeColumnName originalCol in
  if bool_decide (sanitized ∈ seenSanitized) then
    let unique := uniqueSanitized (size seenSanitized) seenSanitized sanitized 1 in
    (sanitizedColumns ++ [unique], {[unique]} ∪ seenSanitized)
  else
    (sanitizedColumns ++ [sanitized], {[sanitized]} ∪ seenSanitized).

Definition sanitizedColumnsOf (columns : list string) : list string :=
  (fold_left column_step columns ([], ∅)).1.

(** [sanitizedColumns.filter(col => !dbColumnNames.has(col))] *)
Definition missingColumns (tbl : Table) (sanitizedColumns : list string) : list string :=
  filter (fun col => col ∉ dbColumnNames tbl) sanitizedColumns.

Definition schemaError (missing : list string) : string :=
  "Database columns missing: " +:+ join ", " missing +:+ ". Please sync schema first.".

(** [columns.map(c => row[c] === null || row[c] === undefined ? null : String(row[c]))] *)
Definition dataValues (row : obj) (columns : list string) : list (option string) :=
  map (fun originalCol =>
         match obj_get row originalCol with
         | VNull | VUndefined => None
         | value => Some (toString value)
         end)
      columns.

(** *** applyDiff *)

Record Counts := mkCounts
  { inserted : Z; updated : Z; deleted : Z; skipped : Z }.

(** State of the three loops: the transaction and the four counters. *)
Definition loop_state : Type := Tx * Counts.

Definition update_one (now : Z) (columns sanitizedColumns : list string)
           (currentRevision : Z) (st : loop_state) (item : UpdateItem) : loop_state :=
  let '(tx, c) := st in
  let row := upd_row item in
  let hash := upd_hash item in
  let dbId := upd_dbId item in
  if negb (truthy dbId) then
    (tx, mkCounts (inserted c) (updated c) (deleted c) (skipped c + 1))
  else
    match query now (UpdateRow hash currentRevision "sheet" sanitizedColumns
                               (dataValues row columns) dbId) tx with
    | (tx', true) => (tx', mkCounts (inserted c) (updated c + 1) (deleted c) (skipped c))
    | (tx', false) => (tx', mkCounts (inserted c) (updated c) (deleted c) (skipped c + 1))
    end.

Definition insert_one (now : Z) (columns sanitizedColumns : list string)
           (currentRevision : Z) (st : loop_state) (item : InsertItem) : loop_state :=
  let '(tx, c) := st in
  let row := ins_row item in
  let hash := ins_hash item in
  match query now (InsertRow hash currentRevision "sheet" sanitizedColumns
                             (dataValues row columns)) tx with
  | (tx', true) => (tx', mkCounts (inserted c + 1) (updated c) (deleted c) (skipped c))
  | (tx', false) => (tx', mkCounts (inserted c) (updated c) (deleted c) (skipped c + 1))
  end.

Definition delete_one (now : Z) (currentRevision : Z)
           (st : loop_state) (item : DeleteItem) : loop_state :=
  let '(tx, c) := st in
  let hash := del_hash item in
  let dbId := del_dbId item in
  let stmt := if truthy dbId then SoftDeleteById currentRevision dbId
              else SoftDeleteByHash currentRevision hash in
  match query now stmt tx with
  | (tx', true) => (tx', mkCounts (inserted c) (updated c) (deleted c + 1) (skipped c))
  | (tx', false) => (tx', mkCounts (inserted c) (updated c) (deleted c) (skipped c + 1))
  end.

(** The body of the transaction after the schema check: updates, then
    inserts, then soft deletes. *)
Definition apply_loops (now : Z) (columns sanitizedColumns : list string)
           (diff : Diff) (currentRevision : Z) (tx : Tx) : loop_state :=
  let st0 := (tx, mkCounts 0 0 0 0) in
  let st1 := fold_left (update_one now columns sanitizedColumns currentRevision)
                       (updates diff) st0 in
  let st2 := fold_left (insert_one now columns sanitizedColumns currentRevision)
                       (inserts diff) st1 in
  fold_left (delete_one now currentRevision) (deletes diff) st2.

(** A call either throws (left, with the error message) or returns. *)
Definition result (A : Type) : Type := string + A.

(** [applyDiff(tableName, columns, diff, currentRevision)] on the table
    [tbl], with [now] the transaction's CURRENT_TIMESTAMP.  Returns the
    outcome and the stored table afterwards.  The missing-columns error
    is thrown before any statement and the transaction rolled back; after
    the loops the transaction is committed and the counters are
    returned, also when a statement had raised and the commit rolled
    back. *)
Definition applyDiff (tbl : Table) (now : Z) (columns : list string)
           (diff : Diff) (currentRevision : Z) : result Counts * Table :=
  let sanitizedColumns := sanitizedColumnsOf columns in
  let missing := missingColumns tbl sanitizedColumns in
  if (0 <? length missing)%nat then
    (inl (schemaError missing), tbl)
  else
    let '(tx, counts) :=
      apply_loops now columns sanitizedColumns diff currentRevision (Open tbl) in
    (inr counts, commit tbl tx).

(** *** storeSnapshot *)

Definition store_one (now : Z) (columns sanitizedColumns : list string)
           (computeRowHash : obj -> list string -> string)
           (st : Tx * (Z * Z)) (row : obj) : Tx * (Z * Z) :=
  let '(tx, (ins, skip)) := st in
  let hash := computeRowHash row columns in
  match query now (InsertRow (VStr hash) 1 "sheet" sanitizedColumns
                             (dataValues row columns)) tx with
  | (tx', true) => (tx', (ins + 1, skip))
  | (tx', false) => (tx', (ins, skip + 1))
  end.

(** [storeSnapshot(tableName, columns, data, computeRowHash)]; the result
    is [{inserted, skipped}]. *)
Definition storeSnapshot (tbl : Table) (now : Z) (columns : list string)
           (data : list obj) (computeRowHash : obj -> list string -> string)
  : result (Z * Z) * Table :=
  let sanitizedColumns := sanitizedColumnsOf columns in
  let missing := missingColumns tbl sanitizedColumns in
  if (0 <? length missing)%nat then
    (inl (schemaError missing), tbl)
  else
    let '(tx, counts) :=
      fold_left (store_one now columns sanitizedColumns computeRowHash) data
                (Open tbl, (0, 0)) in
    (inr counts, commit tbl tx).

End SnapshotStore.

(* ===================================================================== *)
(** ** Sync lock *)
(* ===================================================================== *)

Module SyncLock.
Import Js.

(** The module state: the lock map [syncLocks] from sheet id to the lock
    promise, the promises settled so far, and the next fresh promise. *)
Record State := mkState
  { syncLocks : gmap string nat;
    settled : gset nat;
    next_promise : nat }.

(** A call either returns a value or throws an error with a message. *)
Inductive outcome (A : Type) : Type :=
| Returned (a : A)
| Thrown (message : string).
Arguments Returned {A} a.
Arguments Thrown {A} message.

(** The closure returned by [acquireSyncLock]: it captures the sheet id
    and the resolver of the lock promise. *)
Record ReleaseHandle := mkRelease
  { rh_sheetId : string; rh_promise : nat }.

Definition isSyncInProgress (st : State) (sheetId : string) : bool :=
  bool_decide (is_Some (syncLocks st !! sheetId)).

Definition contentionError (sheetId : string) : string :=
  "Sync already in progress for sheet " +:+ sheetId.

Definition acquireSyncLock (st : State) (sheetId : string)
  : outcome ReleaseHandle * State :=
  if isSyncInProgress st sheetId then
    (Thrown (contentionError sheetId), st)
  else
    let lockPromise := next_promise st in
    (Returned (mkRelease sheetId lockPromise),
     mkState (<[sheetId := lockPromise]> (syncLocks st)) (settled st) (S lockPromise)).

(** Calling the release function: [syncLocks.delete(sheetId); releaseLock()]. *)
Definition release (h : ReleaseHandle) (st : State) : State :=
  mkState (delete (rh_sheetId h) (syncLocks st))
          ({[rh_promise h]} ∪ settled st)
          (next_promise st).

(** [waitForSync(sheetId, timeoutMs)].  [others] is what the rest of the
    program does to the state while the race is pending; the race is won
    by the lock promise if it is settled by then, and by the timer
    otherwise, in which case the handler deletes the entry. *)
Definition waitForSync (others : State -> State) (st : State) (sheetId : string) : State :=
  match syncLocks st !! sheetId with
  | None => st
  | Some lockPromise =>
      let st' := others st in
      if bool_decide (lockPromise ∈ settled st') then st'
      else mkState (delete sheetId (syncLocks st')) (settled st') (next_promise st')
  end.

(** [withSyncLock(sheetId, syncFunction)]: [syncFunction] runs on the
    state and returns or throws. *)
Definition withSyncLock {A : Type} (others : State -> State) (st : State)
           (sheetId : string) (syncFunction : State -> outcome A * State)
  : outcome A * State :=
  match acquireSyncLock st sheetId with
  | (Thrown error, st1) =>
      (* catch; [releaseLock] is still undefined in the finally block *)
      if includes error "already in progress"
      then (Thrown error, waitForSync others st1 sheetId)
      else (Thrown error, st1)
  | (Returned releaseLock, st1) =>
      match syncFunction st1 with
      | (Returned result, st2) => (Returned result, release releaseLock st2)
      | (Thrown error, st2) =>
          let st3 := if includes error "already in progress"
                     then waitForSync others st2 sheetId
                     else st2 in
          (Thrown error, release releaseLock st3)
      end
  end.

End SyncLock.

(* ===================================================================== *)
(** ** Row operations *)
(* ===================================================================== *)

(** [fetchTableData], [getRowPosition] and [insertRow] of
    [lib/database/operations.js], on the table of the snapshot store. *)
Module Operations.
Import Js DiffEngine Schema SnapshotStore.

Definition fetch_row (dbCols : list string) (columns : list string) (row : Entry) : obj :=
  let rowObj : obj := [("id", VNum (e_id row))] in
  fold_left
    (fun rowObj originalCol =>
       let sanitizedCol := sanitizeColumnName originalCol in
       match List.find (fun dbCol => String.eqb dbCol sanitizedCol) dbCols with
       | Some dbCol =>
           if truthy (VStr dbCol)
           then obj_set rowObj originalCol (cell_or_empty row dbCol)
           else obj_set rowObj originalCol (VStr "")
       | None => obj_set rowObj originalCol (VStr "")
       end)
    columns rowObj.

(** The driver's error when a statement raises; the model does not hold
    its text. *)
Definition queryError : string := "query failed".

(** [fetchTableData(tableName, columns)].  The select list is ["id, "]
    followed by the data columns joined by [", "]: with no data column
    the statement ends in ["id,  FROM ..."] and raises a syntax error. *)
Definition fetchTableData (tbl : Table) (columns : list string) : result (list obj) :=
  match dbColumnNames tbl with
  | [] => inl queryError
  | dbColumnNames => inr (map (fetch_row dbColumnNames columns) (select_active tbl))
  end.

(** The result set of the query of [getRowPosition], which counts the
    active rows with a key below [rowId]: an aggregate, so one row. *)
Definition position_query (tbl : Table) (rowId : Z) : list Z :=
  [Z.of_nat (length (filter (fun e => e_id e < rowId /\ is_active e = true) (t_rows tbl)))].

(** [getRowPosition(tableName, rowId)]; [None] is null. *)
Definition getRowPosition (tbl : Table) (rowId : Z) : option Z :=
  match position_query tbl rowId with
  | [] => None
  | position :: _ => Some position
  end.

(** [insertRow(tableName, columns, rowData)] at the time [now]; the
    result is the [id] of [{id, success: true}]. *)
Definition insertRow (tbl : Table) (now : Z) (columns : list string) (rowData : obj)
  : result Z * Table :=
  let sanitizedColumns := sanitizedColumnsOf columns in
  let missing := missingColumns tbl sanitizedColumns in
  if (0 <? length missing)%nat then
    (inl (schemaError missing), tbl)
  else
    let hash := computeRowHash rowData columns in
    match exec now (InsertRow (VStr hash) 1 "manual" sanitizedColumns
                              (dataValues rowData columns)) tbl with
    | Some tbl' => (inr (t_next_id tbl), tbl')
    | None => (inl queryError, tbl)
    end.

End Operations.

(* ===================================================================== *)
(** ** Sheet ids *)
(* ===================================================================== *)

(** [extractSheetId] and [validateSheetInput], on ASCII text. *)
Module SheetInput.
Import Js Schema.

(** The class [[a-zA-Z0-9-_]]. *)
Definition is_sheet_id_char (c : ascii) : bool :=
  is_ident_char c || (nat_of_ascii c =? 45)%nat.

(** The longest prefix of [s] in the class: what [[a-zA-Z0-9-_]+]
    takes at the start of [s]. *)
Fixpoint take_id (s : string) : string :=
  match s with
  | String c s' => if is_sheet_id_char c then String c (take_id s') else EmptyString
  | EmptyString => EmptyString
  end.

Fixpoint skip (n : nat) (s : string) : string :=
  match n, s with
  | S n', String _ s' => skip n' s'
  | _, _ => s
  end.

Definition sheetPath : string := "/spreadsheets/d/".

(** The capture group of the first match of
    [/\/spreadsheets\/d\/([a-zA-Z0-9-_]+)/] in [url]: the match attempt
    at the start of [url], then at the following positions. *)
Fixpoint match_sheet_id (url : string) : option string :=
  let captured :=
    if String.prefix sheetPath url
    then take_id (skip (String.length sheetPath) url) else EmptyString in
  if negb (String.eqb captured "") then Some captured
  else match url with
       | String _ url' => match_sheet_id url'
       | EmptyString => None
       end.

(** [extractSheetId(url)]; [None] is null. *)
Definition extractSheetId (url : string) : option string :=
  if negb (truthy (VStr url)) then None
  else if (String.length url <? 50)%nat && negb (includes url "http") then Some url
  else match_sheet_id url.

Definition validateSheetInput (input : string) : bool :=
  if negb (truthy (VStr input)) || (String.length (trim input) =? 0)%nat then false
  else
    match extractSheetId input with
    | Some sheetId => (0 <? String.length sheetId)%nat
    | None => false
    end.

End SheetInput.

(* ===================================================================== *)
(** ** The sync routes *)
(* ===================================================================== *)

(** Steps 4 and 5 of [POST /api/sync] and of the Drive webhook: the
    function both routes hand to [withSyncLock]. *)
Module SyncRoute.
Import Js DiffEngine SnapshotStore SyncLock.

(** [SELECT COALESCE(MAX(revision), 0) as max_revision FROM "<table>"] *)
Definition max_revision (tbl : Table) : Z :=
  match map e_revision (t_rows tbl) with
  | [] => 0
  | r :: rs => fold_left Z.max rs r
  end.

(** [(maxRevisionResult[0]?.max_revision || 0) + 1] *)
Definition nextRevision (tbl : Table) : Z :=
  match js_or (VNum (max_revision tbl)) (VNum 0) with
  | VNum m => m + 1
  | _ => 1
  end.

(** The function passed to [withSyncLock].  [dbSnapshot] was read in
    step 3, before the lock is taken; [tbl] is the table when the
    function runs. *)
Definition syncFunction (tbl : Table) (now : Z) (sheetData dbSnapshot : list obj)
           (columns : list string) : result Counts * Table :=
  let diff := computeDiff sheetData dbSnapshot columns in
  if (length dbSnapshot =? 0)%nat then
    match storeSnapshot tbl now columns sheetData computeRowHash with
    | (inr (ins, skip), tbl') => (inr (mkCounts ins 0 0 skip), tbl')
    | (inl error, tbl') => (inl error, tbl')
    end
  else
    let currentRevision := nextRevision tbl in
    applyDiff tbl now columns diff currentRevision.

(** Steps 3 to 5 on the lock state [st] and the table [tbl]: the
    snapshot, then the sync function under the lock of the sheet.  The
    result is the outcome, the lock state and the stored table; a sync
    function that throws has rolled back, so the stored table is then the
    one before. *)
Definition syncSheet (others : State -> State) (st : State) (sheetId : string)
           (tbl : Table) (now : Z) (sheetData : list obj) (columns : list string)
  : outcome Counts * State * Table :=
  let dbSnapshot := getSnapshot tbl columns in
  match withSyncLock others st sheetId
          (fun st1 => match syncFunction tbl now sheetData dbSnapshot columns with
                      | (inr counts, tbl') => (Returned (counts, tbl'), st1)
                      | (inl error, _) => (Thrown error, st1)
                      end) with
  | (Returned (counts, tbl'), st') => (Returned counts, st', tbl')
  | (Thrown error, st') => (Thrown error, st', tbl)
  end.

End SyncRoute.

(* ===================================================================== *)
(** ** Vocabulary of the properties *)
(* ===================================================================== *)

Module DiffSpec.
Import Js DiffEngine.

Section Loop.
Variables (sheetMap : list SheetRowData) (dbMap : list DbRowData).

(** The positions the three lists of an accumulator mention. *)
Definition classified (a : acc) : list nat :=
  map ins_index a.1.1 ++ map upd_index a.1.2 ++ map del_index a.2.

(** What the comparison loop has established after the positions below
    [k]. *)
Record loop_inv (k : nat) (a : acc) : Prop := mkLoopInv
  { inv_ins : forall i, i ∈ map ins_index a.1.1 <->
                        (i < k /\ length dbMap <= i < length sheetMap)%nat;
    inv_upd : forall i, i ∈ map upd_index a.1.2 <->
                        (i < k)%nat /\ exists s d, sheetMap !! i = Some s /\
                                  dbMap !! i = Some d /\ sr_hash s <> dr_hash d;
    inv_del : forall i, i ∈ map del_index a.2 <->
                        (i < k /\ length sheetMap <= i < length dbMap)%nat;
    inv_nodup : NoDup (map ins_index a.1.1) /\ NoDup (map upd_index a.1.2)
                /\ NoDup (map del_index a.2);
    inv_sheet : (length a.1.1 + length a.1.2 <= Nat.min k (length sheetMap))%nat;
    inv_db : (length a.2 = k - Nat.min k (length sheetMap))%nat }.

End Loop.

End DiffSpec.

Module StoreSpec.
Import Js DiffEngine SnapshotStore.

(** The [counter]-th name tried for a clashing column. *)
Definition candidate (sanitized : string) (counter : nat) : string :=
  sanitized +:+ "_" +:+ string_of_nat counter.

Definition counts_add (c d : Counts) : Counts :=
  mkCounts (inserted c + inserted d) (updated c + updated d)
           (deleted c + deleted d) (skipped c + skipped d).

Definition no_active_row (x : Z) (tbl : Table) : Prop :=
  forall e, e ∈ t_rows tbl -> e_id e = x -> is_active e = false.

Definition stmt_revision (s : Stmt) : Z :=
  match s with
  | UpdateRow _ r _ _ _ _ | InsertRow _ r _ _ _
  | SoftDeleteById r _ | SoftDeleteByHash r _ => r
  end.

(** The server reads the key parameter [v] as [x], or [v] is a text
    that is no decimal integer (which the model has the server refuse;
    to be on the safe side such a text counts as any key). *)
Definition reads_as_key (v : jsval) (x : Z) : Prop :=
  pg_int v = Some (Some x) \/ pg_int v = None.

(** Which stored rows the WHERE clause of a statement can select. *)
Definition stmt_selects (s : Stmt) (e : Entry) : Prop :=
  match s with
  | UpdateRow _ _ _ _ _ id | SoftDeleteById _ id => reads_as_key id (e_id e)
  | InsertRow _ _ _ _ _ => False
  | SoftDeleteByHash _ hash => pg_text hash = Some (e_row_hash e)
  end.

(** A stored row is referenced by the diff when an update or delete
    item carries its key, or a delete item without a key carries its
    hash. *)
Definition referenced (diff : Diff) (e : Entry) : Prop :=
  (exists item, item ∈ updates diff /\ reads_as_key (upd_dbId item) (e_id e)) \/
  (exists item, item ∈ deletes diff /\
     if truthy (del_dbId item) then reads_as_key (del_dbId item) (e_id e)
     else pg_text (del_hash item) = Some (e_row_hash e)).

(** The delete item [item] of the diff reaches the stored row [e]: it
    carries the key of [e]; or it carries no key but the hash of [e],
    while no update item of the diff carries the key of [e] (the hash is
    then still the stored one when the delete runs) and [e] is the one
    stored row with its key, a key that the sequence has issued. *)
Definition deletes_row (diff : Diff) (tbl : Table) (item : DeleteItem) (e : Entry) : Prop :=
  if truthy (del_dbId item) then pg_int (del_dbId item) = Some (Some (e_id e))
  else pg_text (del_hash item) = Some (e_row_hash e) /\
       (forall u, u ∈ updates diff -> ~ reads_as_key (upd_dbId u) (e_id e)) /\
       (forall e2, e2 ∈ t_rows tbl -> e_id e2 = e_id e -> e2 = e) /\
       e_id e < t_next_id tbl.

(** A statement that adds no row. *)
Definition rewrites_only (s : Stmt) : Prop :=
  match s with
  | InsertRow _ _ _ _ _ => False
  | _ => True
  end.

(** A soft delete. *)
Definition soft_delete (s : Stmt) : Prop :=
  match s with
  | SoftDeleteById _ _ | SoftDeleteByHash _ _ => True
  | _ => False
  end.

(** The update items without a key: their iteration runs no statement
    and counts them as skipped. *)
Definition keyless (diff : Diff) : Z :=
  Z.of_nat (length (filter (fun item => truthy (upd_dbId item) = false) (updates diff))).

(** The counters of a pass in which no statement raised: nothing but
    the update items without a key was skipped.  Such a pass is
    committed; any other pass is rolled back. *)
Definition clean (diff : Diff) (counts : Counts) : Prop :=
  skipped counts = keyless diff.

(** The value that the sequence of the key has reached in a
    transaction. *)
Definition sequence_of (tx : Tx) : Z :=
  match tx with
  | Open working => t_next_id working
  | Aborted sequence => sequence
  end.

(** The common form of the iterations of the three loops: an item has a
    statement to run or has none; an item without one and an item whose
    statement raises are counted as skipped, any other item adds [hit]
    to the counters. *)
Definition iteration {A : Type} (now : Z) (stmt_of : A -> option Stmt) (hit : Counts)
           (st : loop_state) (item : A) : loop_state :=
  match stmt_of item with
  | None => (st.1, counts_add st.2 (mkCounts 0 0 0 1))
  | Some stmt =>
      match query now stmt st.1 with
      | (tx', true) => (tx', counts_add st.2 hit)
      | (tx', false) => (tx', counts_add st.2 (mkCounts 0 0 0 1))
      end
  end.

(** [h] items counted with [hit] and [m] items skipped. *)
Definition tally (h m : nat) (hit : Counts) : Counts :=
  mkCounts (Z.of_nat h * inserted hit) (Z.of_nat h * updated hit)
           (Z.of_nat h * deleted hit) (Z.of_nat h * skipped hit + Z.of_nat m).

(** The statements of a list run one after the other on a table, as in
    a transaction that stays intact: [None] when one of them raises. *)
Fixpoint run (now : Z) (stmts : list Stmt) (tbl : Table) : option Table :=
  match stmts with
  | [] => Some tbl
  | stmt :: rest => tbl' ← exec now stmt tbl; run now rest tbl'
  end.

(** The statement that [storeSnapshot] runs for a row of the data. *)
Definition store_stmt (columns sanitizedColumns : list string)
           (hashfn : obj -> list string -> string) (row : obj) : Stmt :=
  InsertRow (VStr (hashfn row columns)) 1 "sheet" sanitizedColumns (dataValues row columns).

(** What any sequence of statements does to a table: the sequence of
    keys only advances, a stored row keeps its position and key and, once
    soft-deleted, everything else, and added rows get keys from the
    sequence. *)
Record grows (tbl tbl' : Table) : Prop := mkGrows
  { gr_next : t_next_id tbl <= t_next_id tbl';
    gr_old : forall i e, t_rows tbl !! i = Some e ->
                         exists e', t_rows tbl' !! i = Some e' /\ e_id e' = e_id e /\
                                    (is_active e = false -> e' = e);
    gr_new : forall i e', t_rows tbl' !! i = Some e' ->
                          (length (t_rows tbl) <= i)%nat -> t_next_id tbl <= e_id e' }.

(** [later tbl tbl']: [tbl'] is the stored table after any number of
    further [applyDiff] and [storeSnapshot] calls on [tbl]. *)
Inductive later : Table -> Table -> Prop :=
| later_now tbl : later tbl tbl
| later_applyDiff tbl now columns diff revision res tbl1 tbl2 :
    applyDiff tbl now columns diff revision = (res, tbl1) ->
    later tbl1 tbl2 -> later tbl tbl2
| later_storeSnapshot tbl now columns data hashfn res tbl1 tbl2 :
    storeSnapshot tbl now columns data hashfn = (res, tbl1) ->
    later tbl1 tbl2 -> later tbl tbl2.

Section Pass.
Variables (now N : Z) (columns sanitizedColumns : list string).

(** How a stored row may differ after statements of the pass with
    revision [N]: not at all, or it was active, keeps its key and now
    carries the revision. *)
Definition row_step (e e' : Entry) : Prop :=
  e' = e \/ (is_active e = true /\ e_id e' = e_id e /\ e_revision e' = N).

Record evolves (tbl tbl' : Table) : Prop := mkEvolves
  { ev_columns : t_columns tbl' = t_columns tbl;
    ev_old : forall i e, t_rows tbl !! i = Some e ->
                         exists e', t_rows tbl' !! i = Some e' /\ row_step e e';
    ev_new : forall i e', t_rows tbl' !! i = Some e' ->
                          (length (t_rows tbl) <= i)%nat -> e_revision e' = N }.

(** The statement each kind of item runs. *)
Definition update_stmt (item : UpdateItem) : Stmt :=
  UpdateRow (upd_hash item) N "sheet" sanitizedColumns
            (dataValues (upd_row item) columns) (upd_dbId item).

Definition insert_stmt (item : InsertItem) : Stmt :=
  InsertRow (ins_hash item) N "sheet" sanitizedColumns (dataValues (ins_row item) columns).

Definition delete_stmt (item : DeleteItem) : Stmt :=
  if truthy (del_dbId item) then SoftDeleteById N (del_dbId item)
  else SoftDeleteByHash N (del_hash item).

(** The statement of an update item, if it has a key. *)
Definition update_stmt_of (item : UpdateItem) : option Stmt :=
  if truthy (upd_dbId item) then Some (update_stmt item) else None.

(** The statements of a pass, in the order in which it runs them. *)
Definition statements (diff : Diff) : list Stmt :=
  omap update_stmt_of (updates diff)
  ++ map insert_stmt (inserts diff) ++ map delete_stmt (deletes diff).

(** What a soft delete makes of a row. *)
Definition tombstone (e : Entry) : Entry :=
  mkEntry (e_id e) (e_created_at e) now (e_row_hash e) N (e_source e) (Some now) (e_data e).

Definition selected_by_id (x : Z) (e : Entry) : bool :=
  bool_decide (Some (e_id e) = Some x) && is_active e.

End Pass.

End StoreSpec.

(* ===================================================================== *)
(** ** Vocabulary: the items of a diff *)
(* ===================================================================== *)

Module DiffShape.
Import Js DiffEngine.

Section Items.
Variable columns : list string.

(** The hash and row id that [computeDiff] assigns to a snapshot row. *)
Definition db_hash (dbRow : obj) : jsval :=
  js_or (obj_get dbRow "row_hash") (VStr (computeRowHash dbRow columns)).

Definition db_rowId (dbRow : obj) : jsval :=
  js_or (obj_get dbRow "row_id")
        (VStr (computeRowId dbRow columns (js_or (obj_get dbRow "id") (VNum 0)))).

(** The item pushed for position [index]. *)
Definition insert_of (index : nat) (row : obj) : InsertItem :=
  mkInsert row (VStr (computeRowHash row columns))
           (VStr (computeRowId row columns (VNum (Z.of_nat index)))) index.

Definition delete_of (index : nat) (dbRow : obj) : DeleteItem :=
  mkDelete dbRow (db_hash dbRow) (db_rowId dbRow) (obj_get dbRow "id") index.

Definition update_of (index : nat) (row dbRow : obj) : UpdateItem :=
  mkUpdate row (VStr (computeRowHash row columns))
           (VStr (computeRowId row columns (VNum (Z.of_nat index))))
           dbRow (db_hash dbRow) (obj_get dbRow "id") index.

(** The hashes of a sheet row and a snapshot row differ. *)
Definition changed (row dbRow : obj) : bool :=
  strict_neq (VStr (computeRowHash row columns)) (db_hash dbRow).

(** The update item of a position held by both lists, if any. *)
Definition update_at (p : nat * (obj * obj)) : option UpdateItem :=
  if changed p.2.1 p.2.2 then Some (update_of p.1 p.2.1 p.2.2) else None.

(** The accumulator of the comparison loop after the positions below
    [k]. *)
Definition shape (sheetRows dbRows : list obj) (k : nat) : acc :=
  (imap (fun j row => insert_of (length dbRows + j) row)
        (drop (length dbRows) (take k sheetRows)),
   omap update_at (imap (fun i p => (i, p)) (zip (take k sheetRows) (take k dbRows))),
   imap (fun j dbRow => delete_of (length sheetRows + j) dbRow)
        (drop (length sheetRows) (take k dbRows))).

End Items.

End DiffShape.

(* ===================================================================== *)
(** ** Vocabulary: the keys of a table *)
(* ===================================================================== *)

Module StoreShape.
Import Js DiffEngine SnapshotStore.

(** The keys of the stored rows, in physical order. *)
Definition keys (tbl : Table) : list Z := map e_id (t_rows tbl).

(** The next [n] values of the table's SERIAL sequence. *)
Definition fresh_keys (tbl : Table) (n : nat) : list Z :=
  map (fun j => t_next_id tbl + Z.of_nat j) (seq 0 n).

(** [lo < k1 < k2 < ... < kn < hi] *)
Fixpoint ascending (lo : Z) (ids : list Z) (hi : Z) : bool :=
  match ids with
  | [] => lo <? hi
  | x :: rest => (lo <? x) && ascending x rest hi
  end.

(** A table filled through its sequence only: the keys are positive,
    ascend in physical order and lie below the next value of the
    sequence. *)
Definition well_formed (tbl : Table) : bool :=
  ascending 0 (keys tbl) (t_next_id tbl).

(** The active rows. *)
Definition active_rows (tbl : Table) : list Entry :=
  filter (fun e => is_active e = true) (t_rows tbl).

(** The row that the INSERT of [applyDiff] and [storeSnapshot] stores
    for a sheet row. *)
Definition new_entry (now revision : Z) (columns : list string)
           (key : Z) (hash : string) (row : obj) : Entry :=
  mkEntry key now now hash revision "sheet" None
          (set_data (sanitizedColumnsOf columns) (dataValues row columns) ∅).

(** What the UPDATE of [applyDiff] makes of a stored row. *)
Definition updated_entry (now revision : Z) (columns : list string)
           (hash : string) (row : obj) (e : Entry) : Entry :=
  mkEntry (e_id e) (e_created_at e) now hash revision "sheet" (e_deleted_at e)
          (set_data (sanitizedColumnsOf columns) (dataValues row columns) (e_data e)).

(** What a pass makes of the active row [e] whose snapshot row is at the
    position of the sheet row [row]: updated when the hashes differ,
    left alone otherwise. *)
Definition kept_row (now revision : Z) (columns : list string) (tbl : Table)
           (row : obj) (e : Entry) : Entry :=
  if DiffShape.changed columns row (snapshot_row (dbColumnNames tbl) columns e)
  then updated_entry now revision columns (computeRowHash row columns) row e
  else e.

(** The active rows after a pass over the sheet rows: the active rows at
    the positions the sheet has, kept or updated, then one new row per
    sheet row past the end of the snapshot. *)
Definition reconciled_rows (now revision : Z) (columns : list string) (tbl : Table)
           (sheetRows : list obj) : list Entry :=
  zip_with (kept_row now revision columns tbl) sheetRows (active_rows tbl) ++
  imap (fun j row => new_entry now revision columns (t_next_id tbl + Z.of_nat j)
                       (computeRowHash row columns) row)
       (drop (length (active_rows tbl)) sheetRows).

End StoreShape.

(* ===================================================================== *)
(** ** Vocabulary: identifiers *)
(* ===================================================================== *)

Module SchemaSpec.
Import Js Schema.

(** Every character of [s] satisfies [P]. *)
Fixpoint all_chars (P : ascii -> bool) (s : string) : bool :=
  match s with
  | EmptyString => true
  | String c s' => P c && all_chars P s'
  end.

(** The class [[a-z0-9_]]. *)
Definition is_lower_ident_char (c : ascii) : bool :=
  let n := nat_of_ascii c in
  (((97 <=? n) && (n <=? 122)) || ((48 <=? n) && (n <=? 57)) || (n =? 95))%nat.

Definition starts_with_underscore (s : string) : bool :=
  match s with
  | String c _ => Ascii.eqb c "_"
  | EmptyString => false
  end.

(** No two underscores in a row. *)
Fixpoint no_double_underscore (s : string) : bool :=
  match s with
  | EmptyString => true
  | String c s' =>
      match s' with
      | String c' _ => negb (Ascii.eqb c "_" && Ascii.eqb c' "_")
      | EmptyString => true
      end && no_double_underscore s'
  end.

(** The class [[0-9a-f]]. *)
Definition is_hex_char (c : ascii) : bool :=
  let n := nat_of_ascii c in
  (((48 <=? n) && (n <=? 57)) || ((97 <=? n) && (n <=? 102)))%nat.

(** The value of a character of [[0-9a-f]], and a text of such
    characters read as a number in base 16. *)
Definition hex_value (c : ascii) : nat :=
  let n := nat_of_ascii c in
  if ((48 <=? n) && (n <=? 57))%nat then (n - 48)%nat
  else if ((97 <=? n) && (n <=? 102))%nat then (n - 87)%nat
  else 0%nat.

Fixpoint hexval (s : string) : nat :=
  match s with
  | EmptyString => 0%nat
  | String c s' => (hex_value c * 16 ^ String.length s' + hexval s')%nat
  end.

(** The shape of a name that PostgreSQL reads unquoted without changing
    it: not empty, at most 63 characters from [[a-z0-9_]], not starting
    with a digit.  A reserved word has this shape too. *)
Definition pg_identifier (s : string) : bool :=
  negb (String.eqb s "") && (String.length s <=? 63)%nat
  && all_chars is_lower_ident_char s && negb (starts_with_digit s).

End SchemaSpec.

(* ===================================================================== *)
(** ** Sample data *)
(* ===================================================================== *)

Module Samples.
Import Js DiffEngine SnapshotStore SyncLock.

Definition cols : list string := ["name"; "age"].

Definition row_al : obj := [("name", VStr "Al"); ("age", VStr "30")].
Definition row_al_reordered : obj := [("age", VStr "30"); ("name", VStr "Al")].
Definition row_al_31 : obj := [("name", VStr "Al"); ("age", VStr "31")].

(** Two rows over the columns [a] and [b] whose values differ but whose
    canonical texts are both ["a:1|b:2|b:3"]. *)
Definition ab : list string := ["a"; "b"].
Definition row_sep_1 : obj := [("a", VStr "1|b:2"); ("b", VStr "3")].
Definition row_sep_2 : obj := [("a", VStr "1"); ("b", VStr "2|b:3")].

(** Two rows with an own property called [__proto__], as [JSON.parse]
    makes them. *)
Definition proto : list string := ["__proto__"].
Definition row_proto_a : obj := [("__proto__", VStr "a")].
Definition row_proto_b : obj := [("__proto__", VStr "b")].

(** The rows over the one column [c] that hold a number in decimal. *)
Definition numbered (i : nat) : obj := [("c", VStr (string_of_nat i))].

Definition empty_table : Table :=
  mkTable (systemColumns ++ ["name"; "age"]) [] 1.

(** A table with one active row (key 1) and one tombstone (key 2). *)
Definition entry_al : Entry :=
  mkEntry 1 100 100 "h1" 1 "sheet" None {[ "name" := "Al"; "age" := "30" ]}.
Definition entry_bo : Entry :=
  mkEntry 2 100 150 "h2" 1 "sheet" (Some 150) {[ "name" := "Bo"; "age" := "41" ]}.
Definition table : Table :=
  mkTable (systemColumns ++ ["name"; "age"]) [entry_al; entry_bo] 3.

(** A table that lacks the column [age]. *)
Definition narrow_table : Table :=
  mkTable (systemColumns ++ ["name"]) [entry_al] 2.

Definition delete_al : DeleteItem :=
  mkDelete row_al (VStr "h1") (VStr "h1") (VNum 1) 0.
Definition update_bo : UpdateItem :=
  mkUpdate row_al_31 (VStr "h3") (VStr "h3") [] (VStr "h2") (VNum 2) 1.
Definition update_no_key : UpdateItem :=
  mkUpdate row_al_31 (VStr "h3") (VStr "h3") [] (VStr "h2") VUndefined 1.
Definition update_al : UpdateItem :=
  mkUpdate row_al_31 (VStr "h3") (VStr "h3") [] (VStr "h1") (VNum 1) 0.

(** An update item whose key is no integer, and a delete item that
    carries the hash of a row but no key. *)
Definition update_bad_key : UpdateItem :=
  mkUpdate row_al_31 (VStr "h3") (VStr "h3") [] (VStr "h2") (VStr "abc") 1.
Definition delete_al_by_hash : DeleteItem :=
  mkDelete row_al (VStr "h1") (VStr "h1") VUndefined 0.

Definition diff_delete : Diff := mkDiff [] [] [delete_al] 0.
Definition diff_delete_by_hash : Diff := mkDiff [] [] [delete_al_by_hash] 0.
Definition diff_bad_key_delete : Diff := mkDiff [] [update_bad_key] [delete_al] 0.
Definition diff_update_tombstone : Diff := mkDiff [] [update_bo] [] 0.
Definition diff_update_al : Diff := mkDiff [] [update_al] [] 1.

Definition no_locks : State := mkState ∅ ∅ 0.

End Samples.

(** Further sample data: a sheet of two rows, and a snapshot row that
    carries the hash of [row_al]. *)
Module Scenarios.
Import Js DiffEngine SnapshotStore Samples.

Definition row_bo : obj := [("name", VStr "Bo"); ("age", VStr "41")].

Definition sheet_two : list obj := [row_al_31; row_bo].

Definition hashed_al : obj := [("row_hash", VStr (computeRowHash row_al cols))].

Definition row_with_id : obj := [("Order ID", VNum 17); ("name", VStr "Al")].

End Scenarios.

(* ===================================================================== *)
(** * Properties *)
(* ===================================================================== *)

(* --------------------------------------------------------------------- *)
(** ** The definitions on known inputs *)
(* --------------------------------------------------------------------- *)

Section KnownAnswers.
Import Js DiffEngine Schema SnapshotStore Samples.

(** SHA-256 test vectors: the empty message, ["abc"], and messages of 56
    and 64 bytes (one and two blocks of padding). *)
Example sha256_empty :
  Sha256.sha256 "" = "e3b0c44298fc1c149afbf4c8996fb92427ae41e4649b934ca495991b7852b855".
Proof. vm_compute. reflexivity. Qed.

Example sha256_abc :
  Sha256.sha256 "abc" = "ba7816bf8f01cfea414140de5dae2223b00361a396177a9cb410ff61f20015ad".
Proof. vm_compute. reflexivity. Qed.

Example sha256_56_bytes :
  Sha256.sha256 "aaaaaaaaaaaaaaaaaaaaaaaaaaaaaaaaaaaaaaaaaaaaaaaaaaaaaaaa"
  = "b35439a4ac6f0948b6d6f9e3c6af0f5f590ce20f1bde7090ef7970686ec6738a".
Proof. vm_compute. reflexivity. Qed.

Example sha256_64_bytes :
  Sha256.sha256 "aaaaaaaaaaaaaaaaaaaaaaaaaaaaaaaaaaaaaaaaaaaaaaaaaaaaaaaaaaaaaaaa"
  = "ffe054fe7ae0cb6dc65c3af9b61d5209f439851db43d0ba5997337df154668eb".
Proof. vm_compute. reflexivity. Qed.

Example string_of_numbers :
  string_of_Z 0 = "0" /\ string_of_Z (-12) = "-12" /\ string_of_nat 10 = "10".
Proof. vm_compute. auto. Qed.

Example sort_code_units : sort ["name"; "age"; "Zed"; "a"] = ["Zed"; "a"; "age"; "name"].
Proof. vm_compute. reflexivity. Qed.

Example normalizedString_al : normalizedString row_al cols = "age:30|name:Al".
Proof. vm_compute. reflexivity. Qed.

Example computeRowHash_al :
  computeRowHash row_al cols
  = "ecbc149da891d33183c9eee0b9edb226c680f8b0dcfd38989cdbe58182bcbe7c".
Proof. vm_compute. reflexivity. Qed.

Example sanitize_spaces : sanitizeColumnName "  First Name!! " = "first_name_".
Proof. vm_compute. reflexivity. Qed.

Example sanitize_digit : sanitizeColumnName "2nd--col" = "col_2nd_col".
Proof. vm_compute. reflexivity. Qed.

Example sanitize_blank : sanitizeColumnName "   " = "unnamed_column".
Proof. vm_compute. reflexivity. Qed.

Example sanitized_clashes :
  sanitizedColumnsOf ["a b"; "a_b"; "A-B"; "a_b_1"] = ["a_b"; "a_b_1"; "a_b_2"; "a_b_1_1"].
Proof. vm_compute. reflexivity. Qed.

Example key_parameters :
  pg_int (VStr "12") = Some (Some 12) /\ pg_int (VStr "abc") = None /\
  pg_int (VStr "") = None /\ pg_int (VNum 7) = Some (Some 7).
Proof. vm_compute. auto. Qed.

(** First reconciliation of the sheet [[{name: "Al", age: "30"}]]: one
    row is inserted, and the snapshot has one active entry with revision 1
    and source ["sheet"]. *)
Example scenario_seed :
  (storeSnapshot empty_table 10 cols [row_al] computeRowHash).1 = inr (1, 0) /\
  getSnapshot (storeSnapshot empty_table 10 cols [row_al] computeRowHash).2 cols
  = [[("id", VNum 1);
      ("row_hash", VStr "ecbc149da891d33183c9eee0b9edb226c680f8b0dcfd38989cdbe58182bcbe7c");
      ("revision", VNum 1); ("source", VStr "sheet"); ("deleted_at", VNull);
      ("name", VStr "Al"); ("age", VStr "30")]].
Proof. vm_compute. auto. Qed.

(** The sheet changes to [[{name: "Al", age: "31"}]]: the diff is one
    update, and applying it with revision 2 stamps the entry. *)
Example scenario_update :
  let seeded := (storeSnapshot empty_table 10 cols [row_al] computeRowHash).2 in
  let diff := computeDiff [row_al_31] (getSnapshot seeded cols) cols in
  (length (inserts diff), length (updates diff), length (deletes diff), unchanged diff)
    = (0%nat, 1%nat, 0%nat, 0) /\
  (applyDiff seeded 20 cols diff 2).1 = inr (mkCounts 0 1 0 0) /\
  map (fun r => (obj_get r "revision", obj_get r "deleted_at", obj_get r "age"))
      (getSnapshot (applyDiff seeded 20 cols diff 2).2 cols)
  = [(VNum 2, VNull, VStr "31")].
Proof. vm_compute. auto. Qed.

(** The sheet shrinks to no rows: the diff is one delete, the snapshot
    becomes empty and the stored row remains. *)
Example scenario_delete :
  let seeded := (storeSnapshot empty_table 10 cols [row_al] computeRowHash).2 in
  let diff := computeDiff [] (getSnapshot seeded cols) cols in
  (length (inserts diff), length (updates diff), length (deletes diff), unchanged diff)
    = (0%nat, 0%nat, 1%nat, 0) /\
  (applyDiff seeded 30 cols diff 2).1 = inr (mkCounts 0 0 1 0) /\
  getSnapshot (applyDiff seeded 30 cols diff 2).2 cols = [] /\
  length (t_rows (applyDiff seeded 30 cols diff 2).2) = 1%nat.
Proof. vm_compute. auto. Qed.

(** An unchanged sheet gives an empty diff. *)
Example scenario_no_change :
  let seeded := (storeSnapshot empty_table 10 cols [row_al] computeRowHash).2 in
  computeDiff [row_al] (getSnapshot seeded cols) cols = mkDiff [] [] [] 1.
Proof. vm_compute. reflexivity. Qed.

End KnownAnswers.

(* --------------------------------------------------------------------- *)
(** ** Sync lock *)
(* --------------------------------------------------------------------- *)

Section SyncLockProps.
Import SyncLock.

Lemma isSyncInProgress_true st key :
  isSyncInProgress st key = true <-> is_Some (syncLocks st !! key).
Proof. unfold isSyncInProgress. apply bool_decide_eq_true. Qed.

Lemma isSyncInProgress_false st key :
  isSyncInProgress st key = false <-> syncLocks st !! key = None.
Proof.
  unfold isSyncInProgress. rewrite bool_decide_eq_false.
  rewrite <- eq_None_not_Some. reflexivity.
Qed.

Lemma release_lookup h st :
  syncLocks (release h st) !! rh_sheetId h = None.
Proof. unfold release; simpl. apply lookup_delete_eq. Qed.

(** C8: [acquireSyncLock key] throws the contention error exactly when
    [key] is in the lock map, and then leaves the state as it is; when
    [key] is absent it stores a lock for [key] and returns a release
    handle for that key; the entries of all other keys are untouched. *)
Theorem acquireSyncLock_contention (st : State) (key : string) :
  ((exists msg, (acquireSyncLock st key).1 = Thrown msg)
     <-> is_Some (syncLocks st !! key)) /\
  (is_Some (syncLocks st !! key) ->
     acquireSyncLock st key = (Thrown (contentionError key), st)) /\
  (syncLocks st !! key = None ->
     exists h, (acquireSyncLock st key).1 = Returned h /\
               rh_sheetId h = key /\
               syncLocks (acquireSyncLock st key).2 !! key = Some (rh_promise h) /\
               syncLocks (release h (acquireSyncLock st key).2) !! key = None) /\
  (forall k, k <> key ->
     syncLocks (acquireSyncLock st key).2 !! k = syncLocks st !! k).
Proof.
  unfold acquireSyncLock.
  destruct (isSyncInProgress st key) eqn:E; simpl.
  - apply isSyncInProgress_true in E. repeat split; eauto.
    intros HN. rewrite HN in E. by destruct E.
  - apply isSyncInProgress_false in E. repeat split.
    + intros [msg Hm]. discriminate.
    + intros [p Hp]. congruence.
    + intros [p Hp]. congruence.
    + intros _. eexists. split; [reflexivity|]. simpl.
      split; [reflexivity|]. split.
      * apply lookup_insert_eq.
      * apply lookup_delete_eq.
    + intros k Hk. by apply lookup_insert_ne.
Qed.

(** C9: when [withSyncLock key fn] acquires the lock, [key] is out of the
    lock map when it terminates, whether [fn] returned (its result is
    returned) or threw (the error propagates). *)
Theorem withSyncLock_releases {A : Type} (others : State -> State) (st : State)
        (key : string) (fn : State -> outcome A * State)
        (h : ReleaseHandle) (st1 : State) :
  acquireSyncLock st key = (Returned h, st1) ->
  syncLocks (withSyncLock others st key fn).2 !! key = None /\
  (forall v st2, fn st1 = (Returned v, st2) ->
                 (withSyncLock others st key fn).1 = Returned v) /\
  (forall e st2, fn st1 = (Thrown e, st2) ->
                 (withSyncLock others st key fn).1 = Thrown e).
Proof.
  intros Hacq.
  assert (Hk : rh_sheetId h = key).
  { unfold acquireSyncLock in Hacq.
    destruct (isSyncInProgress st key); inversion Hacq; reflexivity. }
  unfold withSyncLock. rewrite Hacq.
  destruct (fn st1) as [[v|e] st2] eqn:Hfn; simpl.
  - split; [rewrite <- Hk; apply release_lookup|].
    split; intros ? ? [=]; congruence.
  - split; [rewrite <- Hk; apply release_lookup|].
    split; intros ? ? [=]; congruence.
Qed.

Lemma withSyncLock_releases_witness :
  syncLocks
    (withSyncLock (A := Z) (fun s => s) (mkState ∅ ∅ 0) "sheet1"
                  (fun s => (Thrown "already in progress elsewhere", s))).2
    !! "sheet1" = None.
Proof.
  refine (proj1 (withSyncLock_releases (A := Z) (fun s => s) (mkState ∅ ∅ 0) "sheet1"
                   (fun s => (Thrown "already in progress elsewhere", s))
                   (mkRelease "sheet1" 0%nat)
                   (mkState (<["sheet1" := 0%nat]> ∅) ∅ 1) _)).
  reflexivity.
Defined.

End SyncLockProps.

(* --------------------------------------------------------------------- *)
(** ** Diff engine: completeness of the classification *)
(* --------------------------------------------------------------------- *)

Section DiffProps.
Import Js DiffEngine.

Variables (sheetMap : list SheetRowData) (dbMap : list DbRowData).

Local Abbreviation classified := DiffSpec.classified.
Local Abbreviation loop_inv := (DiffSpec.loop_inv sheetMap dbMap).

Lemma loop_inv_init : loop_inv 0 ([], [], []).
Proof.
  split; simpl; try lia.
  - intros i. rewrite elem_of_nil. lia.
  - intros i. rewrite elem_of_nil. lia.
  - intros i. rewrite elem_of_nil. lia.
  - repeat split; constructor.
Qed.

Lemma strict_neq_true a b : strict_neq a b = true <-> a <> b.
Proof.
  unfold strict_neq. rewrite negb_true_iff, bool_decide_eq_false. reflexivity.
Qed.

Lemma strict_neq_false a b : strict_neq a b = false <-> a = b.
Proof.
  unfold strict_neq. rewrite negb_false_iff, bool_decide_eq_true. reflexivity.
Qed.

Lemma loop_inv_step k a :
  (k < Nat.max (length sheetMap) (length dbMap))%nat ->
  loop_inv k a -> loop_inv (S k) (diff_step sheetMap dbMap a k).
Proof.
  intros Hk [Hi Hu Hd (Ni & Nu & Nd) Hs Hb].
  destruct a as [[ins upd] del]; cbn [fst snd] in *.
  unfold diff_step.
  destruct (sheetMap !! k) as [s|] eqn:Es; destruct (dbMap !! k) as [d|] eqn:Ed.
  - pose proof (lookup_lt_Some _ _ _ Es). pose proof (lookup_lt_Some _ _ _ Ed).
    destruct (strict_neq (sr_hash s) (dr_hash d)) eqn:En.
    + apply strict_neq_true in En.
      split; cbn [fst snd].
      * intros i. rewrite Hi. lia.
      * intros i. rewrite map_app, elem_of_app, Hu. simpl.
        rewrite list_elem_of_singleton. split.
        -- intros [[? ?]| ->]; [split; [lia|done]|]. split; [lia|eauto].
        -- intros [Hlt Hex]. destruct (decide (i = k)) as [-> |]; [by right|].
           left. split; [lia|done].
      * intros i. rewrite Hd. lia.
      * repeat split; try done. rewrite map_app. apply NoDup_app.
        split; [done|]. split; [|apply NoDup_singleton].
        intros x Hx. apply Hu in Hx. simpl. rewrite list_elem_of_singleton. lia.
      * rewrite length_app. cbn [length]. lia.
      * lia.
    + apply strict_neq_false in En.
      split; cbn [fst snd].
      * intros i. rewrite Hi. lia.
      * intros i. rewrite Hu. split.
        -- intros [? ?]. split; [lia|done].
        -- intros [Hlt (s' & d' & Hs' & Hd' & Hne)].
           destruct (decide (i = k)) as [-> |]; [|split; [lia|eauto]].
           rewrite Es in Hs'. rewrite Ed in Hd'.
           inversion Hs'; inversion Hd'; subst. contradiction.
      * intros i. rewrite Hd. lia.
      * done.
      * lia.
      * lia.
  - pose proof (lookup_lt_Some _ _ _ Es). pose proof (lookup_ge_None_1 _ _ Ed).
    split; cbn [fst snd].
    + intros i. rewrite map_app, elem_of_app, Hi. simpl.
      rewrite list_elem_of_singleton. lia.
    + intros i. rewrite Hu. split.
      * intros [? ?]. split; [lia|done].
      * intros [Hlt (s' & d' & Hs' & Hd' & Hne)].
        destruct (decide (i = k)) as [-> |]; [congruence|]. split; [lia|eauto].
    + intros i. rewrite Hd. lia.
    + repeat split; try done. rewrite map_app. apply NoDup_app.
      split; [done|]. split; [|apply NoDup_singleton].
      intros x Hx. apply Hi in Hx. simpl. rewrite list_elem_of_singleton. lia.
    + rewrite length_app. cbn [length]. lia.
    + lia.
  - pose proof (lookup_ge_None_1 _ _ Es). pose proof (lookup_lt_Some _ _ _ Ed).
    split; cbn [fst snd].
    + intros i. rewrite Hi. lia.
    + intros i. rewrite Hu. split.
      * intros [? ?]. split; [lia|done].
      * intros [Hlt (s' & d' & Hs' & Hd' & Hne)].
        destruct (decide (i = k)) as [-> |]; [congruence|]. split; [lia|eauto].
    + intros i. rewrite map_app, elem_of_app, Hd. simpl.
      rewrite list_elem_of_singleton. lia.
    + repeat split; try done. rewrite map_app. apply NoDup_app.
      split; [done|]. split; [|apply NoDup_singleton].
      intros x Hx. apply Hd in Hx. simpl. rewrite list_elem_of_singleton. lia.
    + lia.
    + rewrite length_app. cbn [length]. lia.
  - pose proof (lookup_ge_None_1 _ _ Es). pose proof (lookup_ge_None_1 _ _ Ed). lia.
Qed.

Lemma loop_inv_run k :
  (k <= Nat.max (length sheetMap) (length dbMap))%nat ->
  loop_inv k (fold_left (diff_step sheetMap dbMap) (seq 0 k) ([], [], [])).
Proof.
  induction k as [|k IH]; intros Hk.
  - apply loop_inv_init.
  - rewrite seq_S, fold_left_app. simpl. apply loop_inv_step; [lia|]. apply IH. lia.
Qed.

Lemma loop_inv_classified k a :
  loop_inv k a ->
  NoDup (classified a) /\ (forall i, i ∈ classified a -> (i < k)%nat).
Proof.
  intros [Hi Hu Hd (Ni & Nu & Nd) Hs Hb]. unfold classified. split.
  - apply NoDup_app. split; [done|]. split.
    + intros x Hx. rewrite elem_of_app. apply Hi in Hx.
      intros [Hx'|Hx'].
      * apply Hu in Hx'. destruct Hx' as [_ (s & d & _ & Hd' & _)].
        apply lookup_lt_Some in Hd'. lia.
      * apply Hd in Hx'. lia.
    + apply NoDup_app. split; [done|]. split; [|done].
      intros x Hx Hx'. apply Hu in Hx. apply Hd in Hx'.
      destruct Hx as [_ (s & d & Hs' & _ & _)]. apply lookup_lt_Some in Hs'. lia.
  - intros i. rewrite !elem_of_app. intros [H|[H|H]].
    + apply Hi in H. lia.
    + apply Hu in H. lia.
    + apply Hd in H. lia.
Qed.

End DiffProps.

Section DiffComplete.
Import Js DiffEngine DiffSpec.

Lemma computeDiff_unfold sheetRows dbRows columns :
  let a := fold_left
             (diff_step (sheetRowsByIndex sheetRows columns) (dbRowsByIndex dbRows columns))
             (seq 0 (Nat.max (length sheetRows) (length dbRows))) ([], [], []) in
  computeDiff sheetRows dbRows columns =
    mkDiff a.1.1 a.1.2 a.2
           (Z.of_nat (length sheetRows) - Z.of_nat (length a.1.1) - Z.of_nat (length a.1.2)).
Proof.
  simpl. unfold computeDiff.
  destruct (fold_left _ _ _) as [[ins upd] del]. reflexivity.
Qed.

(** C1: [computeDiff] puts every position below
    [max(len(sheetRows), len(dbRows))] in at most one of the three lists
    (inserts are the positions only the sheet has, deletes those only
    the snapshot has, updates those both have with different hashes; the
    positions in no list are the unchanged rows), and
    [len(inserts) + len(updates) + len(deletes) + unchanged] is that
    maximum. *)
Theorem computeDiff_complete (sheetRows dbRows : list obj) (columns : list string) :
  let d := computeDiff sheetRows dbRows columns in
  let n := Nat.max (length sheetRows) (length dbRows) in
  let positions :=
    map ins_index (inserts d) ++ map upd_index (updates d) ++ map del_index (deletes d) in
  NoDup positions /\
  (forall i, i ∈ positions -> (i < n)%nat) /\
  (forall i, i ∈ map ins_index (inserts d) <-> (length dbRows <= i < length sheetRows)%nat) /\
  (forall i, i ∈ map del_index (deletes d) <-> (length sheetRows <= i < length dbRows)%nat) /\
  (forall i, i ∈ map upd_index (updates d) <->
     exists s r, sheetRowsByIndex sheetRows columns !! i = Some s /\
                 dbRowsByIndex dbRows columns !! i = Some r /\
                 sr_hash s <> dr_hash r) /\
  Z.of_nat (length (inserts d)) + Z.of_nat (length (updates d))
    + Z.of_nat (length (deletes d)) + unchanged d = Z.of_nat n.
Proof.
  intros d n positions. subst d positions.
  rewrite computeDiff_unfold. simpl.
  set (sheetMap := sheetRowsByIndex sheetRows columns).
  set (dbMap := dbRowsByIndex dbRows columns).
  assert (Ls : length sheetMap = length sheetRows) by apply length_imap.
  assert (Ld : length dbMap = length dbRows) by apply length_imap.
  pose proof (loop_inv_run sheetMap dbMap n) as Hinv.
  rewrite Ls, Ld in Hinv. specialize (Hinv (le_n _)).
  fold n. set (a := fold_left _ _ _) in *.
  destruct (loop_inv_classified _ _ _ _ Hinv) as [Hnd Hlt].
  destruct Hinv as [Hi Hu Hd _ Hs Hb].
  split; [exact Hnd|]. split; [exact Hlt|].
  split; [intros i; rewrite Hi; subst n; lia|].
  split; [intros i; rewrite Hd; subst n; lia|].
  split.
  { intros i. rewrite Hu. split; [intros [_ H]; exact H|].
    intros (s & r & Hs' & Hr' & Hne). split; [|eauto].
    apply lookup_lt_Some in Hs'. subst n. lia. }
  subst n. lia.
Qed.

End DiffComplete.

(* --------------------------------------------------------------------- *)
(** ** Row hash *)
(* --------------------------------------------------------------------- *)

Section ObjFacts.
Import Js.

Lemma obj_get_put (o : obj) (k k' : string) (v : jsval) :
  obj_get (obj_put o k v) k' = if decide (k = k') then v else obj_get o k'.
Proof.
  induction o as [|[k0 v0] o IH]; simpl.
  - destruct (String.eqb_spec k k'); destruct (decide (k = k')); congruence.
  - destruct (String.eqb_spec k0 k) as [->|Hne]; simpl.
    + destruct (String.eqb_spec k k'); destruct (decide (k = k')); congruence.
    + destruct (String.eqb_spec k0 k') as [->|Hne'].
      * destruct (decide (k = k')); congruence.
      * apply IH.
Qed.

Lemma obj_set_proto (o : obj) (v : jsval) : obj_set o "__proto__" v = o.
Proof. reflexivity. Qed.

Lemma obj_set_put (o : obj) (k : string) (v : jsval) :
  k <> "__proto__" -> obj_set o k v = obj_put o k v.
Proof. intros H. unfold obj_set. by destruct (String.eqb_spec k "__proto__"). Qed.

Lemma obj_get_set (o : obj) (k k' : string) (v : jsval) :
  obj_get (obj_set o k v) k'
  = if decide (k = k' /\ k <> "__proto__") then v else obj_get o k'.
Proof.
  destruct (decide (k = "__proto__")) as [->|Hp].
  - rewrite obj_set_proto. rewrite decide_False; [done|]. tauto.
  - rewrite obj_set_put, obj_get_put by done.
    destruct (decide (k = k')) as [->|Hne].
    + by rewrite decide_True.
    + rewrite decide_False; [done|]. tauto.
Qed.

(** An assignment under another name than [__proto__] is read back. *)
Lemma obj_get_set_other (o : obj) (k k' : string) (v : jsval) :
  k <> k' -> obj_get (obj_set o k v) k' = obj_get o k'.
Proof. intros H. rewrite obj_get_set. rewrite decide_False; [done|]. tauto. Qed.

Lemma obj_keys_put (o : obj) (k : string) (v : jsval) :
  obj_keys (obj_put o k v) = if decide (k ∈ obj_keys o) then obj_keys o else obj_keys o ++ [k].
Proof.
  unfold obj_keys. induction o as [|[k0 v0] o IH]; simpl.
  - destruct (decide (k ∈ [])) as [H|]; [inversion H|reflexivity].
  - destruct (String.eqb_spec k0 k) as [->|Hne]; simpl.
    + destruct (decide (k ∈ k :: map fst o)) as [|H]; [reflexivity|].
      exfalso. apply H. left.
    + rewrite IH. destruct (decide (k ∈ map fst o)) as [Hin|Hnin].
      * rewrite decide_True by (by right). reflexivity.
      * rewrite decide_False; [reflexivity|].
        intros [?|?]%elem_of_cons; congruence.
Qed.

Lemma obj_keys_set (o : obj) (k : string) (v : jsval) :
  obj_keys (obj_set o k v)
  = if decide (k ∈ obj_keys o \/ k = "__proto__") then obj_keys o else obj_keys o ++ [k].
Proof.
  destruct (decide (k = "__proto__")) as [->|Hp].
  - rewrite obj_set_proto. rewrite decide_True; [done|]. by right.
  - rewrite obj_set_put, obj_keys_put by done.
    destruct (decide (k ∈ obj_keys o)) as [Hin|Hnin].
    + rewrite decide_True; [done|]. by left.
    + rewrite decide_False; [done|]. tauto.
Qed.

Lemma obj_get_not_key (o : obj) (k : string) :
  k ∉ obj_keys o -> obj_get o k = inherited k.
Proof.
  unfold obj_keys. induction o as [|[k0 v0] o IH]; simpl; [done|].
  intros Hn. destruct (String.eqb_spec k0 k) as [->|Hne].
  - exfalso. apply Hn. left.
  - apply IH. intros ?. apply Hn. by right.
Qed.

(** Reading a property does not depend on the order in which the
    properties of the object were inserted. *)
Lemma obj_get_Permutation (o1 o2 : obj) (k : string) :
  NoDup (obj_keys o1) -> o1 ≡ₚ o2 -> obj_get o1 k = obj_get o2 k.
Proof.
  intros Hnd Hp. revert Hnd.
  induction Hp as [|[k0 v0] o1 o2 Hp IH|[k0 v0] [k1 v1] o|o1 o2 o3 Hp1 IH1 Hp2 IH2];
    simpl; intros Hnd.
  - reflexivity.
  - apply NoDup_cons in Hnd as [_ Hnd]. rewrite IH by done. reflexivity.
  - apply NoDup_cons in Hnd as [Hn _].
    destruct (String.eqb_spec k1 k) as [->|]; destruct (String.eqb_spec k0 k) as [->|];
      try reflexivity.
    exfalso. apply Hn. left.
  - rewrite IH1 by done. apply IH2.
    unfold obj_keys in *. by rewrite <- Hp1.
Qed.

End ObjFacts.

Section HashProps.
Import Js DiffEngine.

Lemma normalized_of_snoc row columns col :
  normalized_of row (columns ++ [col]) =
  obj_set (normalized_of row columns) col (VStr (normalize_value (obj_get row col))).
Proof. unfold normalized_of. rewrite fold_left_app. reflexivity. Qed.

(** The normalized object holds the listed columns, but for a column
    called [__proto__], which the assignment drops. *)
Lemma normalized_of_get row columns c :
  obj_get (normalized_of row columns) c =
  if decide (c ∈ columns /\ c <> "__proto__")
  then VStr (normalize_value (obj_get row c)) else inherited c.
Proof.
  induction columns as [|col columns IH] using rev_ind.
  - rewrite decide_False; [done|]. intros [H _]. inversion H.
  - rewrite normalized_of_snoc, obj_get_set, IH.
    destruct (decide (col = c /\ col <> "__proto__")) as [[-> Hp]|Hne].
    + rewrite decide_True; [reflexivity|]. split; [|done]. apply elem_of_app. right. left.
    + destruct (decide (c ∈ columns /\ c <> "__proto__")) as [[Hin Hp]|Hnin].
      * rewrite decide_True; [reflexivity|]. split; [|done]. apply elem_of_app. by left.
      * rewrite decide_False; [reflexivity|].
        rewrite elem_of_app, list_elem_of_singleton. intros [[?| ->] ?]; tauto.
Qed.

Lemma normalized_of_keys row1 row2 columns :
  obj_keys (normalized_of row1 columns) = obj_keys (normalized_of row2 columns).
Proof.
  induction columns as [|col columns IH] using rev_ind; [reflexivity|].
  rewrite !normalized_of_snoc, !obj_keys_set, IH. reflexivity.
Qed.

Lemma normalized_of_keys_elem row columns c :
  c ∈ obj_keys (normalized_of row columns) <-> c ∈ columns /\ c <> "__proto__".
Proof.
  revert c. induction columns as [|col columns IH] using rev_ind; intros c.
  - simpl. split; [intros H; inversion H|intros [H _]; inversion H].
  - rewrite normalized_of_snoc, obj_keys_set.
    destruct (decide (col ∈ obj_keys (normalized_of row columns) \/ col = "__proto__"))
      as [Hin|Hnin].
    + rewrite IH, elem_of_app, list_elem_of_singleton.
      split; [tauto|]. intros [[?| ->] Hp]; [done|].
      destruct Hin as [Hin| ->]; [by apply IH in Hin|done].
    + rewrite !elem_of_app, IH, list_elem_of_singleton.
      split; [intros [?| ->]; tauto|tauto].
Qed.

Lemma normalized_of_ext row1 row2 columns :
  (forall c, c ∈ columns -> c <> "__proto__" ->
             normalize_value (obj_get row1 c) = normalize_value (obj_get row2 c)) ->
  normalized_of row1 columns = normalized_of row2 columns.
Proof.
  induction columns as [|col columns IH] using rev_ind; intros H; [reflexivity|].
  rewrite !normalized_of_snoc, IH.
  - destruct (decide (col = "__proto__")) as [->|Hp]; [by rewrite !obj_set_proto|].
    rewrite H; [reflexivity| |done]. apply elem_of_app. right. left.
  - intros c Hc. apply H. apply elem_of_app. by left.
Qed.

(** C2: two rows that give the same value to every listed column have
    the same hash, whatever the order of their properties. *)
Theorem computeRowHash_deterministic (columns : list string) (r1 r2 : obj) :
  (forall c, c ∈ columns -> obj_get r1 c = obj_get r2 c) ->
  computeRowHash r1 columns = computeRowHash r2 columns.
Proof.
  intros H. unfold computeRowHash, normalizedString.
  rewrite (normalized_of_ext r1 r2 columns); [reflexivity|].
  intros c Hc _. rewrite H by done. reflexivity.
Qed.

End HashProps.

Section CanonicalText.
Import Js DiffEngine.

Lemma append_cancel_l (s a b : string) : s +:+ a = s +:+ b -> a = b.
Proof. induction s as [|c s IH]; simpl; [done|]. intros [=]. auto. Qed.

Lemma append_assoc' (a b c : string) : (a +:+ b) +:+ c = a +:+ (b +:+ c).
Proof.
  induction a as [|x a IH]; [done|].
  change (String x ((a +:+ b) +:+ c) = String x (a +:+ b +:+ c)). by rewrite IH.
Qed.

Lemma includes_cons (c : ascii) (s : string) :
  includes (String c s) "|" = Ascii.eqb "|" c || includes s "|".
Proof.
  change (includes (String c s) "|")
    with (String.prefix "|" (String c s) || includes s "|").
  unfold String.prefix. destruct (ascii_dec "|" c) as [<-|Hne].
  - destruct s; reflexivity.
  - apply Ascii.eqb_neq in Hne. rewrite Hne. reflexivity.
Qed.

(** A text without the separator ends where the first separator of the
    whole is. *)
Lemma split_at_separator (a b x y : string) :
  includes a "|" = false -> includes b "|" = false ->
  a +:+ "|" +:+ x = b +:+ "|" +:+ y -> a = b /\ x = y.
Proof.
  revert b. induction a as [|c a IH]; intros [|c' b] Ha Hb; simpl.
  - intros [=]. done.
  - intros [= <- _]. rewrite includes_cons, Ascii.eqb_refl in Hb. discriminate.
  - intros [= -> _]. rewrite includes_cons, Ascii.eqb_refl in Ha. discriminate.
  - intros [= <- Heq]. rewrite includes_cons in Ha, Hb.
    apply orb_false_iff in Ha as [_ Ha]. apply orb_false_iff in Hb as [_ Hb].
    destruct (IH b Ha Hb Heq) as [-> ->]. done.
Qed.

Lemma sort_insert_elem (x y : string) (l : list string) :
  y ∈ sort_insert x l <-> y = x \/ y ∈ l.
Proof.
  induction l as [|z l IH]; simpl.
  - rewrite list_elem_of_singleton, elem_of_nil. tauto.
  - destruct (String.ltb z x || String.eqb z x).
    + rewrite !elem_of_cons, IH. tauto.
    + rewrite !elem_of_cons. tauto.
Qed.

Lemma sort_elem (y : string) (l : list string) : y ∈ sort l <-> y ∈ l.
Proof.
  unfold sort. transitivity (y ∈ rev l).
  - induction (rev l) as [|x r IH]; simpl; [reflexivity|].
    rewrite sort_insert_elem, elem_of_cons, IH. reflexivity.
  - rewrite !list_elem_of_In. symmetry. apply in_rev.
Qed.

(** The joined text determines the value of every key when no value
    holds the separator. *)
Lemma join_pairs_injective (v1 v2 : string -> string) (keys : list string) :
  (forall k, k ∈ keys -> includes (v1 k) "|" = false /\ includes (v2 k) "|" = false) ->
  join "|" (map (fun k => k +:+ ":" +:+ v1 k) keys)
    = join "|" (map (fun k => k +:+ ":" +:+ v2 k) keys) ->
  forall k, k ∈ keys -> v1 k = v2 k.
Proof.
  induction keys as [|k0 keys IH]; intros Hsep Heq k Hk; [inversion Hk|].
  destruct (Hsep k0 ltac:(left)) as [H1 H2].
  destruct keys as [|k1 keys].
  - simpl in Heq. apply append_cancel_l, append_cancel_l in Heq.
    apply list_elem_of_singleton in Hk as ->. exact Heq.
  - change (join "|" (map ?f (k0 :: k1 :: keys)))
      with (f k0 +:+ "|" +:+ join "|" (map f (k1 :: keys))) in Heq.
    cbv beta in Heq. rewrite !append_assoc' in Heq.
    apply append_cancel_l, append_cancel_l in Heq.
    apply split_at_separator in Heq as [Hv Hrest]; [|done..].
    apply elem_of_cons in Hk as [->|Hk]; [exact Hv|].
    apply IH; [|exact Hrest|exact Hk].
    intros k' Hk'. apply Hsep. by right.
Qed.

(** C3, amended: let no normalized value of a listed column hold the
    separator ["|"], and let two rows differ in the normalized value of a
    listed column other than [__proto__] (a column of that name never
    reaches the canonical text).  Then the canonical texts of the rows
    differ, and so do the digests that [computeRowHash] returns, unless
    the two texts are a collision of SHA-256. *)
Theorem computeRowHash_distinguishes (columns : list string) (r1 r2 : obj) :
  (forall c, c ∈ columns -> c <> "__proto__" ->
     includes (normalize_value (obj_get r1 c)) "|" = false /\
     includes (normalize_value (obj_get r2 c)) "|" = false) ->
  (exists c, c ∈ columns /\ c <> "__proto__" /\
             normalize_value (obj_get r1 c) <> normalize_value (obj_get r2 c)) ->
  normalizedString r1 columns <> normalizedString r2 columns /\
  ((Sha256.sha256 (normalizedString r1 columns)
    = Sha256.sha256 (normalizedString r2 columns) ->
    normalizedString r1 columns = normalizedString r2 columns) ->
   computeRowHash r1 columns <> computeRowHash r2 columns).
Proof.
  intros Hsep (c & Hc & Hp & Hdiff).
  assert (Htext : normalizedString r1 columns <> normalizedString r2 columns).
  { intros Heq. apply Hdiff.
    unfold normalizedString in Heq.
    rewrite (normalized_of_keys r2 r1) in Heq.
    set (keys := sort (obj_keys (normalized_of r1 columns))) in *.
    assert (Hkeys : forall k, k ∈ keys <-> k ∈ columns /\ k <> "__proto__").
    { intros k. unfold keys. rewrite sort_elem. apply normalized_of_keys_elem. }
    pose proof (join_pairs_injective
                  (fun k => toString (obj_get (normalized_of r1 columns) k))
                  (fun k => toString (obj_get (normalized_of r2 columns) k)) keys) as Hinj.
    cbv beta in Hinj.
    specialize (Hinj ltac:(intros k Hk; apply Hkeys in Hk as [Hk1 Hk2];
                           rewrite !normalized_of_get, !decide_True by done;
                           simpl; auto) Heq c ltac:(by apply Hkeys)).
    rewrite !normalized_of_get, !decide_True in Hinj by done. exact Hinj. }
  split; [exact Htext|].
  intros Hsha Heq. apply Htext, Hsha. exact Heq.
Qed.

End CanonicalText.

(* --------------------------------------------------------------------- *)
(** ** Snapshot store: the column mapping *)
(* --------------------------------------------------------------------- *)

Section ColumnMapping.
Import Js Schema SnapshotStore StoreSpec.

Lemma string_of_nat_inj (n m : nat) : string_of_nat n = string_of_nat m -> n = m.
Proof.
  unfold string_of_nat. intros H.
  assert (Hnn : forall k, Nat.to_uint k <> Decimal.Nil).
  { intros k Hk. pose proof (DecimalNat.Unsigned.to_of (Nat.to_uint k)) as E.
    rewrite DecimalNat.Unsigned.of_to, Hk in E.
    symmetry in E. revert E. apply DecimalFacts.unorm_nonnil. }
  apply (f_equal NilZero.uint_of_string) in H.
  rewrite !NilZero.usu in H by apply Hnn.
  injection H as H. by apply DecimalNat.Unsigned.to_uint_inj.
Qed.

Lemma candidate_inj sanitized : Inj (=) (=) (candidate sanitized).
Proof.
  intros n m H. unfold candidate in H.
  apply append_cancel_l in H. injection H as H. by apply string_of_nat_inj.
Qed.

Lemma append_empty_r (s : string) : s +:+ "" = s.
Proof. induction s as [|c s IH]; [done|]. change (String c (s +:+ "") = String c s). by rewrite IH. Qed.

Lemma candidate_neq sanitized n : candidate sanitized n <> sanitized.
Proof.
  unfold candidate. intros H. rewrite <- (append_empty_r sanitized) in H at 2.
  apply append_cancel_l in H. discriminate.
Qed.

(** The inner loop returns the first candidate from [counter] on that is
    not in the set, provided there is one within [fuel] steps. *)
Lemma uniqueSanitized_first fuel seen sanitized counter :
  (exists k, (counter <= k < counter + fuel)%nat /\ candidate sanitized k ∉ seen) ->
  exists k, (counter <= k < counter + fuel)%nat /\
            uniqueSanitized fuel seen sanitized counter = candidate sanitized k /\
            (candidate sanitized k ∉ seen) /\
            forall j, (counter <= j < k)%nat -> candidate sanitized j ∈ seen.
Proof.
  revert counter. induction fuel as [|fuel IH]; intros counter (k & Hk & Hfresh).
  - lia.
  - simpl. fold (candidate sanitized counter).
    destruct (bool_decide_reflect (candidate sanitized counter ∈ seen)) as [Hin|Hnin].
    + destruct (IH (S counter)) as (k' & Hk' & Heq & Hf & Hbelow).
      { exists k. split; [|done]. destruct (decide (k = counter)) as [->|]; [done|lia]. }
      exists k'. split; [lia|]. split; [done|]. split; [done|].
      intros j Hj. destruct (decide (j = counter)) as [->|]; [done|]. apply Hbelow. lia.
    + exists counter. split; [lia|]. split; [done|]. split; [done|]. intros j Hj. lia.
Qed.

(** A set of [n] names that holds [sanitized] misses one of the first
    [n] candidates. *)
Lemma candidate_available (seen : gset string) sanitized :
  sanitized ∈ seen ->
  exists k, (1 <= k < 1 + size seen)%nat /\ candidate sanitized k ∉ seen.
Proof.
  intros Hin.
  destruct (decide (Forall (fun k => candidate sanitized k ∈ seen) (seq 1 (size seen))))
    as [Hall|Hnot].
  - exfalso.
    set (l := sanitized :: (candidate sanitized <$> seq 1 (size seen))).
    assert (Hnd : NoDup l).
    { apply NoDup_cons. split.
      - intros (k & Hk & _)%list_elem_of_fmap. symmetry in Hk. by apply candidate_neq in Hk.
      - apply NoDup_fmap_2; [apply candidate_inj|]. apply NoDup_ListNoDup, List.seq_NoDup. }
    assert (Hsub : list_to_set (C := gset string) l ⊆ seen).
    { intros x Hx. apply elem_of_list_to_set in Hx.
      apply elem_of_cons in Hx as [->|Hx]; [done|].
      apply list_elem_of_fmap in Hx as (k & -> & Hk).
      rewrite Forall_forall in Hall. by apply Hall. }
    apply subseteq_size in Hsub. rewrite size_list_to_set in Hsub by done.
    subst l. simpl in Hsub. rewrite length_fmap, length_seq in Hsub. lia.
  - apply not_Forall_Exists in Hnot; [|intros ?; apply _].
    apply Exists_exists in Hnot as (k & Hk & Hf).
    exists k. split; [|exact Hf].
    apply list_elem_of_In, in_seq in Hk. lia.
Qed.

(** The name chosen for a clashing column is new: the bound on the
    inner loop is never what stops it. *)
Lemma uniqueSanitized_fresh (seen : gset string) sanitized :
  sanitized ∈ seen ->
  uniqueSanitized (size seen) seen sanitized 1 ∉ seen.
Proof.
  intros Hin.
  destruct (uniqueSanitized_first (size seen) seen sanitized 1
              (candidate_available seen sanitized Hin)) as (k & _ & -> & Hf & _).
  exact Hf.
Qed.

Lemma column_step_inv st col :
  (forall c, c ∈ st.1 <-> c ∈ st.2) -> NoDup st.1 ->
  (forall c, c ∈ (column_step st col).1 <-> c ∈ (column_step st col).2)
  /\ NoDup (column_step st col).1
  /\ length (column_step st col).1 = S (length st.1).
Proof.
  destruct st as [cols seen]; simpl. intros Hdom Hnd.
  destruct (bool_decide_reflect (sanitizeColumnName col ∈ seen)) as [Hin|Hnin]; simpl.
  - pose proof (uniqueSanitized_fresh seen _ Hin) as Hf.
    split; [|split].
    + intros c. rewrite elem_of_app, list_elem_of_singleton, elem_of_union,
        elem_of_singleton, Hdom. tauto.
    + apply NoDup_app. split; [done|]. split; [|apply NoDup_singleton].
      intros x Hx. rewrite list_elem_of_singleton. intros ->. by apply Hdom in Hx.
    + rewrite length_app. simpl. lia.
  - split; [|split].
    + intros c. rewrite elem_of_app, list_elem_of_singleton, elem_of_union,
        elem_of_singleton, Hdom. tauto.
    + apply NoDup_app. split; [done|]. split; [|apply NoDup_singleton].
      intros x Hx. rewrite list_elem_of_singleton. intros ->. by apply Hdom in Hx.
    + rewrite length_app. simpl. lia.
Qed.

(** The sanitized names are pairwise different and there is one per
    column. *)
Lemma sanitizedColumnsOf_spec columns :
  NoDup (sanitizedColumnsOf columns) /\
  length (sanitizedColumnsOf columns) = length columns.
Proof.
  unfold sanitizedColumnsOf.
  assert (H : forall st,
             (forall c, c ∈ st.1 <-> c ∈ st.2) -> NoDup st.1 ->
             NoDup (fold_left column_step columns st).1 /\
             length (fold_left column_step columns st).1 = (length st.1 + length columns)%nat).
  { induction columns as [|col columns IH]; intros st Hdom Hnd; simpl.
    - split; [done|lia].
    - destruct (column_step_inv st col Hdom Hnd) as (Hdom' & Hnd' & Hlen).
      destruct (IH _ Hdom' Hnd') as [H1 H2]. split; [done|]. rewrite H2, Hlen. lia. }
  destruct (H ([], ∅)) as [H1 H2]; simpl.
  - intros c. rewrite elem_of_nil, elem_of_empty. tauto.
  - constructor.
  - split; [done|]. rewrite H2. simpl. lia.
Qed.

End ColumnMapping.

(* --------------------------------------------------------------------- *)
(** ** Snapshot store: schema check *)
(* --------------------------------------------------------------------- *)

Section SchemaCheck.
Import Js DiffEngine SnapshotStore StoreSpec.

Lemma missing_nonempty (tbl : Table) (sanitizedColumns : list string) :
  (exists c, c ∈ sanitizedColumns /\ c ∉ dbColumnNames tbl) ->
  (0 <? length (missingColumns tbl sanitizedColumns))%nat = true.
Proof.
  intros (c & Hc & Hn). apply Nat.ltb_lt.
  assert (Hin : c ∈ missingColumns tbl sanitizedColumns).
  { unfold missingColumns. apply list_elem_of_filter. done. }
  destruct (missingColumns tbl sanitizedColumns); [inversion Hin|simpl; lia].
Qed.

Lemma dbColumnNames_elem (tbl : Table) (c : string) :
  c ∈ dbColumnNames tbl <-> c ∈ t_columns tbl /\ c ∉ systemColumns.
Proof. unfold dbColumnNames. rewrite list_elem_of_filter. tauto. Qed.

(** C4: when one of the sanitized columns is not a column of the physical
    table (or is one of its system columns, which the check leaves out of
    the table's data columns), [applyDiff] and [storeSnapshot] throw the
    missing-columns error whatever the rows to apply are, and the stored
    table is what it was. *)
Theorem schema_mismatch_fails (tbl : Table) (now : Z) (columns : list string)
        (diff : Diff) (currentRevision : Z) (data : list obj)
        (hashfn : obj -> list string -> string) :
  (exists c, c ∈ sanitizedColumnsOf columns /\
             (c ∉ t_columns tbl \/ c ∈ systemColumns)) ->
  applyDiff tbl now columns diff currentRevision
    = (inl (schemaError (missingColumns tbl (sanitizedColumnsOf columns))), tbl) /\
  storeSnapshot tbl now columns data hashfn
    = (inl (schemaError (missingColumns tbl (sanitizedColumnsOf columns))), tbl).
Proof.
  intros (c & Hc & Habs).
  assert (H : (0 <? length (missingColumns tbl (sanitizedColumnsOf columns)))%nat = true).
  { apply missing_nonempty. exists c. split; [done|].
    rewrite dbColumnNames_elem. tauto. }
  unfold applyDiff, storeSnapshot. rewrite H. done.
Qed.

End SchemaCheck.

(* --------------------------------------------------------------------- *)
(** ** Snapshot store: what one statement does *)
(* --------------------------------------------------------------------- *)

Section StatementProps.
Import Js DiffEngine SnapshotStore.

Variables (now N : Z).

Local Abbreviation row_step := (StoreSpec.row_step N).
Local Abbreviation evolves := (StoreSpec.evolves N).
Local Abbreviation stmt_revision := StoreSpec.stmt_revision.
Local Abbreviation stmt_selects := StoreSpec.stmt_selects.
Local Abbreviation reads_as_key := StoreSpec.reads_as_key.

Lemma lookup_map {A B} (f : A -> B) (l : list A) (i : nat) :
  map f l !! i = f <$> (l !! i).
Proof. apply (list_lookup_fmap f l i). Qed.

Lemma row_step_refl e : row_step e e.
Proof. by left. Qed.

Lemma row_step_trans e1 e2 e3 : row_step e1 e2 -> row_step e2 e3 -> row_step e1 e3.
Proof.
  intros [->|(A1 & I1 & R1)] [->|(A2 & I2 & R2)]; unfold row_step; auto.
  right. repeat split; congruence.
Qed.

Lemma row_step_id e e' : row_step e e' -> e_id e' = e_id e.
Proof. by intros [->|(_ & ? & _)]. Qed.

Lemma row_step_inactive e e' : row_step e e' -> is_active e = false -> e' = e.
Proof. intros [->|(? & _)]; congruence. Qed.

Lemma evolves_refl tbl : evolves tbl tbl.
Proof.
  split; [done| |].
  - intros i e He. exists e. split; [done|apply row_step_refl].
  - intros i e' He Hi. apply lookup_lt_Some in He. lia.
Qed.

Lemma evolves_trans t1 t2 t3 : evolves t1 t2 -> evolves t2 t3 -> evolves t1 t3.
Proof.
  intros [C1 O1 N1] [C2 O2 N2]. split; [congruence| |].
  - intros i e He. destruct (O1 i e He) as (e' & He' & S1).
    destruct (O2 i e' He') as (e'' & He'' & S2).
    exists e''. split; [done|]. by eapply row_step_trans.
  - intros i e3 He3 Hi.
    destruct (t_rows t2 !! i) as [e2|] eqn:He2.
    + destruct (O2 i e2 He2) as (e3' & He3' & [->|(_ & _ & R)]);
        rewrite He3 in He3'; injection He3' as <-; [|done].
      by apply (N1 i).
    + apply (N2 i); [done|]. by apply lookup_ge_None_1.
Qed.

Lemma update_where_evolves tbl (sel : Entry -> bool) (f : Entry -> Entry) :
  (forall e, sel e = true -> is_active e = true) ->
  (forall e, e_id (f e) = e_id e /\ e_revision (f e) = N) ->
  evolves tbl (with_rows tbl (update_where now sel f (t_rows tbl))).
Proof.
  intros Hsel Hf. split; [done| |]; simpl; unfold update_where.
  - intros i e He. rewrite lookup_map, He. simpl. eexists. split; [done|].
    destruct (sel e) eqn:Es; [|by left]. right.
    destruct (Hf e) as [? ?]. simpl. auto.
  - intros i e' He Hi. apply lookup_lt_Some in He. rewrite length_map in He. lia.
Qed.

(** *** Reading the parameters *)

Lemma bind_revision_Some r r' : bind_revision r = Some r' -> r' = r /\ int4 r = true.
Proof. unfold bind_revision. destruct (int4 r); [|done]. by intros [= <-]. Qed.

Lemma bind_values_Some vals vals' : bind_values vals = Some vals' -> vals' = vals.
Proof. unfold bind_values. destruct (forallb _ _); [|done]. by intros [= <-]. Qed.

Lemma bind_text_Some v h : bind_text v = Some h -> h = pg_text v.
Proof.
  unfold bind_text. destruct (pg_text v) as [s|]; [|by intros [= <-]].
  destruct (has_nul s); [done|]. by intros [= <-].
Qed.

(** A statement that does not raise, case by case: the parameters as the
    server has read them, and the statement run with them. *)
Lemma exec_inv stmt tbl tbl' :
  exec now stmt tbl = Some tbl' ->
  int4 (stmt_revision stmt) = true /\
  match stmt with
  | UpdateRow hash r src cols vals id =>
      exists h src' key,
        bind_hash hash = Some h /\ bind_source src = Some src' /\
        bind_values vals = Some vals /\ pg_int id = Some key /\
        execute now (BUpdate h r src' cols vals key) tbl = Some tbl'
  | InsertRow hash r src cols vals =>
      exists h src',
        bind_hash hash = Some h /\ bind_source src = Some src' /\
        bind_values vals = Some vals /\
        execute now (BInsert h r src' cols vals) tbl = Some tbl'
  | SoftDeleteById r id =>
      exists key, pg_int id = Some key /\ execute now (BDeleteById r key) tbl = Some tbl'
  | SoftDeleteByHash r hash =>
      execute now (BDeleteByHash r (pg_text hash)) tbl = Some tbl'
  end.
Proof.
  unfold exec. destruct stmt as [hash r src cols vals id|hash r src cols vals|r id|r hash];
    cbn [bind StoreSpec.stmt_revision]; intros H.
  - destruct (bind_hash hash) as [h|] eqn:Eh; [|done]. cbn in H.
    destruct (bind_revision r) as [r'|] eqn:Er; [|done]. cbn in H.
    destruct (bind_source src) as [src'|] eqn:Es; [|done]. cbn in H.
    destruct (bind_values vals) as [vs|] eqn:Ev; [|done]. cbn in H.
    destruct (pg_int id) as [key|] eqn:Ek; [|done]. cbn in H.
    apply bind_revision_Some in Er as [-> Hr]. pose proof (bind_values_Some _ _ Ev) as Hv. subst vs.
    split; [done|]. by exists h, src', key.
  - destruct (bind_hash hash) as [h|] eqn:Eh; [|done]. cbn in H.
    destruct (bind_revision r) as [r'|] eqn:Er; [|done]. cbn in H.
    destruct (bind_source src) as [src'|] eqn:Es; [|done]. cbn in H.
    destruct (bind_values vals) as [vs|] eqn:Ev; [|done]. cbn in H.
    apply bind_revision_Some in Er as [-> Hr]. pose proof (bind_values_Some _ _ Ev) as Hv. subst vs.
    split; [done|]. by exists h, src'.
  - destruct (bind_revision r) as [r'|] eqn:Er; [|done]. cbn in H.
    destruct (pg_int id) as [key|] eqn:Ek; [|done]. cbn in H.
    apply bind_revision_Some in Er as [-> Hr]. split; [done|]. by exists key.
  - destruct (bind_revision r) as [r'|] eqn:Er; [|done]. cbn in H.
    destruct (bind_text hash) as [h|] eqn:Eh; [|done]. cbn in H.
    apply bind_revision_Some in Er as [-> Hr]. apply bind_text_Some in Eh as ->. done.
Qed.

(** *** What a statement that does not raise makes of the table *)

Lemma exec_evolves stmt tbl tbl' :
  stmt_revision stmt = N -> exec now stmt tbl = Some tbl' -> evolves tbl tbl'.
Proof.
  intros Hr H. apply exec_inv in H as [_ H].
  destruct stmt as [hash r src cols vals id|hash r src cols vals|r id|r hash];
    cbn [StoreSpec.stmt_revision] in Hr; subst r.
  - destruct H as (h & src' & key & _ & _ & _ & _ & E). cbn [execute] in E.
    destruct h as [h|].
    + injection E as <-. apply update_where_evolves; [|done].
      intros e [_ ?]%andb_true_iff. done.
    + destruct (existsb _ _); [done|]. injection E as <-. apply evolves_refl.
  - destruct H as (h & src' & _ & _ & _ & E). cbn [execute] in E.
    destruct (int4 (t_next_id tbl)); [|done]. destruct h as [h|]; [|done].
    injection E as <-. split; [done| |]; simpl.
    + intros i e He. exists e. split; [|apply row_step_refl].
      by apply lookup_app_l_Some.
    + intros i e' He Hi.
      rewrite lookup_app_r in He by done.
      apply list_lookup_singleton_Some in He as [_ <-]. done.
  - destruct H as (key & _ & E). cbn [execute] in E. injection E as <-.
    apply update_where_evolves; [|done]. intros e [_ ?]%andb_true_iff. done.
  - cbn [execute] in H. injection H as <-.
    apply update_where_evolves; [|done]. intros e [_ ?]%andb_true_iff. done.
Qed.

Lemma update_where_frame (sel : Entry -> bool) f rows i e :
  rows !! i = Some e -> sel e = false -> update_where now sel f rows !! i = Some e.
Proof. intros He Hs. unfold update_where. rewrite lookup_map, He. simpl. by rewrite Hs. Qed.

Lemma not_reads_as_key id key x :
  pg_int id = Some key -> ~ reads_as_key id x ->
  bool_decide (Some x = key) = false.
Proof.
  intros Hk Hn. apply bool_decide_eq_false. intros <-. apply Hn. by left.
Qed.

Lemma exec_frame stmt tbl tbl' i e :
  exec now stmt tbl = Some tbl' -> t_rows tbl !! i = Some e ->
  ~ stmt_selects stmt e -> t_rows tbl' !! i = Some e.
Proof.
  intros H He Hn. apply exec_inv in H as [_ H].
  destruct stmt as [hash r src cols vals id|hash r src cols vals|r id|r hash];
    cbn [StoreSpec.stmt_selects] in Hn.
  - destruct H as (h & src' & key & _ & _ & _ & Hk & E). cbn [execute] in E.
    destruct h as [h|].
    + injection E as <-. simpl. apply update_where_frame; [done|].
      by rewrite (not_reads_as_key id key (e_id e)).
    + destruct (existsb _ _); [done|]. by injection E as <-.
  - destruct H as (h & src' & _ & _ & _ & E). cbn [execute] in E.
    destruct (int4 (t_next_id tbl)); [|done]. destruct h as [h|]; [|done].
    injection E as <-. simpl. by apply lookup_app_l_Some.
  - destruct H as (key & Hk & E). cbn [execute] in E. injection E as <-. simpl.
    apply update_where_frame; [done|]. by rewrite (not_reads_as_key id key (e_id e)).
  - cbn [execute] in H. injection H as <-. simpl. apply update_where_frame; [done|].
    apply andb_false_iff. left. apply bool_decide_eq_false. congruence.
Qed.

Lemma update_where_length (sel : Entry -> bool) f rows :
  length (update_where now sel f rows) = length rows.
Proof. unfold update_where. by rewrite length_map. Qed.

End StatementProps.

(* --------------------------------------------------------------------- *)
(** ** Snapshot store: what survives any statement *)
(* --------------------------------------------------------------------- *)

Section History.
Import Js DiffEngine SnapshotStore StoreSpec.

Lemma grows_refl tbl : grows tbl tbl.
Proof.
  split; [lia| |].
  - intros i e He. exists e. auto.
  - intros i e' He Hi. apply lookup_lt_Some in He. lia.
Qed.

Lemma grows_trans t1 t2 t3 : grows t1 t2 -> grows t2 t3 -> grows t1 t3.
Proof.
  intros [X1 O1 N1] [X2 O2 N2]. split; [lia| |].
  - intros i e He. destruct (O1 i e He) as (e' & He' & I1 & A1).
    destruct (O2 i e' He') as (e'' & He'' & I2 & A2).
    exists e''. split; [done|]. split; [congruence|].
    intros Ha. specialize (A1 Ha). subst e'. by apply A2.
  - intros i e3 He3 Hi.
    destruct (t_rows t2 !! i) as [e2|] eqn:He2.
    + destruct (O2 i e2 He2) as (e3' & He3' & I2 & _).
      rewrite He3 in He3'. injection He3' as <-.
      rewrite I2. by apply (N1 i).
    + specialize (N2 i e3 He3 (lookup_ge_None_1 _ _ He2)). lia.
Qed.

Lemma update_where_grows now tbl (sel : Entry -> bool) (f : Entry -> Entry) :
  (forall e, sel e = true -> is_active e = true) ->
  (forall e, e_id (f e) = e_id e) ->
  grows tbl (with_rows tbl (update_where now sel f (t_rows tbl))).
Proof.
  intros Hsel Hf. split; simpl; [lia| |]; unfold update_where.
  - intros i e He. rewrite lookup_map, He. simpl. eexists. split; [done|].
    destruct (sel e) eqn:Es; [|auto]. simpl. split; [apply Hf|].
    intros Ha. rewrite (Hsel e Es) in Ha. done.
  - intros i e' He Hi. apply lookup_lt_Some in He. rewrite length_map in He. lia.
Qed.

Lemma exec_grows now stmt tbl tbl' : exec now stmt tbl = Some tbl' -> grows tbl tbl'.
Proof.
  intros H. apply exec_inv in H as [_ H].
  destruct stmt as [hash r src cols vals id|hash r src cols vals|r id|r hash].
  - destruct H as (h & src' & key & _ & _ & _ & _ & E). cbn [execute] in E.
    destruct h as [h|].
    + injection E as <-. apply update_where_grows; [|done].
      intros e [_ ?]%andb_true_iff. done.
    + destruct (existsb _ _); [done|]. injection E as <-. apply grows_refl.
  - destruct H as (h & src' & _ & _ & _ & E). cbn [execute] in E.
    destruct (int4 (t_next_id tbl)); [|done]. destruct h as [h|]; [|done].
    injection E as <-. split; simpl; [lia| |].
    + intros i e He. exists e. split; [by apply lookup_app_l_Some|auto].
    + intros i e' He Hi.
      rewrite lookup_app_r in He by done.
      apply list_lookup_singleton_Some in He as [_ <-]. simpl. lia.
  - destruct H as (key & _ & E). cbn [execute] in E. injection E as <-.
    apply update_where_grows; [|done]. intros e [_ ?]%andb_true_iff. done.
  - cbn [execute] in H. injection H as <-.
    apply update_where_grows; [|done]. intros e [_ ?]%andb_true_iff. done.
Qed.

(** A rolled back transaction leaves the rows as they were; the sequence
    may have advanced. *)
Lemma rolled_back_grows tbl n :
  t_next_id tbl <= n -> grows tbl (mkTable (t_columns tbl) (t_rows tbl) n).
Proof.
  intros Hn. split; cbn [t_rows t_next_id]; [done| |].
  - intros i e He. exists e. auto.
  - intros i e' He Hi. apply lookup_lt_Some in He. lia.
Qed.

Lemma rolled_back_evolves N tbl n : evolves N tbl (mkTable (t_columns tbl) (t_rows tbl) n).
Proof.
  split; cbn [t_rows t_columns]; [done| |].
  - intros i e He. exists e. split; [done|apply row_step_refl].
  - intros i e' He Hi. apply lookup_lt_Some in He. lia.
Qed.

Lemma burnt_bounds stmt tbl : 0 <= burnt stmt tbl <= 1.
Proof.
  unfold burnt. destruct (bind stmt) as [[| [h|] | | ]|]; try lia.
  destruct (int4 _); lia.
Qed.

(** *** Statements run in a row *)

Lemma run_app now l1 l2 tbl :
  run now (l1 ++ l2) tbl = run now l1 tbl ≫= run now l2.
Proof.
  revert tbl. induction l1 as [|s l1 IH]; intros tbl; cbn [app run]; [done|].
  destruct (exec now s tbl) as [t1|]; cbn; [apply IH|done].
Qed.

Lemma run_cons_Some now s l tbl tbl' :
  run now (s :: l) tbl = Some tbl' ->
  exists t1, exec now s tbl = Some t1 /\ run now l t1 = Some tbl'.
Proof. cbn [run]. destruct (exec now s tbl) as [t1|]; [|done]. cbn. eauto. Qed.

Lemma run_app_Some now l1 l2 tbl tbl' :
  run now (l1 ++ l2) tbl = Some tbl' ->
  exists t1, run now l1 tbl = Some t1 /\ run now l2 t1 = Some tbl'.
Proof. rewrite run_app. destruct (run now l1 tbl) as [t1|]; [|done]. cbn. eauto. Qed.

(** A property of tables that every statement keeps holds after the
    run. *)
Lemma run_inv (P : Table -> Prop) now l tbl tbl' :
  (forall s t t', s ∈ l -> P t -> exec now s t = Some t' -> P t') ->
  P tbl -> run now l tbl = Some tbl' -> P tbl'.
Proof.
  revert tbl. induction l as [|s l IH]; intros tbl Hstep H0 H.
  - cbn in H. by injection H as <-.
  - apply run_cons_Some in H as (t1 & E & H).
    apply (IH t1); [|by apply (Hstep s tbl); [left|..]|done].
    intros s' t t' Hs'. apply Hstep. by right.
Qed.

Lemma run_grows now l tbl tbl' : run now l tbl = Some tbl' -> grows tbl tbl'.
Proof.
  apply (run_inv (grows tbl)); [|apply grows_refl].
  intros s t t' _ G E. eapply grows_trans; [exact G|]. by eapply exec_grows.
Qed.

Lemma run_evolves now N l tbl tbl' :
  (forall s, s ∈ l -> stmt_revision s = N) ->
  run now l tbl = Some tbl' -> evolves N tbl tbl'.
Proof.
  intros Hl. apply (run_inv (evolves N tbl)); [|apply evolves_refl].
  intros s t t' Hs G E. eapply evolves_trans; [exact G|].
  eapply exec_evolves; [|exact E]. by apply Hl.
Qed.

Lemma run_frame now l tbl tbl' i e :
  (forall s, s ∈ l -> ~ stmt_selects s e) ->
  t_rows tbl !! i = Some e -> run now l tbl = Some tbl' -> t_rows tbl' !! i = Some e.
Proof.
  intros Hl. apply (run_inv (fun t => t_rows t !! i = Some e)).
  intros s t t' Hs G E. eapply exec_frame; [exact E|exact G|]. by apply Hl.
Qed.

End History.

(* --------------------------------------------------------------------- *)
(** ** Snapshot store: the loops of a pass and its transaction *)
(* --------------------------------------------------------------------- *)

Section Loops.
Import Js DiffEngine SnapshotStore StoreSpec.

Variable now : Z.

Lemma counts_eq (c d : Counts) :
  inserted c = inserted d -> updated c = updated d ->
  deleted c = deleted d -> skipped c = skipped d -> c = d.
Proof. destruct c, d; simpl; congruence. Qed.

Ltac counts := apply counts_eq; unfold counts_add, tally; simpl; lia.

Lemma fold_left_agree {A B} (f g : B -> A -> B) (l : list A) (b : B) :
  (forall b x, f b x = g b x) -> fold_left f l b = fold_left g l b.
Proof.
  intros H. revert b. induction l as [|x l IH]; intros b; cbn [fold_left]; [done|].
  by rewrite H, IH.
Qed.

Section Iteration.
Context {A : Type} (stmt_of : A -> option Stmt) (hit : Counts).

Local Abbreviation step := (iteration now stmt_of hit).
Local Abbreviation hits := (fun l : list A => length (omap stmt_of l)).
Local Abbreviation misses := (fun l : list A => (length l - length (omap stmt_of l))%nat).

Lemma hits_le (l : list A) : (length (omap stmt_of l) <= length l)%nat.
Proof.
  induction l as [|x l IH]; cbn [omap list_omap length]; [done|].
  destruct (stmt_of x); cbn [length]; lia.
Qed.

(** In an aborted transaction every item is skipped. *)
Lemma iteration_aborted (l : list A) (n : Z) (c : Counts) :
  fold_left step l (Aborted n, c) = (Aborted n, counts_add c (tally 0 (length l) hit)).
Proof.
  revert c. induction l as [|x l IH]; intros c; cbn [fold_left length].
  - f_equal. counts.
  - assert (Hx : step (Aborted n, c) x = (Aborted n, counts_add c (mkCounts 0 0 0 1))).
    { unfold iteration. by destruct (stmt_of x). }
    rewrite Hx, IH. f_equal. counts.
Qed.

(** While no statement raises, the loop runs the statements of its
    items on the working copy. *)
Lemma iteration_clean (l : list A) (w w' : Table) (c : Counts) :
  run now (omap stmt_of l) w = Some w' ->
  fold_left step l (Open w, c)
  = (Open w', counts_add c (tally (hits l) (misses l) hit)).
Proof.
  revert w c. induction l as [|x l IH]; intros w c; cbn [fold_left omap list_omap length].
  - cbn [run]. intros [= <-]. f_equal. counts.
  - pose proof (hits_le l) as Hle. unfold iteration at 2.
    destruct (stmt_of x) as [s|] eqn:Es; cbn [fst snd].
    + intros (t1 & E & H)%run_cons_Some. cbn [query]. rewrite E.
      rewrite (IH t1 _ H). f_equal. cbn [length]. counts.
    + intros H. rewrite (IH w _ H). f_equal. counts.
Qed.

(** Once a statement raises, the transaction is aborted; the item of the
    statement and the items after it are skipped. *)
Lemma iteration_raised (l : list A) (w : Table) (c : Counts) :
  run now (omap stmt_of l) w = None ->
  exists (n : Z) (h m : nat),
    fold_left step l (Open w, c) = (Aborted n, counts_add c (tally h m hit)) /\
    t_next_id w <= n /\ (h + m = length l)%nat /\ (misses l < m)%nat.
Proof.
  revert w c. induction l as [|x l IH]; intros w c; cbn [fold_left omap list_omap length]; [done|].
  pose proof (hits_le l) as Hle. unfold iteration at 2.
  destruct (stmt_of x) as [s|] eqn:Es; cbn [fst snd run length].
  - cbn [query]. destruct (exec now s w) as [t1|] eqn:E; cbn.
    + intros H. destruct (IH t1 (counts_add c hit) H) as (n & h & m & -> & Hn & Hl & Hm).
      exists n, (S h), m. split; [f_equal; counts|].
      pose proof (exec_grows _ _ _ _ E) as [G _ _]. repeat split; lia.
    + intros _. rewrite iteration_aborted.
      exists (t_next_id w + burnt s w), 0%nat, (S (length l)).
      split; [f_equal; counts|]. pose proof (burnt_bounds s w). repeat split; lia.
  - intros H. destruct (IH w (counts_add c (mkCounts 0 0 0 1)) H)
      as (n & h & m & -> & Hn & Hl & Hm).
    exists n, h, (S m). split; [f_equal; counts|]. repeat split; lia.
Qed.

(** The counters do not steer the loop: starting them higher by [d] ends
    them higher by [d], in the same transaction. *)
Lemma iteration_shift (d : Counts) (tx : Tx) (c : Counts) (x : A) :
  step (tx, counts_add c d) x = ((step (tx, c) x).1, counts_add (step (tx, c) x).2 d).
Proof.
  unfold iteration. cbn [fst snd]. destruct (stmt_of x) as [s|]; cbn [fst snd].
  - destruct (query now s tx) as [tx' []]; cbn [fst snd]; f_equal; counts.
  - f_equal. counts.
Qed.

Lemma fold_shift (d : Counts) (l : list A) (tx : Tx) (c : Counts) :
  fold_left step l (tx, counts_add c d)
  = ((fold_left step l (tx, c)).1, counts_add (fold_left step l (tx, c)).2 d).
Proof.
  revert tx c. induction l as [|x l IH]; intros tx c; cbn [fold_left]; [done|].
  rewrite iteration_shift. destruct (step (tx, c) x) as [tx1 c1]. cbn [fst snd]. apply IH.
Qed.

End Iteration.

Lemma omap_Some {A B} (f : A -> B) (l : list A) : omap (fun x => Some (f x)) l = map f l.
Proof. induction l as [|x l IH]; cbn [omap list_omap map]; [done|]. by rewrite <- IH. Qed.

Section Pass.
Variables (N : Z) (columns sanitizedColumns : list string).

Local Abbreviation update_stmt := (update_stmt N columns sanitizedColumns).
Local Abbreviation insert_stmt := (insert_stmt N columns sanitizedColumns).
Local Abbreviation delete_stmt := (delete_stmt N).
Local Abbreviation update_stmt_of := (update_stmt_of N columns sanitizedColumns).
Local Abbreviation statements := (statements N columns sanitizedColumns).
Local Abbreviation update_step := (update_one now columns sanitizedColumns N).
Local Abbreviation insert_step := (insert_one now columns sanitizedColumns N).
Local Abbreviation delete_step := (delete_one now N).

(** The three loops are instances of the common form. *)
Lemma update_one_iteration st item :
  update_step st item = iteration now update_stmt_of (mkCounts 0 1 0 0) st item.
Proof.
  destruct st as [tx c]. unfold update_one, iteration, StoreSpec.update_stmt_of.
  cbn [fst snd]. destruct (truthy (upd_dbId item)); cbn [negb].
  - fold (update_stmt item). destruct (query now _ tx) as [tx' []]; f_equal; counts.
  - f_equal. counts.
Qed.

Lemma insert_one_iteration st item :
  insert_step st item
  = iteration now (fun item => Some (insert_stmt item)) (mkCounts 1 0 0 0) st item.
Proof.
  destruct st as [tx c]. unfold insert_one, iteration. cbn [fst snd].
  fold (insert_stmt item). destruct (query now _ tx) as [tx' []]; f_equal; counts.
Qed.

Lemma delete_one_iteration st item :
  delete_step st item
  = iteration now (fun item => Some (delete_stmt item)) (mkCounts 0 0 1 0) st item.
Proof.
  destruct st as [tx c]. unfold delete_one, iteration. cbn [fst snd].
  fold (delete_stmt item). destruct (query now _ tx) as [tx' []]; f_equal; counts.
Qed.

Lemma apply_loops_iterations diff tx :
  apply_loops now columns sanitizedColumns diff N tx
  = fold_left (iteration now (fun item => Some (delete_stmt item)) (mkCounts 0 0 1 0))
      (deletes diff)
      (fold_left (iteration now (fun item => Some (insert_stmt item)) (mkCounts 1 0 0 0))
         (inserts diff)
         (fold_left (iteration now update_stmt_of (mkCounts 0 1 0 0))
            (updates diff) (tx, mkCounts 0 0 0 0))).
Proof.
  unfold apply_loops.
  rewrite (fold_left_agree _ _ (deletes diff) _ delete_one_iteration).
  rewrite (fold_left_agree _ _ (inserts diff) _ insert_one_iteration).
  by rewrite (fold_left_agree _ _ (updates diff) _ update_one_iteration).
Qed.

Lemma keyless_misses (l : list UpdateItem) :
  (length l - length (omap update_stmt_of l))%nat
  = length (filter (fun item => truthy (upd_dbId item) = false) l).
Proof.
  induction l as [|x l IH]; [done|].
  pose proof (hits_le update_stmt_of l) as Hle.
  cbn [omap list_omap length]. rewrite filter_cons. unfold StoreSpec.update_stmt_of at 1.
  destruct (truthy (upd_dbId x)).
  - rewrite decide_False by done. cbn [length]. lia.
  - rewrite decide_True by done. cbn [length]. lia.
Qed.

(** The counters of a pass in which no statement raises. *)
Local Abbreviation clean_counts diff :=
  (mkCounts (Z.of_nat (length (inserts diff)))
            (Z.of_nat (length (updates diff)) - keyless diff)
            (Z.of_nat (length (deletes diff))) (keyless diff)).

Lemma keyless_bounds diff : 0 <= keyless diff <= Z.of_nat (length (updates diff)).
Proof.
  unfold keyless. rewrite <- keyless_misses. lia.
Qed.

(** A pass whose statements all run: the transaction stays intact, with
    the table that the statements leave. *)
Lemma apply_loops_clean diff w w' :
  run now (statements diff) w = Some w' ->
  apply_loops now columns sanitizedColumns diff N (Open w) = (Open w', clean_counts diff).
Proof.
  unfold StoreSpec.statements. rewrite apply_loops_iterations.
  intros (w1 & H1 & H)%run_app_Some. apply run_app_Some in H as (w2 & H2 & H3).
  rewrite <- omap_Some in H2. rewrite <- omap_Some in H3.
  rewrite (iteration_clean _ _ _ _ _ _ H1), (iteration_clean _ _ _ _ _ _ H2),
    (iteration_clean _ _ _ _ _ _ H3).
  f_equal. pose proof (hits_le update_stmt_of (updates diff)).
  unfold keyless. rewrite <- keyless_misses. rewrite !omap_Some, !length_map. counts.
Qed.

(** A pass in which a statement raises: the transaction is aborted, and
    more than the update items without a key are skipped. *)
Lemma apply_loops_raised diff w :
  run now (statements diff) w = None ->
  exists (n : Z) (c : Counts),
    apply_loops now columns sanitizedColumns diff N (Open w) = (Aborted n, c) /\
    (t_next_id w <= n) /\ (keyless diff < skipped c) /\
    0 <= inserted c <= Z.of_nat (length (inserts diff)) /\
    0 <= updated c <= Z.of_nat (length (updates diff)) /\
    0 <= deleted c <= Z.of_nat (length (deletes diff)) /\
    inserted c + updated c + deleted c + skipped c
    = Z.of_nat (length (inserts diff) + length (updates diff) + length (deletes diff)).
Proof.
  unfold StoreSpec.statements. rewrite apply_loops_iterations, run_app.
  pose proof (hits_le update_stmt_of (updates diff)) as Hle.
  pose proof (keyless_misses (updates diff)) as Hk. unfold keyless. rewrite <- Hk.
  destruct (run now (omap update_stmt_of (updates diff)) w) as [w1|] eqn:H1; cbn.
  - rewrite (iteration_clean _ _ _ _ _ _ H1).
    pose proof (run_grows _ _ _ _ H1) as [G1 _ _].
    rewrite run_app, <- !omap_Some.
    destruct (run now (omap (fun x => Some (insert_stmt x)) (inserts diff)) w1)
      as [w2|] eqn:H2; cbn.
    + rewrite (iteration_clean _ _ _ _ _ _ H2).
      pose proof (run_grows _ _ _ _ H2) as [G2 _ _].
      intros H3. destruct (iteration_raised _ (mkCounts 0 0 1 0) _ _
        (counts_add (counts_add (mkCounts 0 0 0 0)
           (tally (length (omap update_stmt_of (updates diff)))
              (length (updates diff) - length (omap update_stmt_of (updates diff)))
              (mkCounts 0 1 0 0)))
           (tally (length (omap (fun x => Some (insert_stmt x)) (inserts diff)))
              (length (inserts diff)
               - length (omap (fun x => Some (insert_stmt x)) (inserts diff)))
              (mkCounts 1 0 0 0))) H3) as (n & h & m & -> & Hn & Hl & Hm).
      rewrite !omap_Some, !length_map in *.
      eexists n, _. split; [reflexivity|]. unfold counts_add, tally. simpl.
      repeat split; lia.
    + intros _. destruct (iteration_raised _ (mkCounts 1 0 0 0) _ _
        (counts_add (mkCounts 0 0 0 0)
           (tally (length (omap update_stmt_of (updates diff)))
              (length (updates diff) - length (omap update_stmt_of (updates diff)))
              (mkCounts 0 1 0 0))) H2) as (n & h & m & -> & Hn & Hl & Hm).
      rewrite iteration_aborted.
      eexists n, _. split; [reflexivity|]. unfold counts_add, tally. simpl.
      repeat split; lia.
  - intros _. destruct (iteration_raised _ (mkCounts 0 1 0 0) _ _ (mkCounts 0 0 0 0) H1)
      as (n & h & m & -> & Hn & Hl & Hm).
    rewrite !iteration_aborted.
    eexists n, _. split; [reflexivity|]. unfold counts_add, tally. simpl.
    repeat split; lia.
Qed.

End Pass.

(** *** applyDiff *)

(** What a call that returns has done: either every statement ran, the
    counters are those of a clean pass and the stored table is what the
    statements made of it; or a statement raised, more items than the
    update items without a key are skipped, and the stored rows are
    those from before the call. *)
Lemma applyDiff_outcome tbl columns diff N counts tbl' :
  applyDiff tbl now columns diff N = (inr counts, tbl') ->
  (clean diff counts /\
   run now (statements N columns (sanitizedColumnsOf columns) diff) tbl = Some tbl' /\
   inserted counts = Z.of_nat (length (inserts diff)) /\
   updated counts = Z.of_nat (length (updates diff)) - keyless diff /\
   deleted counts = Z.of_nat (length (deletes diff))) \/
  ((keyless diff < skipped counts) /\
   run now (statements N columns (sanitizedColumnsOf columns) diff) tbl = None /\
   (exists n, tbl' = mkTable (t_columns tbl) (t_rows tbl) n /\ t_next_id tbl <= n) /\
   0 <= inserted counts <= Z.of_nat (length (inserts diff)) /\
   0 <= updated counts <= Z.of_nat (length (updates diff)) /\
   0 <= deleted counts <= Z.of_nat (length (deletes diff)) /\
   inserted counts + updated counts + deleted counts + skipped counts
   = Z.of_nat (length (inserts diff) + length (updates diff) + length (deletes diff))).
Proof.
  unfold applyDiff. destruct (0 <? length _)%nat; [done|].
  destruct (run now (statements N columns (sanitizedColumnsOf columns) diff) tbl)
    as [w'|] eqn:H.
  - rewrite (apply_loops_clean _ _ _ _ _ _ H). intros [= <- <-]. left.
    unfold clean. cbn. done.
  - destruct (apply_loops_raised _ _ _ _ _ H) as (n & c & -> & Hn & Hk & Hrest).
    intros [= <- <-]. right. cbn [commit]. split; [done|]. split; [done|].
    split; [by exists n|]. exact Hrest.
Qed.

Lemma applyDiff_throws tbl columns diff N error tbl' :
  applyDiff tbl now columns diff N = (inl error, tbl') -> tbl' = tbl.
Proof.
  unfold applyDiff. destruct (0 <? length _)%nat; [by intros [= _ <-]|].
  by destruct (apply_loops _ _ _ _ _ _).
Qed.

(** *** storeSnapshot *)

Section Store.
Variables (columns : list string) (hashfn : obj -> list string -> string).

Local Abbreviation store_stmt := (store_stmt columns (sanitizedColumnsOf columns) hashfn).
Local Abbreviation store_step := (store_one now columns (sanitizedColumnsOf columns) hashfn).

(** The loop of [storeSnapshot] is of the common form, with two of the
    counters. *)
Lemma store_one_iteration (tx : Tx) (c : Counts) (row : obj) :
  store_step (tx, (inserted c, skipped c)) row
  = let st := iteration now (fun row => Some (store_stmt row)) (mkCounts 1 0 0 0)
                        (tx, c) row in
    (st.1, (inserted st.2, skipped st.2)).
Proof.
  unfold store_one, iteration. cbn [fst snd]. fold (store_stmt row).
  destruct (query now _ tx) as [tx' []]; cbn; repeat f_equal; lia.
Qed.

Lemma store_fold_iteration (data : list obj) (tx : Tx) (c : Counts) :
  fold_left store_step data (tx, (inserted c, skipped c))
  = let st := fold_left (iteration now (fun row => Some (store_stmt row)) (mkCounts 1 0 0 0))
                        data (tx, c) in
    (st.1, (inserted st.2, skipped st.2)).
Proof.
  revert tx c. induction data as [|row data IH]; intros tx c; cbn [fold_left]; [done|].
  rewrite store_one_iteration. cbv zeta.
  destruct (iteration now _ _ (tx, c) row) as [tx1 c1]. cbn [fst snd]. apply IH.
Qed.

(** What a call that returns has done: either every INSERT ran, nothing
    is skipped, and the stored table is what the statements made of it;
    or one raised, rows are skipped, and the stored rows are those from
    before the call. *)
Lemma storeSnapshot_outcome tbl data ins skip tbl' :
  storeSnapshot tbl now columns data hashfn = (inr (ins, skip), tbl') ->
  (skip = 0 /\ ins = Z.of_nat (length data) /\
   run now (map store_stmt data) tbl = Some tbl') \/
  (0 < skip /\ 0 <= ins /\ ins + skip = Z.of_nat (length data) /\
   run now (map store_stmt data) tbl = None /\
   exists n, tbl' = mkTable (t_columns tbl) (t_rows tbl) n /\ t_next_id tbl <= n).
Proof.
  unfold storeSnapshot. destruct (0 <? length _)%nat; [done|].
  change (0, 0) with (inserted (mkCounts 0 0 0 0), skipped (mkCounts 0 0 0 0)).
  rewrite store_fold_iteration. cbv zeta. rewrite <- omap_Some.
  destruct (run now (omap (fun row => Some (store_stmt row)) data) tbl) as [w'|] eqn:H.
  - rewrite (iteration_clean _ _ _ _ _ _ H). cbn [fst snd commit].
    intros [= <- <- <-]. left. rewrite omap_Some, length_map. cbn. split; [lia|].
    split; [lia|done].
  - destruct (iteration_raised _ (mkCounts 1 0 0 0) _ _ (mkCounts 0 0 0 0) H)
      as (n & h & m & -> & Hn & Hl & Hm).
    cbn [fst snd commit]. intros [= <- <- <-]. right. cbn.
    split; [lia|]. split; [lia|]. split; [lia|]. split; [done|]. by exists n.
Qed.

Lemma storeSnapshot_throws tbl data error tbl' :
  storeSnapshot tbl now columns data hashfn = (inl error, tbl') -> tbl' = tbl.
Proof.
  unfold storeSnapshot. destruct (0 <? length _)%nat; [by intros [= _ <-]|].
  by destruct (fold_left _ _ _) as [? []].
Qed.

End Store.

End Loops.

(* --------------------------------------------------------------------- *)
(** ** Snapshot store: what survives any number of passes *)
(* --------------------------------------------------------------------- *)

Section Later.
Import Js DiffEngine SnapshotStore StoreSpec.

Lemma applyDiff_grows tbl now columns diff N res tbl' :
  applyDiff tbl now columns diff N = (res, tbl') -> grows tbl tbl'.
Proof.
  destruct res as [error|counts]; intros H.
  - apply applyDiff_throws in H as ->. apply grows_refl.
  - apply applyDiff_outcome in H as [(_ & H & _)|(_ & _ & (n & -> & Hn) & _)].
    + by eapply run_grows.
    + by apply rolled_back_grows.
Qed.

Lemma storeSnapshot_grows tbl now columns data hashfn res tbl' :
  storeSnapshot tbl now columns data hashfn = (res, tbl') -> grows tbl tbl'.
Proof.
  destruct res as [error|[ins skip]]; intros H.
  - apply storeSnapshot_throws in H as ->. apply grows_refl.
  - apply storeSnapshot_outcome in H as [(_ & _ & H)|(_ & _ & _ & _ & n & -> & Hn)].
    + by eapply run_grows.
    + by apply rolled_back_grows.
Qed.

Lemma later_grows tbl tbl' : later tbl tbl' -> grows tbl tbl'.
Proof.
  induction 1 as [tbl|tbl now columns diff revision res tbl1 tbl2 H _ IH
                     |tbl now columns data hashfn res tbl1 tbl2 H _ IH].
  - apply grows_refl.
  - eapply grows_trans; [|exact IH]. by eapply applyDiff_grows.
  - eapply grows_trans; [|exact IH]. by eapply storeSnapshot_grows.
Qed.

(** A key that the sequence has issued and that no active row carries
    stays without an active row. *)
Lemma grows_no_active_row x tbl tbl' :
  grows tbl tbl' -> x < t_next_id tbl -> no_active_row x tbl -> no_active_row x tbl'.
Proof.
  intros [_ Hold Hnew] Hx Hno e' [j Hj]%list_elem_of_lookup Hid.
  destruct (t_rows tbl !! j) as [e|] eqn:He.
  - destruct (Hold j e He) as (e'' & He'' & Hid' & Hsame).
    rewrite Hj in He''. injection He'' as <-.
    assert (is_active e = false) as Ha.
    { apply Hno; [by eapply list_elem_of_lookup_2|congruence]. }
    by rewrite (Hsame Ha).
  - specialize (Hnew j e' Hj (lookup_ge_None_1 _ _ He)). lia.
Qed.

Lemma statements_revision N columns sanitizedColumns diff s :
  s ∈ statements N columns sanitizedColumns diff -> stmt_revision s = N.
Proof.
  unfold statements. rewrite !elem_of_app.
  intros [H|[H|H]].
  - apply list_elem_of_omap in H as (item & _ & H). unfold update_stmt_of in H.
    destruct (truthy _); [|done]. by injection H as <-.
  - apply list_elem_of_fmap in H as (item & -> & _). done.
  - apply list_elem_of_fmap in H as (item & -> & _). unfold delete_stmt.
    by destruct (truthy _).
Qed.

Lemma applyDiff_evolves tbl now columns diff N res tbl' :
  applyDiff tbl now columns diff N = (res, tbl') -> evolves N tbl tbl'.
Proof.
  destruct res as [error|counts]; intros H.
  - apply applyDiff_throws in H as ->. apply evolves_refl.
  - apply applyDiff_outcome in H as [(_ & H & _)|(_ & _ & (n & -> & Hn) & _)].
    + eapply run_evolves; [|exact H]. apply statements_revision.
    + apply rolled_back_evolves.
Qed.

End Later.

(* --------------------------------------------------------------------- *)
(** ** Snapshot store: the rows that the statements of a pass reach *)
(* --------------------------------------------------------------------- *)

Section Reach.
Import Js DiffEngine SnapshotStore StoreSpec.

Variables (now N : Z).

Local Abbreviation tombstone := (StoreSpec.tombstone now N).

Lemma is_active_false_deleted e : is_active e = false <-> e_deleted_at e <> None.
Proof. unfold is_active. destruct (e_deleted_at e); split; congruence. Qed.

Lemma with_rows_same tbl : with_rows tbl (t_rows tbl) = tbl.
Proof. by destruct tbl. Qed.

Lemma update_where_none (sel : Entry -> bool) f rows :
  (forall e, e ∈ rows -> sel e = false) -> update_where now sel f rows = rows.
Proof.
  intros H. unfold update_where. induction rows as [|e rows IH]; simpl; [done|].
  rewrite (H e) by left. f_equal. apply IH. intros e' He'. apply H. by right.
Qed.

(** A statement that is no INSERT keeps the number of rows. *)
Lemma exec_length s tbl tbl' :
  rewrites_only s -> exec now s tbl = Some tbl' ->
  length (t_rows tbl') = length (t_rows tbl).
Proof.
  intros Hs H. apply exec_inv in H as [_ H].
  destruct s as [hash r src cols vals id|hash r src cols vals|r id|r hash]; [|done| |].
  - destruct H as (h & src' & key & _ & _ & _ & _ & E). cbn [execute] in E.
    destruct h as [h|].
    + injection E as <-. simpl. apply update_where_length.
    + destruct (existsb _ _); [done|]. by injection E as <-.
  - destruct H as (key & _ & E). cbn [execute] in E. injection E as <-.
    simpl. apply update_where_length.
  - cbn [execute] in H. injection H as <-. simpl. apply update_where_length.
Qed.

(** Such a statement activates no row. *)
Lemma exec_keeps_inactive s tbl tbl' x :
  rewrites_only s -> exec now s tbl = Some tbl' ->
  no_active_row x tbl -> no_active_row x tbl'.
Proof.
  intros Hs E Hno e' [j Hj]%list_elem_of_lookup Hid.
  pose proof (exec_evolves now (stmt_revision s) s tbl tbl' eq_refl E) as [_ Hold _].
  destruct (t_rows tbl !! j) as [e|] eqn:He.
  - destruct (Hold j e He) as (e'' & He'' & Hs').
    rewrite Hj in He''. injection He'' as <-.
    assert (is_active e = false) as Hina.
    { apply Hno; [by eapply list_elem_of_lookup_2|].
      rewrite <- Hid. symmetry. by eapply row_step_id. }
    by rewrite (row_step_inactive _ e e' Hs' Hina).
  - apply lookup_ge_None_1 in He. apply lookup_lt_Some in Hj.
    rewrite (exec_length s tbl tbl' Hs E) in Hj. lia.
Qed.

Lemma run_keeps_inactive l tbl tbl' x :
  (forall s, s ∈ l -> rewrites_only s) -> run now l tbl = Some tbl' ->
  no_active_row x tbl -> no_active_row x tbl'.
Proof.
  intros Hl H H0. revert H. apply (run_inv (no_active_row x)); [|done].
  intros s t t' Hs P E. eapply exec_keeps_inactive; [by apply Hl|exact E|exact P].
Qed.

(** An UPDATE that finds no active row with its key changes nothing. *)
Lemma exec_unmatched hash r src cols vals id x tbl tbl' :
  exec now (UpdateRow hash r src cols vals id) tbl = Some tbl' ->
  pg_int id = Some (Some x) -> no_active_row x tbl -> tbl' = tbl.
Proof.
  intros H Hk Hno. apply exec_inv in H as [_ (h & src' & key & _ & _ & _ & Hk' & E)].
  rewrite Hk in Hk'. injection Hk' as <-. cbn [execute] in E.
  assert (Hsel : forall e, e ∈ t_rows tbl ->
            bool_decide (Some (e_id e) = Some x) && is_active e = false).
  { intros e He. destruct (bool_decide_reflect (Some (e_id e) = Some x)) as [[= Hid]|]; [|done].
    by rewrite (Hno e He Hid). }
  destruct h as [h|].
  - rewrite update_where_none in E by exact Hsel. rewrite with_rows_same in E. congruence.
  - destruct (existsb _ _); [done|]. congruence.
Qed.

(** The UPDATE of an item rewrites the active row that has its key. *)
Lemma exec_update_stamps hash src cols vals id tbl tbl' i e :
  exec now (UpdateRow hash N src cols vals id) tbl = Some tbl' ->
  pg_int id = Some (Some (e_id e)) ->
  t_rows tbl !! i = Some e -> is_active e = true ->
  exists e', t_rows tbl' !! i = Some e' /\ e_revision e' = N.
Proof.
  intros H Hk He Ha. apply exec_inv in H as [_ (h & src' & key & _ & _ & _ & Hk' & E)].
  rewrite Hk in Hk'. injection Hk' as <-. cbn [execute] in E.
  assert (Hsel : bool_decide (Some (e_id e) = Some (e_id e)) && is_active e = true).
  { by rewrite bool_decide_eq_true_2, Ha. }
  destruct h as [h|].
  - injection E as <-. cbn [t_rows with_rows]. unfold update_where.
    rewrite lookup_map, He. cbn [fmap option_fmap option_map]. rewrite Hsel. eauto.
  - assert (existsb (fun e0 => bool_decide (Some (e_id e0) = Some (e_id e)) && is_active e0)
                    (t_rows tbl) = true) as Hex.
    { apply existsb_exists. exists e. split; [|done].
      apply list_elem_of_In. by eapply list_elem_of_lookup_2. }
    by rewrite Hex in E.
Qed.

(** A soft delete rewrites the rows it selects into tombstones of the
    pass. *)
Lemma exec_soft_delete s tbl tbl' :
  soft_delete s -> stmt_revision s = N -> exec now s tbl = Some tbl' ->
  exists sel : Entry -> bool,
    (forall e, sel e = true -> is_active e = true) /\
    (forall e, sel e = true <-> (is_active e = true /\
       match s with
       | SoftDeleteById _ id => pg_int id = Some (Some (e_id e))
       | SoftDeleteByHash _ hash => pg_text hash = Some (e_row_hash e)
       | _ => False
       end)) /\
    t_rows tbl' = map (fun e => if sel e then tombstone e else e) (t_rows tbl).
Proof.
  intros Hs Hr H. apply exec_inv in H as [_ H].
  destruct s as [hash r src cols vals id|hash r src cols vals|r id|r hash]; [done|done| |];
    cbn [StoreSpec.stmt_revision] in Hr; subst r.
  - destruct H as (key & Hk & E). cbn [execute] in E. injection E as <-.
    exists (fun e => bool_decide (Some (e_id e) = key) && is_active e).
    split; [by intros e [_ ?]%andb_true_iff|]. split; [|done].
    intros e. rewrite andb_true_iff, bool_decide_eq_true, Hk.
    split; [intros [<- ?]|intros [? [= <-]]]; done.
  - cbn [execute] in H. injection H as <-.
    exists (fun e => bool_decide (Some (e_row_hash e) = pg_text hash) && is_active e).
    split; [by intros e [_ ?]%andb_true_iff|]. split; [|done].
    intros e. rewrite andb_true_iff, bool_decide_eq_true.
    split; [intros [<- ?]|intros [? ->]]; done.
Qed.

(** Through soft deletes a row stays as it is or becomes its
    tombstone. *)
Lemma run_soft_deletes l tbl tbl' i e :
  (forall s, s ∈ l -> soft_delete s /\ stmt_revision s = N) ->
  run now l tbl = Some tbl' -> t_rows tbl !! i = Some e ->
  t_rows tbl' !! i = Some e \/
  (is_active e = true /\ t_rows tbl' !! i = Some (tombstone e)).
Proof.
  revert tbl e. induction l as [|s l IH]; intros tbl e Hl H He.
  - cbn in H. injection H as <-. by left.
  - apply run_cons_Some in H as (t1 & E & H).
    destruct (Hl s) as [Hs Hr]; [left|].
    destruct (exec_soft_delete s tbl t1 Hs Hr E) as (sel & Hact & _ & Hrows).
    assert (Hl' : forall s', s' ∈ l -> soft_delete s' /\ stmt_revision s' = N).
    { intros s' Hs'. apply Hl. by right. }
    destruct (sel e) eqn:Es.
    + assert (He1 : t_rows t1 !! i = Some (tombstone e)).
      { by rewrite Hrows, lookup_map, He; cbn; rewrite Es. }
      right. split; [by apply Hact|].
      destruct (IH t1 (tombstone e) Hl' H He1) as [?|[? _]]; done.
    + assert (He1 : t_rows t1 !! i = Some e).
      { by rewrite Hrows, lookup_map, He; cbn; rewrite Es. }
      by apply (IH t1 e Hl' H).
Qed.

(** *** The statements of a pass around one of its items *)

Variables (columns sanitizedColumns : list string).

Local Abbreviation update_stmt := (update_stmt N columns sanitizedColumns).
Local Abbreviation insert_stmt := (insert_stmt N columns sanitizedColumns).
Local Abbreviation delete_stmt := (delete_stmt N).
Local Abbreviation update_stmt_of := (update_stmt_of N columns sanitizedColumns).
Local Abbreviation statements := (statements N columns sanitizedColumns).

Lemma update_stmt_of_keyed item :
  truthy (upd_dbId item) = true -> update_stmt_of item = Some (update_stmt item).
Proof. intros H. unfold StoreSpec.update_stmt_of. by rewrite H. Qed.

Lemma statements_at_update diff l1 item l2 :
  updates diff = l1 ++ item :: l2 -> truthy (upd_dbId item) = true ->
  statements diff
  = omap update_stmt_of l1 ++
    update_stmt item ::
    (omap update_stmt_of l2 ++ map insert_stmt (inserts diff) ++ map delete_stmt (deletes diff)).
Proof.
  intros Hl Ht. unfold StoreSpec.statements. rewrite Hl, omap_app.
  cbn [omap list_omap]. rewrite (update_stmt_of_keyed item Ht). by rewrite <- app_assoc.
Qed.

Lemma statements_at_delete diff l1 item l2 :
  deletes diff = l1 ++ item :: l2 ->
  statements diff
  = (omap update_stmt_of (updates diff) ++ map insert_stmt (inserts diff) ++
     map delete_stmt l1) ++
    delete_stmt item :: map delete_stmt l2.
Proof.
  intros Hl. unfold StoreSpec.statements. rewrite Hl, map_app. cbn [map].
  by rewrite <- !app_assoc.
Qed.

Lemma update_stmts_revision (l : list UpdateItem) s :
  s ∈ omap update_stmt_of l -> stmt_revision s = N.
Proof.
  intros (item & _ & H)%list_elem_of_omap. unfold StoreSpec.update_stmt_of in H.
  destruct (truthy _); [|done]. by injection H as <-.
Qed.

Lemma insert_stmts_revision (l : list InsertItem) s :
  s ∈ map insert_stmt l -> stmt_revision s = N.
Proof. by intros (item & -> & _)%list_elem_of_fmap. Qed.

Lemma delete_stmts_soft (l : list DeleteItem) s :
  s ∈ map delete_stmt l -> soft_delete s /\ stmt_revision s = N.
Proof.
  intros (item & -> & _)%list_elem_of_fmap. unfold StoreSpec.delete_stmt.
  by destruct (truthy _).
Qed.

Lemma soft_delete_rewrites s : soft_delete s -> rewrites_only s.
Proof. by destruct s. Qed.

(** The row that an update item with a key reaches carries the revision
    of the pass afterwards. *)
Lemma run_update_stamps diff tbl tbl' i e item :
  run now (statements diff) tbl = Some tbl' ->
  t_rows tbl !! i = Some e -> is_active e = true ->
  item ∈ updates diff -> truthy (upd_dbId item) = true ->
  pg_int (upd_dbId item) = Some (Some (e_id e)) ->
  exists e', t_rows tbl' !! i = Some e' /\ e_revision e' = N.
Proof.
  intros H He Hact Hitem Ht Hk.
  apply list_elem_of_split in Hitem as (l1 & l2 & Hl).
  rewrite (statements_at_update diff l1 item l2 Hl Ht) in H.
  apply run_app_Some in H as (t1 & H1 & H). apply run_cons_Some in H as (t2 & E & H2).
  pose proof (run_evolves now N _ _ _ (update_stmts_revision l1) H1) as [_ O1 _].
  destruct (O1 i e He) as (e1 & He1 & S1).
  assert (exists e2, t_rows t2 !! i = Some e2 /\ e_revision e2 = N) as (e2 & He2 & R2).
  { destruct (is_active e1) eqn:A1.
    - apply (exec_update_stamps _ _ _ _ _ _ _ _ e1 E); [|done|done].
      by rewrite (row_step_id N e e1 S1).
    - pose proof (exec_evolves now N (update_stmt item) _ _ eq_refl E) as [_ O2 _].
      destruct (O2 i e1 He1) as (e2 & He2 & S2).
      apply row_step_inactive in S2; [|done]. subst e2.
      exists e1. split; [done|].
      destruct S1 as [->|(_ & _ & ?)]; [congruence|done]. }
  assert (E3 : evolves N t2 tbl').
  { eapply run_evolves; [|exact H2]. intros s. rewrite !elem_of_app.
    intros [Hs|[Hs|Hs]]; [by eapply update_stmts_revision
                          |by eapply insert_stmts_revision
                          |by eapply delete_stmts_soft]. }
  destruct E3 as [_ O3 _]. destruct (O3 i e2 He2) as (e' & He' & S3).
  exists e'. split; [done|]. destruct S3 as [->|(_ & _ & ?)]; done.
Qed.

(** The row that a delete item reaches ends as a tombstone of the pass,
    and no active row carries its key any more. *)
Lemma run_soft_delete diff tbl tbl' i e item :
  run now (statements diff) tbl = Some tbl' ->
  t_rows tbl !! i = Some e -> is_active e = true ->
  item ∈ deletes diff -> deletes_row diff tbl item e ->
  exists e', t_rows tbl' !! i = Some e' /\
             e_id e' = e_id e /\ is_active e' = false /\ e_revision e' = N /\
             no_active_row (e_id e) tbl'.
Proof.
  intros H He Hact Hitem Hreach.
  pose proof (run_grows _ _ _ _ H) as G.
  apply list_elem_of_split in Hitem as (l1 & l2 & Hl).
  rewrite (statements_at_delete diff l1 item l2 Hl) in H.
  apply run_app_Some in H as (t3 & H3 & H). apply run_cons_Some in H as (t4 & E & H5).
  assert (Hpost : forall x, no_active_row x t4 -> no_active_row x tbl').
  { intros x. apply (run_keeps_inactive (map delete_stmt l2) t4 tbl' x); [|done].
    intros s Hs. by apply soft_delete_rewrites, (delete_stmts_soft l2). }
  assert (E5 : evolves N t4 tbl').
  { eapply run_evolves; [|exact H5]. intros s Hs. by apply (delete_stmts_soft l2). }
  assert (Hd : soft_delete (delete_stmt item) /\ stmt_revision (delete_stmt item) = N).
  { apply (delete_stmts_soft [item]). cbn. by left. }
  destruct Hd as [Hd Hr].
  destruct (exec_soft_delete (delete_stmt item) t3 t4 Hd Hr E) as (sel & Hsel & Hspec & Hrows).
  unfold deletes_row in Hreach. unfold StoreSpec.delete_stmt in Hspec.
  destruct (truthy (del_dbId item)) eqn:Ht.
  - (* by key *)
    assert (E3 : evolves N tbl t3).
    { eapply run_evolves; [|exact H3]. intros s. rewrite !elem_of_app.
      intros [Hs|[Hs|Hs]]; [by eapply update_stmts_revision
                            |by eapply insert_stmts_revision
                            |by eapply delete_stmts_soft]. }
    destruct E3 as [_ O3 _]. destruct (O3 i e He) as (e3 & He3 & S3).
    pose proof (row_step_id N e e3 S3) as Hid3.
    set (e4 := if sel e3 then tombstone e3 else e3).
    assert (He4 : t_rows t4 !! i = Some e4).
    { by rewrite Hrows, lookup_map, He3. }
    assert (P4 : e_id e4 = e_id e /\ is_active e4 = false /\ e_revision e4 = N).
    { subst e4. destruct (sel e3) eqn:Es; [done|].
      destruct (is_active e3) eqn:A3.
      - assert (sel e3 = true) as Es'; [|congruence].
        apply Hspec. split; [done|]. by rewrite Hid3.
      - split; [done|]. split; [done|].
        destruct S3 as [->|(_ & _ & ?)]; [congruence|done]. }
    destruct P4 as (Hid4 & Hina4 & Hrev4).
    assert (Q4 : no_active_row (e_id e) t4).
    { intros x [j Hj]%list_elem_of_lookup Hidx. rewrite Hrows, lookup_map in Hj.
      destruct (t_rows t3 !! j) as [y|]; [|done]. injection Hj as <-.
      destruct (sel y) eqn:Ey; [done|].
      destruct (is_active y) eqn:Ay; [|done].
      assert (sel y = true) as Ey'; [|congruence].
      apply Hspec. split; [done|]. by rewrite Hidx. }
    destruct E5 as [_ O5 _]. destruct (O5 i e4 He4) as (e' & He' & S5).
    apply (row_step_inactive N) in S5; [|done]. subst e'.
    exists e4. split; [done|]. split; [done|]. split; [done|]. split; [done|].
    by apply Hpost.
  - (* by hash *)
    destruct Hreach as (Hh & Hup & Huniq & Hnext).
    assert (Hall : forall j, t_rows tbl !! j = Some e -> t_rows tbl' !! j = Some (tombstone e)).
    { intros j Hj.
      apply run_app_Some in H3 as (t1 & H1 & H3). apply run_app_Some in H3 as (t2 & H2 & H3).
      assert (Hj1 : t_rows t1 !! j = Some e).
      { apply (run_frame now (omap update_stmt_of (updates diff)) tbl t1 j e); [|done|done].
        intros s (u & Hu & Hs)%list_elem_of_omap. unfold StoreSpec.update_stmt_of in Hs.
        destruct (truthy (upd_dbId u)); [|done]. injection Hs as <-. cbn. by apply Hup. }
      assert (Hj2 : t_rows t2 !! j = Some e).
      { apply (run_frame now (map insert_stmt (inserts diff)) t1 t2 j e); [|done|done].
        intros s (u & -> & _)%list_elem_of_fmap Hs. exact Hs. }
      assert (Hj4 : t_rows t4 !! j = Some (tombstone e)).
      { rewrite Hrows, lookup_map.
        destruct (run_soft_deletes (map delete_stmt l1) t2 t3 j e (delete_stmts_soft l1) H3 Hj2)
          as [->|[_ ->]]; cbn [fmap option_fmap option_map].
        - assert (sel e = true) as ->; [|done]. by apply Hspec.
        - destruct (sel (tombstone e)) eqn:Es; [|done].
          by apply Hsel in Es. }
      destruct E5 as [_ O5 _]. destruct (O5 j _ Hj4) as (e' & He' & S5).
      apply (row_step_inactive N) in S5; [|done]. by subst e'. }
    exists (tombstone e). split; [by apply Hall|]. split; [done|]. split; [done|].
    split; [done|].
    intros x [j Hj]%list_elem_of_lookup Hidx. destruct G as [_ Gold Gnew].
    destruct (t_rows tbl !! j) as [e2|] eqn:He2.
    + destruct (Gold j e2 He2) as (x' & Hx' & Hid' & _).
      rewrite Hj in Hx'. injection Hx' as <-.
      assert (e2 = e) as ->.
      { apply Huniq; [by eapply list_elem_of_lookup_2|congruence]. }
      rewrite (Hall j He2) in Hj. by injection Hj as <-.
    + specialize (Gnew j x Hj (lookup_ge_None_1 _ _ He2)). lia.
Qed.

(** A row that the diff does not reference stays as it is. *)
Lemma run_unreferenced diff tbl tbl' i e :
  run now (statements diff) tbl = Some tbl' ->
  t_rows tbl !! i = Some e -> ~ referenced diff e -> t_rows tbl' !! i = Some e.
Proof.
  intros H He Hn. apply (run_frame now (statements diff) tbl tbl' i e); [|done|done].
  intros s. unfold StoreSpec.statements. rewrite !elem_of_app. intros [Hs|[Hs|Hs]] Hsel.
  - apply list_elem_of_omap in Hs as (u & Hu & Hs). unfold StoreSpec.update_stmt_of in Hs.
    destruct (truthy (upd_dbId u)); [|done]. injection Hs as <-.
    apply Hn. left. by exists u.
  - apply list_elem_of_fmap in Hs as (u & -> & _). exact Hsel.
  - apply list_elem_of_fmap in Hs as (d & -> & Hd). apply Hn. right. exists d.
    split; [done|]. unfold StoreSpec.delete_stmt in Hsel. by destruct (truthy (del_dbId d)).
Qed.

End Reach.

(* --------------------------------------------------------------------- *)
(** ** Snapshot store: the rows of a snapshot *)
(* --------------------------------------------------------------------- *)

Section Snapshots.
Import Js DiffEngine SnapshotStore StoreSpec.

Lemma insert_by_id_elem (x e : Entry) (l : list Entry) :
  x ∈ insert_by_id e l <-> x = e \/ x ∈ l.
Proof.
  induction l as [|y l IH]; simpl.
  - rewrite list_elem_of_singleton, elem_of_nil. tauto.
  - destruct (e_id y <=? e_id e); rewrite !elem_of_cons; [rewrite IH|]; tauto.
Qed.

Lemma order_by_id_elem (x : Entry) (l : list Entry) : x ∈ order_by_id l <-> x ∈ l.
Proof.
  unfold order_by_id. induction l as [|y l IH]; simpl; [reflexivity|].
  rewrite insert_by_id_elem, elem_of_cons, IH. reflexivity.
Qed.

Lemma select_active_elem (tbl : Table) (e : Entry) :
  e ∈ select_active tbl <-> e ∈ t_rows tbl /\ is_active e = true.
Proof.
  unfold select_active. rewrite order_by_id_elem, list_elem_of_filter. tauto.
Qed.

(** The [id] property of a snapshot row is the key of its stored row,
    unless a data column called [id] overwrote it with a string. *)
Lemma snapshot_row_id dbCols cols (row : Entry) :
  obj_get (snapshot_row dbCols cols row) "id" = VNum (e_id row) \/
  exists s, obj_get (snapshot_row dbCols cols row) "id" = VStr s.
Proof.
  unfold snapshot_row.
  set (P := fun o : obj => obj_get o "id" = VNum (e_id row) \/ exists s, obj_get o "id" = VStr s).
  assert (Hset : forall o col v, P o -> (exists s, v = VStr s) -> P (obj_set o col v)).
  { intros o col v Ho [s ->]. unfold P. rewrite obj_get_set.
    destruct (decide (col = "id" /\ col <> "__proto__")); [right; eauto|exact Ho]. }
  assert (Hcell : forall c, exists s, cell_or_empty row c = VStr s).
  { intros c. unfold cell_or_empty, js_or.
    destruct (e_data row !! c) as [s|]; simpl; [|eauto].
    destruct (negb (String.eqb s "")); eauto. }
  match goal with |- context [fold_left ?f cols ?o0] =>
    change (P (fold_left f cols o0)); generalize o0 (or_introl eq_refl : P o0) end.
  induction cols as [|c cols IH]; intros o Ho; cbn [fold_left]; [exact Ho|].
  apply IH. destruct (find _ dbCols) as [dbCol|].
  - destruct (truthy (VStr dbCol)); apply Hset; eauto.
  - apply Hset; eauto.
Qed.

Lemma getSnapshot_elem tbl cols r :
  r ∈ getSnapshot tbl cols ->
  exists e, e ∈ t_rows tbl /\ is_active e = true /\
            r = snapshot_row (dbColumnNames tbl) cols e.
Proof.
  unfold getSnapshot. intros Hr.
  apply list_elem_of_In, in_map_iff in Hr as (e & <- & He).
  apply list_elem_of_In, select_active_elem in He as [? ?]. eauto.
Qed.


(** No row of a snapshot carries a key that no active stored row has. *)
Lemma getSnapshot_excludes x tbl cols r :
  no_active_row x tbl -> r ∈ getSnapshot tbl cols -> obj_get r "id" <> VNum x.
Proof.
  intros Hno Hr Hid.
  apply getSnapshot_elem in Hr as (e & He & Ae & ->).
  destruct (snapshot_row_id (dbColumnNames tbl) cols e) as [Hs|[s Hs]];
    rewrite Hs in Hid; [|done]. injection Hid as Hid.
  rewrite (Hno e He Hid) in Ae. done.
Qed.

End Snapshots.

(* --------------------------------------------------------------------- *)
(** ** Snapshot store: revisions and tombstones *)
(* --------------------------------------------------------------------- *)

Section StoreTheorems.
Import Js DiffEngine SnapshotStore StoreSpec.

(** A pass that is not clean was rolled back. *)
Lemma applyDiff_rolled_back tbl now columns diff N counts tbl' :
  applyDiff tbl now columns diff N = (inr counts, tbl') ->
  ~ clean diff counts -> t_rows tbl' = t_rows tbl.
Proof.
  intros H Hn. apply applyDiff_outcome in H as [(Hc & _)|(_ & _ & (n & -> & _) & _)];
    [by destruct Hn|done].
Qed.

(** A clean pass ran each of its statements. *)
Lemma applyDiff_clean_run tbl now columns diff N counts tbl' :
  applyDiff tbl now columns diff N = (inr counts, tbl') -> clean diff counts ->
  run now (statements N columns (sanitizedColumnsOf columns) diff) tbl = Some tbl'.
Proof.
  intros H Hc. apply applyDiff_outcome in H as [(_ & H & _)|(Hk & _)]; [done|].
  unfold clean in Hc. lia.
Qed.



End StoreTheorems.

Section IdleUpdateTheorems.
Import Js DiffEngine SnapshotStore StoreSpec.

Lemma counts_add_skip c :
  counts_add c (mkCounts 0 0 0 1)
  = mkCounts (inserted c) (updated c) (deleted c) (skipped c + 1).
Proof. apply counts_eq; simpl; lia. Qed.

(** An update item without a key could as well be left out of the diff,
    up to the counter of skipped items. *)
Lemma apply_loops_keyless now N columns sanitizedColumns item l1 l2 ins dels u u' tx :
  truthy (upd_dbId item) = false ->
  apply_loops now columns sanitizedColumns (mkDiff ins (l1 ++ item :: l2) dels u) N tx =
  ((apply_loops now columns sanitizedColumns (mkDiff ins (l1 ++ l2) dels u') N tx).1,
   counts_add (apply_loops now columns sanitizedColumns (mkDiff ins (l1 ++ l2) dels u') N tx).2
              (mkCounts 0 0 0 1)).
Proof.
  intros Ht. rewrite !apply_loops_iterations. cbn [updates inserts deletes].
  rewrite !fold_left_app. cbn [fold_left].
  set (st1 := fold_left _ l1 _).
  assert (Hitem : iteration now (update_stmt_of N columns sanitizedColumns) (mkCounts 0 1 0 0)
                            st1 item
                  = (st1.1, counts_add st1.2 (mkCounts 0 0 0 1))).
  { unfold iteration, update_stmt_of. by rewrite Ht. }
  rewrite Hitem. destruct st1 as [tx1 c1]. cbn [fst snd].
  rewrite fold_shift.
  match goal with |- context [fold_left ?f l2 (tx1, c1)] =>
    destruct (fold_left f l2 (tx1, c1)) as [tx2 c2] end.
  cbn [fst snd]. rewrite fold_shift.
  match goal with |- context [fold_left ?f ins (tx2, c2)] =>
    destruct (fold_left f ins (tx2, c2)) as [tx3 c3] end.
  cbn [fst snd]. apply fold_shift.
Qed.

(** C10: an update item whose [dbId] is falsy writes nothing and adds one
    to [skipped]; the rest of the pass runs as if the item were not in
    the diff. *)
Theorem applyDiff_update_without_key (tbl : Table) (now : Z) (columns : list string)
        (N : Z) (ins : list InsertItem) (l1 l2 : list UpdateItem) (item : UpdateItem)
        (dels : list DeleteItem) (u : Z) (counts : Counts) (tbl' : Table) :
  truthy (upd_dbId item) = false ->
  applyDiff tbl now columns (mkDiff ins (l1 ++ l2) dels u) N = (inr counts, tbl') ->
  (forall st, update_one now columns (sanitizedColumnsOf columns) N st item
              = (st.1, mkCounts (inserted st.2) (updated st.2) (deleted st.2)
                                (skipped st.2 + 1))) /\
  applyDiff tbl now columns (mkDiff ins (l1 ++ item :: l2) dels u) N
  = (inr (mkCounts (inserted counts) (updated counts) (deleted counts)
                   (skipped counts + 1)), tbl').
Proof.
  intros Ht H. split.
  - intros [t c]. unfold update_one. rewrite Ht. reflexivity.
  - unfold applyDiff in *. destruct (0 <? length _)%nat; [done|].
    rewrite (apply_loops_keyless now N columns (sanitizedColumnsOf columns)
               item l1 l2 ins dels u u (Open tbl) Ht).
    destruct (apply_loops _ _ _ _ _ _) as [tx c]. cbn [fst snd].
    injection H as <- <-. by rewrite counts_add_skip.
Qed.

(** A call that returned got past the schema check, so a clean run of
    another diff on the same table returns as well. *)
Lemma applyDiff_of_run tbl now columns diff0 N counts0 tbl0 diff tbl' :
  applyDiff tbl now columns diff0 N = (inr counts0, tbl0) ->
  run now (statements N columns (sanitizedColumnsOf columns) diff) tbl = Some tbl' ->
  applyDiff tbl now columns diff N
  = (inr (mkCounts (Z.of_nat (length (inserts diff)))
                   (Z.of_nat (length (updates diff)) - keyless diff)
                   (Z.of_nat (length (deletes diff))) (keyless diff)), tbl').
Proof.
  unfold applyDiff. destruct (0 <? length _)%nat; [done|]. intros _ H.
  by rewrite (apply_loops_clean now N columns _ diff tbl tbl' H).
Qed.

(** C6, amended: let an update item carry a key whose stored rows are
    all soft-deleted.  Whatever the pass does, those rows are afterwards
    what they were.  When no statement of the pass raised, the item is
    counted in [updated], not in [skipped]: the pass without the item
    leaves the same table and the same counters but for [updated], which
    is lower by one. *)
Theorem applyDiff_update_of_tombstone (tbl : Table) (now : Z) (columns : list string)
        (N : Z) (ins : list InsertItem) (l1 l2 : list UpdateItem) (item : UpdateItem)
        (dels : list DeleteItem) (u : Z) (counts : Counts) (tbl' : Table) (x : Z) :
  truthy (upd_dbId item) = true ->
  pg_int (upd_dbId item) = Some (Some x) ->
  no_active_row x tbl ->
  applyDiff tbl now columns (mkDiff ins (l1 ++ item :: l2) dels u) N = (inr counts, tbl') ->
  (forall i e, t_rows tbl !! i = Some e -> e_id e = x -> t_rows tbl' !! i = Some e) /\
  (clean (mkDiff ins (l1 ++ item :: l2) dels u) counts ->
   1 <= updated counts /\
   applyDiff tbl now columns (mkDiff ins (l1 ++ l2) dels u) N
   = (inr (mkCounts (inserted counts) (updated counts - 1) (deleted counts)
                    (skipped counts)), tbl')).
Proof.
  intros Ht Hk Hno H. split.
  - intros i e He Hid. destruct (applyDiff_grows _ _ _ _ _ _ _ H) as [_ Hold _].
    destruct (Hold i e He) as (e' & He' & _ & Hsame).
    rewrite He'. f_equal. apply Hsame, Hno; [by eapply list_elem_of_lookup_2|done].
  - intros Hc. pose proof H as H0.
    apply applyDiff_outcome in H as [(_ & Hrun & Hi & Hu & Hd)|(Hs & _)];
      [|unfold clean in Hc; lia].
    rewrite (statements_at_update N columns (sanitizedColumnsOf columns)
               (mkDiff ins (l1 ++ item :: l2) dels u) l1 item l2 eq_refl Ht) in Hrun.
    cbn [inserts deletes] in Hrun.
    apply run_app_Some in Hrun as (t1 & H1 & Hrun).
    apply run_cons_Some in Hrun as (t2 & E & H2).
    assert (Hno1 : no_active_row x t1).
    { apply (run_keeps_inactive now
               (omap (update_stmt_of N columns (sanitizedColumnsOf columns)) l1) tbl t1 x);
        [|done|done].
      intros s (v & _ & Hs)%list_elem_of_omap. unfold update_stmt_of in Hs.
      destruct (truthy (upd_dbId v)); [|done]. by injection Hs as <-. }
    assert (t2 = t1) as ->.
    { unfold update_stmt in E. by eapply exec_unmatched. }
    assert (Hrun' : run now (statements N columns (sanitizedColumnsOf columns)
                               (mkDiff ins (l1 ++ l2) dels u)) tbl = Some tbl').
    { unfold statements. cbn [updates inserts deletes].
      rewrite omap_app, <- app_assoc, run_app, H1. exact H2. }
    assert (Hkl : keyless (mkDiff ins (l1 ++ item :: l2) dels u)
                  = keyless (mkDiff ins (l1 ++ l2) dels u)).
    { unfold keyless. cbn [updates]. rewrite !filter_app, filter_cons.
      rewrite decide_False by congruence. done. }
    assert (Hlen : Z.of_nat (length (l1 ++ item :: l2)) = Z.of_nat (length (l1 ++ l2)) + 1).
    { rewrite !length_app. cbn [length]. lia. }
    pose proof (keyless_bounds N columns (sanitizedColumnsOf columns)
                  (mkDiff ins (l1 ++ l2) dels u)) as Hb.
    cbn [updates inserts deletes] in *. split; [lia|].
    rewrite (applyDiff_of_run _ _ _ _ _ _ _ _ _ H0 Hrun'). cbn [updates inserts deletes].
    f_equal. f_equal. unfold clean in Hc.
    apply counts_eq; cbn [inserted updated deleted skipped]; lia.
Qed.

End IdleUpdateTheorems.
(* --------------------------------------------------------------------- *)
(** ** The properties at sample inputs *)
(* --------------------------------------------------------------------- *)

Section Instances.
Import Js DiffEngine SnapshotStore SyncLock StoreSpec Samples.

Ltac by_computation := apply (bool_decide_unpack _); vm_compute; exact I.

Lemma computeRowHash_deterministic_witness :
  computeRowHash row_al cols = computeRowHash row_al_reordered cols.
Proof.
  apply (computeRowHash_deterministic cols row_al row_al_reordered).
  intros c Hc.
  apply elem_of_cons in Hc as [->|Hc]; [reflexivity|].
  apply elem_of_cons in Hc as [->|Hc]; [reflexivity|].
  by apply elem_of_nil in Hc.
Defined.

(** Why values must not hold the separator: the two sample rows differ
    in the normalized value of column [a] (and of [b]) and have the same
    canonical text, hence the same digest. *)
Example separator_in_a_value :
  normalize_value (obj_get row_sep_1 "a") <> normalize_value (obj_get row_sep_2 "a") /\
  normalizedString row_sep_1 ab = normalizedString row_sep_2 ab /\
  computeRowHash row_sep_1 ab = computeRowHash row_sep_2 ab.
Proof.
  split; [vm_compute; discriminate|]. split; [reflexivity|].
  unfold computeRowHash. f_equal.
Qed.

Lemma computeRowHash_distinguishes_witness :
  normalizedString row_al cols <> normalizedString row_al_31 cols /\
  computeRowHash row_al cols <> computeRowHash row_al_31 cols.
Proof.
  destruct (computeRowHash_distinguishes cols row_al row_al_31) as [Htext Hhash].
  - intros c Hc _.
    apply elem_of_cons in Hc as [->|Hc]; [split; reflexivity|].
    apply elem_of_cons in Hc as [->|Hc]; [split; reflexivity|].
    by apply elem_of_nil in Hc.
  - exists "age". split; [by_computation|]. split; [discriminate|].
    vm_compute. discriminate.
  - split; [exact Htext|]. apply Hhash. vm_compute. discriminate.
Defined.

Lemma schema_mismatch_fails_witness :
  applyDiff narrow_table 10 cols diff_delete 2
    = (inl (schemaError (missingColumns narrow_table (sanitizedColumnsOf cols))),
       narrow_table) /\
  storeSnapshot narrow_table 10 cols [row_al] computeRowHash
    = (inl (schemaError (missingColumns narrow_table (sanitizedColumnsOf cols))),
       narrow_table).
Proof.
  apply (schema_mismatch_fails narrow_table 10 cols diff_delete 2 [row_al] computeRowHash).
  exists "age". split; [by_computation|]. left. by_computation.
Defined.


(** A delete item that carries the hash of the active row 1 and no key
    reaches the row through the fallback [WHERE row_hash = $2]: it
    satisfies [deletes_row], and the pass leaves the tombstone. *)
Example applyDiff_tombstone_by_hash :
  truthy (del_dbId delete_al_by_hash) = false /\
  deletes_row diff_delete_by_hash table delete_al_by_hash entry_al /\
  applyDiff table 10 cols diff_delete_by_hash 2
  = (inr (mkCounts 0 0 1 0),
     mkTable (t_columns table)
             [mkEntry 1 100 10 "h1" 2 "sheet" (Some 10) (e_data entry_al); entry_bo] 3).
Proof.
  split; [reflexivity|]. split.
  - split; [reflexivity|]. split; [|split; [|reflexivity]].
    + intros u Hu. by apply elem_of_nil in Hu.
    + intros e2 He2 Hid.
      apply elem_of_cons in He2 as [->|He2]; [reflexivity|].
      apply elem_of_cons in He2 as [->|He2]; [discriminate Hid|].
      by apply elem_of_nil in He2.
  - vm_compute. reflexivity.
Qed.


(** C6 as stated fails: the only update item of the pass targets the
    tombstone with key 2; the pass changes nothing and reports
    [updated = 1] and [skipped = 0]. *)
Lemma applyDiff_counts_tombstone_update_as_updated :
  e_deleted_at entry_bo <> None /\
  upd_dbId update_bo = VNum (e_id entry_bo) /\
  applyDiff table 10 cols diff_update_tombstone 2
  = (inr {| inserted := 0; updated := 1; deleted := 0; skipped := 0 |}, table).
Proof.
  split; [discriminate|]. split; [reflexivity|]. vm_compute. reflexivity.
Qed.

Lemma applyDiff_update_of_tombstone_witness :
  (forall i e, t_rows table !! i = Some e -> e_id e = 2 ->
               t_rows (applyDiff table 10 cols (mkDiff [] ([update_al] ++ update_bo :: []) [] 0) 2).2
                 !! i = Some e) /\
  applyDiff table 10 cols (mkDiff [] ([update_al] ++ []) [] 0) 2
  = (inr (mkCounts 0 (2 - 1) 0 0),
     (applyDiff table 10 cols (mkDiff [] ([update_al] ++ update_bo :: []) [] 0) 2).2).
Proof.
  destruct (applyDiff_update_of_tombstone table 10 cols 2 [] [update_al] [] update_bo [] 0
              (mkCounts 0 2 0 0)
              (applyDiff table 10 cols (mkDiff [] ([update_al] ++ update_bo :: []) [] 0) 2).2 2)
    as [Hrows Hcount].
  - reflexivity.
  - reflexivity.
  - intros e He Hid.
    apply elem_of_cons in He as [->|He]; [discriminate Hid|].
    apply elem_of_cons in He as [->|He]; [reflexivity|].
    by apply elem_of_nil in He.
  - vm_compute. reflexivity.
  - split; [exact Hrows|]. apply Hcount. reflexivity.
Defined.


Lemma applyDiff_update_without_key_witness :
  (forall st, update_one 10 cols (sanitizedColumnsOf cols) 2 st update_no_key
              = (st.1, mkCounts (inserted st.2) (updated st.2) (deleted st.2)
                                (skipped st.2 + 1))) /\
  applyDiff table 10 cols (mkDiff [] ([] ++ update_no_key :: [update_al]) [] 0) 2
  = (inr (mkCounts 0 1 0 (0 + 1)), (applyDiff table 10 cols diff_update_al 2).2).
Proof.
  apply (applyDiff_update_without_key table 10 cols 2 [] [] [update_al] update_no_key [] 0
           (mkCounts 0 1 0 0) (applyDiff table 10 cols diff_update_al 2).2).
  - reflexivity.
  - vm_compute. reflexivity.
Defined.

End Instances.

(* ===================================================================== *)
(** * Further properties of the modelled code *)
(* ===================================================================== *)

(* --------------------------------------------------------------------- *)
(** ** Sync lock: acquire, wait and release together *)
(* --------------------------------------------------------------------- *)

Section SyncLockMore.
Import Js SyncLock.

Lemma contentionError_includes key :
  includes (contentionError key) "already in progress" = true.
Proof. reflexivity. Qed.

Lemma acquireSyncLock_free st key :
  syncLocks st !! key = None ->
  acquireSyncLock st key
  = (Returned (mkRelease key (next_promise st)),
     mkState (<[key := next_promise st]> (syncLocks st)) (settled st) (S (next_promise st))).
Proof.
  intros H. unfold acquireSyncLock.
  by rewrite (proj2 (isSyncInProgress_false st key) H).
Qed.

Lemma acquireSyncLock_held st key :
  is_Some (syncLocks st !! key) ->
  acquireSyncLock st key = (Thrown (contentionError key), st).
Proof.
  intros H. unfold acquireSyncLock.
  by rewrite (proj2 (isSyncInProgress_true st key) H).
Qed.

(** X1: acquiring a free key and calling the release function puts the lock
    map back as it was; in between the key is reported as in progress. *)
Theorem acquire_release_roundtrip (st : State) (key : string) :
  syncLocks st !! key = None ->
  exists h st1,
    acquireSyncLock st key = (Returned h, st1) /\
    isSyncInProgress st1 key = true /\
    isSyncInProgress (release h st1) key = false /\
    syncLocks (release h st1) = syncLocks st /\
    rh_promise h ∈ settled (release h st1).
Proof.
  intros H. rewrite (acquireSyncLock_free st key H). eexists _, _.
  split; [reflexivity|]. split; [|split; [|split]].
  - apply isSyncInProgress_true. simpl. rewrite lookup_insert_eq. eauto.
  - apply isSyncInProgress_false. simpl. apply lookup_delete_eq.
  - simpl. rewrite delete_insert_eq. by apply delete_id.
  - simpl. set_solver.
Qed.

Lemma acquire_release_roundtrip_witness :
  exists h st1,
    acquireSyncLock Samples.no_locks "sheet1" = (Returned h, st1) /\
    isSyncInProgress st1 "sheet1" = true /\
    isSyncInProgress (release h st1) "sheet1" = false /\
    syncLocks (release h st1) = syncLocks Samples.no_locks /\
    rh_promise h ∈ settled (release h st1).
Proof. apply (acquire_release_roundtrip Samples.no_locks "sheet1"). reflexivity. Defined.

(** X2: when the key is held, [withSyncLock] throws the contention error
    without running the function at all.  It waits for the holder first;
    if the holder's promise is not settled when the wait ends, the
    holder's entry is deleted from the lock map, so that the next
    [acquireSyncLock] for the key succeeds. *)
Theorem withSyncLock_contended {A : Type} (others : State -> State) (st : State)
        (key : string) (fn : State -> outcome A * State) (p : nat) :
  syncLocks st !! key = Some p ->
  (withSyncLock others st key fn).1 = Thrown (contentionError key) /\
  (p ∈ settled (others st) -> (withSyncLock others st key fn).2 = others st) /\
  (p ∉ settled (others st) ->
     syncLocks (withSyncLock others st key fn).2 = delete key (syncLocks (others st)) /\
     exists h st', acquireSyncLock (withSyncLock others st key fn).2 key = (Returned h, st')).
Proof.
  intros Hp. unfold withSyncLock.
  rewrite (acquireSyncLock_held st key) by (rewrite Hp; eauto).
  rewrite contentionError_includes. cbn [fst snd].
  unfold waitForSync. rewrite Hp. split; [done|]. split.
  - intros Hs. by rewrite bool_decide_eq_true_2.
  - intros Hs. rewrite bool_decide_eq_false_2 by done. cbn [syncLocks]. split; [done|].
    eexists _, _. apply acquireSyncLock_free. cbn [syncLocks]. apply lookup_delete_eq.
Qed.

Lemma withSyncLock_contended_witness :
  let held := mkState {[ "sheet1" := 0%nat ]} ∅ 1 in
  (withSyncLock (A := Z) (fun s => s) held "sheet1" (fun s => (Returned 7, s))).1
  = Thrown (contentionError "sheet1").
Proof.
  intros held.
  apply (withSyncLock_contended (A := Z) (fun s => s) held "sheet1"
           (fun s => (Returned 7, s)) 0%nat).
  reflexivity.
Defined.

(** X3: a function that runs under the lock of a key cannot take the lock of
    that key again: the inner [withSyncLock] throws the contention error
    without running its function, the error propagates, and the key is
    free at the end. *)
Theorem withSyncLock_not_reentrant {A : Type} (others : State -> State) (st : State)
        (key : string) (fn : State -> outcome A * State) :
  syncLocks st !! key = None ->
  (withSyncLock others st key (fun s => withSyncLock others s key fn)).1
  = Thrown (contentionError key) /\
  syncLocks (withSyncLock others st key (fun s => withSyncLock others s key fn)).2 !! key
  = None.
Proof.
  intros Hfree.
  set (inner := fun s => withSyncLock others s key fn).
  unfold withSyncLock. rewrite (acquireSyncLock_free st key Hfree).
  set (st1 := mkState _ _ _).
  assert (Hin : (inner st1).1 = Thrown (contentionError key)).
  { unfold inner, withSyncLock.
    rewrite (acquireSyncLock_held st1 key)
      by (simpl; rewrite lookup_insert_eq; eauto).
    by rewrite contentionError_includes. }
  destruct (inner st1) as [r st2]. cbn [fst] in Hin. subst r. cbn [fst snd].
  split; [reflexivity|]. simpl. apply lookup_delete_eq.
Qed.

Lemma withSyncLock_not_reentrant_witness :
  (withSyncLock (fun s => s) Samples.no_locks "sheet1"
     (fun s => withSyncLock (A := Z) (fun s => s) s "sheet1" (fun s => (Returned 7, s)))).1
  = Thrown (contentionError "sheet1").
Proof.
  apply (withSyncLock_not_reentrant (A := Z) (fun s => s) Samples.no_locks "sheet1"
           (fun s => (Returned 7, s))).
  reflexivity.
Defined.

(** X4: [withSyncLock] on a free key touches no other entry of the lock map
    than the key's: the map after it is the map the function left, without
    the key.  With a function that leaves the lock map alone and does not
    fail with an "already in progress" error, the map is restored. *)
Theorem withSyncLock_frame {A : Type} (others : State -> State) (st : State)
        (key : string) (fn : State -> outcome A * State) :
  syncLocks st !! key = None ->
  (forall st1, acquireSyncLock st key = (Returned (mkRelease key (next_promise st)), st1) ->
     match fn st1 with
     | (Returned _, st2) =>
         syncLocks (withSyncLock others st key fn).2 = delete key (syncLocks st2)
     | (Thrown e, st2) =>
         includes e "already in progress" = false ->
         syncLocks (withSyncLock others st key fn).2 = delete key (syncLocks st2)
     end) /\
  (forall st1, acquireSyncLock st key = (Returned (mkRelease key (next_promise st)), st1) ->
     syncLocks (fn st1).2 = syncLocks st1 ->
     (forall e, (fn st1).1 = Thrown e -> includes e "already in progress" = false) ->
     syncLocks (withSyncLock others st key fn).2 = syncLocks st).
Proof.
  intros Hfree. pose proof (acquireSyncLock_free st key Hfree) as Hacq. split.
  - intros st1 H1. rewrite Hacq in H1. injection H1 as <-.
    unfold withSyncLock. rewrite Hacq.
    destruct (fn _) as [[v|e] st2]; [reflexivity|].
    intros He. rewrite He. reflexivity.
  - intros st1 H1 Hsame Herr. rewrite Hacq in H1. injection H1 as <-.
    unfold withSyncLock. rewrite Hacq.
    destruct (fn _) as [[v|e] st2] eqn:Hfn; cbn [fst snd] in *.
    + simpl. rewrite Hsame. simpl. rewrite delete_insert_eq. by apply delete_id.
    + rewrite (Herr e eq_refl). simpl. rewrite Hsame. simpl.
      rewrite delete_insert_eq. by apply delete_id.
Qed.

Lemma withSyncLock_frame_witness :
  syncLocks (withSyncLock (fun s => s) Samples.no_locks "sheet1"
               (fun s => (Returned 7, s))).2 = syncLocks Samples.no_locks.
Proof.
  apply (proj2 (withSyncLock_frame (A := Z) (fun s => s) Samples.no_locks "sheet1"
                  (fun s => (Returned 7, s)) eq_refl)
           (mkState (<["sheet1" := 0%nat]> ∅) ∅ 1)).
  - reflexivity.
  - reflexivity.
  - intros e H. discriminate H.
Defined.

End SyncLockMore.

(* --------------------------------------------------------------------- *)
(** ** Diff engine: the three lists, item by item *)
(* --------------------------------------------------------------------- *)

Section DiffShapeProps.
Import Js DiffEngine DiffShape.

Variables (sheetRows dbRows : list obj) (columns : list string).

Local Abbreviation sheetMap := (sheetRowsByIndex sheetRows columns).
Local Abbreviation dbMap := (dbRowsByIndex dbRows columns).

Lemma sheetMap_lookup k :
  sheetMap !! k =
  (fun row => mkSheetRowData row (VStr (computeRowHash row columns))
                (VStr (computeRowId row columns (VNum (Z.of_nat k)))) k) <$> sheetRows !! k.
Proof. unfold sheetRowsByIndex. by rewrite list_lookup_imap. Qed.

Lemma dbMap_lookup k :
  dbMap !! k =
  (fun dbRow => mkDbRowData dbRow (db_hash columns dbRow) (db_rowId columns dbRow)
                  (obj_get dbRow "id") k) <$> dbRows !! k.
Proof. unfold dbRowsByIndex. by rewrite list_lookup_imap. Qed.

Lemma zip_app_short {A B} (l1 l2 : list A) (k : list B) :
  (length k <= length l1)%nat -> zip (l1 ++ l2) k = zip l1 k.
Proof.
  revert k. induction l1 as [|x l1 IH]; intros [|y k] Hlen; simpl in *.
  - by destruct l2.
  - lia.
  - done.
  - f_equal. apply IH. lia.
Qed.

Lemma zip_short_app {A B} (l : list A) (k1 k2 : list B) :
  (length l <= length k1)%nat -> zip l (k1 ++ k2) = zip l k1.
Proof.
  revert k1. induction l as [|x l IH]; intros [|y k1] Hlen; simpl in *.
  - done.
  - done.
  - lia.
  - f_equal. apply IH. lia.
Qed.

Lemma omap_one {A B} (f : A -> option B) (x : A) :
  omap f [x] = match f x with Some y => [y] | None => [] end.
Proof. reflexivity. Qed.

Local Abbreviation shape := (DiffShape.shape columns sheetRows dbRows).

Lemma shape_step k : diff_step sheetMap dbMap (shape k) k = shape (S k).
Proof.
  unfold diff_step, DiffShape.shape. rewrite sheetMap_lookup, dbMap_lookup.
  destruct (sheetRows !! k) as [row|] eqn:Es; destruct (dbRows !! k) as [dbRow|] eqn:Ed;
    cbn [fmap option_fmap option_map].
  - pose proof (lookup_lt_Some _ _ _ Es). pose proof (lookup_lt_Some _ _ _ Ed).
    rewrite (take_S_r _ _ _ Es), (take_S_r _ _ _ Ed).
    rewrite !(drop_ge _ (length _)) by (rewrite ?length_app, !length_take; simpl; lia).
    rewrite zip_with_app by (rewrite !length_take; lia).
    rewrite imap_app, omap_app. cbn [zip_with imap].
    rewrite length_zip_with, !length_take, !(Nat.min_l k) by lia.
    rewrite Nat.add_0_r, omap_one.
    assert (Hu : update_at columns (k, (row, dbRow))
                 = if strict_neq (VStr (computeRowHash row columns)) (db_hash columns dbRow)
                   then Some (update_of columns k row dbRow) else None) by reflexivity.
    rewrite Hu. cbn [sr_hash dr_hash].
    destruct (strict_neq _ _); [reflexivity|]. by rewrite app_nil_r.
  - pose proof (lookup_lt_Some _ _ _ Es). pose proof (lookup_ge_None_1 _ _ Ed).
    rewrite (take_S_r _ _ _ Es). rewrite !(take_ge dbRows) by lia.
    rewrite drop_app_le by (rewrite length_take; lia).
    rewrite imap_app. cbn [imap]. rewrite length_drop, length_take, (Nat.min_l k) by lia.
    replace (length dbRows + (k - length dbRows + 0))%nat with k by lia.
    rewrite zip_app_short by (rewrite length_take; lia).
    rewrite (drop_ge _ (length sheetRows)) by lia. reflexivity.
  - pose proof (lookup_ge_None_1 _ _ Es). pose proof (lookup_lt_Some _ _ _ Ed).
    rewrite (take_S_r _ _ _ Ed). rewrite !(take_ge sheetRows) by lia.
    rewrite drop_app_le by (rewrite length_take; lia).
    rewrite imap_app. cbn [imap]. rewrite length_drop, length_take, (Nat.min_l k) by lia.
    replace (length sheetRows + (k - length sheetRows + 0))%nat with k by lia.
    rewrite zip_short_app by (rewrite length_take; lia).
    rewrite (drop_ge _ (length dbRows)) by lia. reflexivity.
  - pose proof (lookup_ge_None_1 _ _ Es). pose proof (lookup_ge_None_1 _ _ Ed).
    rewrite !(take_ge sheetRows), !(take_ge dbRows) by lia. reflexivity.
Qed.

Lemma shape_run k : fold_left (diff_step sheetMap dbMap) (seq 0 k) ([], [], []) = shape k.
Proof.
  induction k as [|k IH].
  - unfold DiffShape.shape. rewrite !take_0, !drop_nil. reflexivity.
  - rewrite seq_S, fold_left_app, IH. cbn [fold_left]. apply shape_step.
Qed.

End DiffShapeProps.

Section DiffLists.
Import Js DiffEngine DiffShape.

Lemma omap_update_at_length columns (l : list (obj * obj)) (offset : nat) :
  (length (omap (update_at columns) (imap (fun i p => (offset + i, p)%nat) l))
   + length (filter (fun p => changed columns p.1 p.2 = false) l))%nat
  = length l.
Proof.
  revert offset. induction l as [|[row dbRow] l IH]; intros offset; [reflexivity|].
  cbn [imap omap list_omap]. rewrite filter_cons.
  unfold update_at at 1. cbn [fst snd].
  specialize (IH (S offset)).
  rewrite (imap_ext _ (fun i p => (S offset + i, p)%nat)) by (intros; unfold compose; f_equal; lia).
  destruct (changed columns row dbRow) eqn:Ec.
  - rewrite decide_False by done. cbn [length]. lia.
  - rewrite decide_True by done. cbn [length]. lia.
Qed.

Lemma computeDiff_shape (sheetRows dbRows : list obj) (columns : list string) :
  computeDiff sheetRows dbRows columns =
  mkDiff
    (imap (fun j row => insert_of columns (length dbRows + j) row)
          (drop (length dbRows) sheetRows))
    (omap (update_at columns) (imap (fun i p => (i, p)) (zip sheetRows dbRows)))
    (imap (fun j dbRow => delete_of columns (length sheetRows + j) dbRow)
          (drop (length sheetRows) dbRows))
    (Z.of_nat (length (filter (fun p => changed columns p.1 p.2 = false)
                              (zip sheetRows dbRows)))).
Proof.
  rewrite computeDiff_unfold. cbv zeta.
  rewrite shape_run. unfold shape. cbn [fst snd].
  rewrite !take_ge by lia. f_equal.
  pose proof (omap_update_at_length columns (zip sheetRows dbRows) 0) as H.
  cbn [Nat.add] in H. rewrite length_zip_with in H.
  rewrite length_imap, length_drop. lia.
Qed.

(** X5: [computeDiff], list by list: the inserts are the sheet rows past the
    end of the snapshot, the deletes the snapshot rows past the end of the
    sheet, the updates the positions both have whose hashes differ, each
    list in ascending position; [unchanged] is the number of positions
    both have whose hashes agree. *)
Theorem computeDiff_lists (sheetRows dbRows : list obj) (columns : list string) :
  computeDiff sheetRows dbRows columns =
  mkDiff
    (imap (fun j row => insert_of columns (length dbRows + j) row)
          (drop (length dbRows) sheetRows))
    (omap (update_at columns) (imap (fun i p => (i, p)) (zip sheetRows dbRows)))
    (imap (fun j dbRow => delete_of columns (length sheetRows + j) dbRow)
          (drop (length sheetRows) dbRows))
    (Z.of_nat (length (filter (fun p => changed columns p.1 p.2 = false)
                              (zip sheetRows dbRows)))).
Proof. apply computeDiff_shape. Qed.

(** X6: with no snapshot every sheet row is an insert; with no sheet rows
    every snapshot row is a delete that carries its key. *)
Theorem computeDiff_one_side_empty (rows : list obj) (columns : list string) :
  computeDiff rows [] columns
  = mkDiff (imap (insert_of columns) rows) [] [] 0 /\
  computeDiff [] rows columns
  = mkDiff [] [] (imap (delete_of columns) rows) 0.
Proof.
  rewrite !computeDiff_shape. split.
  - rewrite zip_with_nil_r, drop_nil. reflexivity.
  - rewrite drop_nil. reflexivity.
Qed.

Lemma computeDiff_same (sheetRows dbRows : list obj) (columns : list string) :
  length sheetRows = length dbRows ->
  (forall i row dbRow, sheetRows !! i = Some row -> dbRows !! i = Some dbRow ->
     db_hash columns dbRow = VStr (computeRowHash row columns)) ->
  computeDiff sheetRows dbRows columns = mkDiff [] [] [] (Z.of_nat (length sheetRows)).
Proof.
  intros Hlen Hh. rewrite computeDiff_shape.
  rewrite (drop_ge sheetRows), (drop_ge dbRows) by lia. cbn [imap].
  assert (Hz : forall offset l1 l2,
             (forall i row dbRow, l1 !! i = Some row -> l2 !! i = Some dbRow ->
                db_hash columns dbRow = VStr (computeRowHash row columns)) ->
             omap (update_at columns) (imap (fun i p => (offset + i, p)%nat) (zip l1 l2)) = []
             /\ filter (fun p => changed columns p.1 p.2 = false) (zip l1 l2) = zip l1 l2).
  { intros offset l1. revert offset.
    induction l1 as [|row l1 IH]; intros offset [|dbRow l2] H; try done.
    cbn [zip_with imap omap list_omap]. rewrite filter_cons.
    assert (Hc : changed columns row dbRow = false).
    { unfold changed. rewrite (H 0%nat row dbRow eq_refl eq_refl).
      apply strict_neq_false. reflexivity. }
    unfold update_at at 1. cbn [fst snd]. rewrite Hc, decide_True by done.
    destruct (IH (S offset) l2) as [IH1 IH2].
    { intros i r d Hr Hd. apply (H (S i)); done. }
    rewrite (imap_ext _ (fun i p => (S offset + i, p)%nat)) by (intros; unfold compose; f_equal; lia).
    split; [exact IH1|]. by rewrite IH2. }
  destruct (Hz 0%nat sheetRows dbRows Hh) as [H1 H2]. cbn [Nat.add] in H1.
  rewrite H1, H2, length_zip_with. f_equal. lia.
Qed.

(** X7: a sheet whose rows hash to what the snapshot rows at the same
    positions carry gives the empty diff. *)
Theorem computeDiff_noop (sheetRows dbRows : list obj) (columns : list string) :
  length sheetRows = length dbRows ->
  (forall i row dbRow, sheetRows !! i = Some row -> dbRows !! i = Some dbRow ->
     db_hash columns dbRow = VStr (computeRowHash row columns)) ->
  computeDiff sheetRows dbRows columns = mkDiff [] [] [] (Z.of_nat (length sheetRows)).
Proof. apply computeDiff_same. Qed.

End DiffLists.

(* --------------------------------------------------------------------- *)
(** ** Diff engine: normalizeRow and computeRowId *)
(* --------------------------------------------------------------------- *)

Section RowIdentity.
Import Js DiffEngine.

Lemma normalizeRow_normalized_of row columns :
  normalizeRow row columns = normalized_of row columns.
Proof.
  unfold normalizeRow, normalized_of. generalize (@nil (string * jsval)).
  induction columns as [|col columns IH]; intros o; cbn [fold_left]; [done|].
  rewrite <- IH. f_equal. unfold normalize_value. by destruct (obj_get row col).
Qed.

Lemma normalize_value_string s : normalize_value (VStr s) = s.
Proof. reflexivity. Qed.

(** X8: [normalizeRow] keeps exactly the listed columns, each as the string
    that [computeRowHash] hashes for it, but for a column called
    [__proto__], which the assignment drops; any other name reads as in
    an empty object.  Normalizing twice is normalizing once, and a row
    and its normal form have the same hash. *)
Theorem normalizeRow_spec (row : obj) (columns : list string) :
  (forall c, obj_get (normalizeRow row columns) c =
             if decide (c ∈ columns /\ c <> "__proto__")
             then VStr (normalize_value (obj_get row c))
             else inherited c) /\
  normalizeRow (normalizeRow row columns) columns = normalizeRow row columns /\
  computeRowHash (normalizeRow row columns) columns = computeRowHash row columns.
Proof.
  assert (Hget : forall c, c ∈ columns -> c <> "__proto__" ->
            normalize_value (obj_get (normalizeRow row columns) c)
            = normalize_value (obj_get row c)).
  { intros c Hc Hp. rewrite normalizeRow_normalized_of, normalized_of_get.
    by rewrite decide_True. }
  split; [|split].
  - intros c. rewrite normalizeRow_normalized_of. apply normalized_of_get.
  - rewrite !normalizeRow_normalized_of. apply normalized_of_ext.
    intros c Hc Hp. rewrite <- normalizeRow_normalized_of. by apply Hget.
  - unfold computeRowHash, normalizedString.
    by rewrite (normalized_of_ext _ row columns Hget).
Qed.

Lemma prefix_app (t s : string) :
  String.prefix t s = true <-> exists b, s = t +:+ b.
Proof.
  revert s. induction t as [|c t IH]; intros s.
  - split; [intros _; by exists s|]. intros _. by destruct s.
  - destruct s as [|c' s]; simpl.
    + split; [done|]. intros [b [=]].
    + destruct (ascii_dec c c') as [<-|Hne].
      * rewrite IH. split; intros [b Hb]; exists b; [by rewrite Hb|by injection Hb].
      * split; [done|]. intros [b [= ? _]]. done.
Qed.

Lemma includes_app (s t : string) :
  includes s t = true <-> exists a b, s = a +:+ t +:+ b.
Proof.
  induction s as [|c s IH].
  - cbn [includes]. rewrite orb_false_r, prefix_app. split.
    + intros [b Hb]. by exists "", b.
    + intros (a & b & H). destruct a; [by exists b|done].
  - cbn [includes]. rewrite orb_true_iff, prefix_app, IH. split.
    + intros [[b Hb]|(a & b & ->)].
      * by exists "", b.
      * by exists (String c a), b.
    + intros (a & b & H). destruct a as [|c' a].
      * left. by exists b.
      * right. injection H as -> ->. by exists a, b.
Qed.

Lemma includes_trans (s t u : string) :
  includes s t = true -> includes t u = true -> includes s u = true.
Proof.
  rewrite !includes_app. intros (a & b & ->) (a' & b' & ->).
  exists (a +:+ a'), (b' +:+ b). by rewrite !append_assoc'.
Qed.


End RowIdentity.

(* --------------------------------------------------------------------- *)
(** ** Schema module: what the sanitizers return *)
(* --------------------------------------------------------------------- *)

Section Sanitizers.
Import Js Schema SchemaSpec.

Ltac each_ascii c :=
  destruct c as [[] [] [] [] [] [] [] []]; try reflexivity; try discriminate.

Lemma lower_ident_is_ident c : is_lower_ident_char c = true -> is_ident_char c = true.
Proof. each_ascii c. Qed.

Lemma lower_ident_lower c : is_lower_ident_char c = true -> lower_ascii c = c.
Proof. each_ascii c. Qed.

Lemma lower_ident_not_space c : is_lower_ident_char c = true -> is_space c = false.
Proof. each_ascii c. Qed.

Lemma ident_lower_ascii c : is_ident_char c = true -> is_lower_ident_char (lower_ascii c) = true.
Proof. each_ascii c. Qed.

Lemma lower_ascii_underscore c : Ascii.eqb (lower_ascii c) "_" = Ascii.eqb c "_".
Proof. each_ascii c. Qed.

Lemma lower_ascii_digit c : is_digit (lower_ascii c) = is_digit c.
Proof. each_ascii c. Qed.

Lemma all_chars_replace_special s : all_chars is_ident_char (replace_special s) = true.
Proof.
  induction s as [|c s IH]; [reflexivity|]. cbn [replace_special all_chars].
  rewrite IH, andb_true_r. by destruct (is_ident_char c) eqn:E.
Qed.

Lemma collapse_cons c s :
  collapse_underscores (String c s) =
  if Ascii.eqb c "_" && starts_with_underscore s
  then collapse_underscores s else String c (collapse_underscores s).
Proof.
  cbn [collapse_underscores]. destruct (Ascii.eqb c "_"); [|reflexivity].
  destruct s as [|c' s]; [reflexivity|]. cbn [starts_with_underscore andb].
  by destruct (Ascii.eqb c' "_").
Qed.

Lemma all_chars_collapse P s :
  all_chars P s = true -> all_chars P (collapse_underscores s) = true.
Proof.
  induction s as [|c s IH]; [done|]. rewrite collapse_cons. cbn [all_chars].
  intros [Hc Hs]%andb_true_iff. destruct (_ && _); [by apply IH|].
  cbn [all_chars]. by rewrite Hc, IH.
Qed.

Lemma collapse_head_underscore s :
  starts_with_underscore (collapse_underscores s) = starts_with_underscore s.
Proof.
  induction s as [|c s IH]; [reflexivity|]. rewrite collapse_cons.
  destruct (Ascii.eqb c "_") eqn:Ec; cbn [andb].
  - destruct (starts_with_underscore s) eqn:Es.
    + rewrite IH. cbn [starts_with_underscore]. by rewrite Ec.
    + reflexivity.
  - reflexivity.
Qed.

Lemma no_double_cons c s :
  no_double_underscore (String c s) =
  negb (Ascii.eqb c "_" && starts_with_underscore s) && no_double_underscore s.
Proof.
  cbn [no_double_underscore]. destruct s as [|c' s]; cbn [starts_with_underscore].
  - by rewrite andb_false_r.
  - reflexivity.
Qed.

Lemma no_double_collapse s : no_double_underscore (collapse_underscores s) = true.
Proof.
  induction s as [|c s IH]; [reflexivity|]. rewrite collapse_cons.
  destruct (Ascii.eqb c "_" && starts_with_underscore s) eqn:E; [exact IH|].
  rewrite no_double_cons, collapse_head_underscore, E, IH. reflexivity.
Qed.

Lemma toLowerCase_head_underscore s :
  starts_with_underscore (toLowerCase s) = starts_with_underscore s.
Proof.
  destruct s as [|c s]; [reflexivity|]. cbn [toLowerCase starts_with_underscore].
  by rewrite lower_ascii_underscore.
Qed.

Lemma no_double_toLowerCase s :
  no_double_underscore (toLowerCase s) = no_double_underscore s.
Proof.
  induction s as [|c s IH]; [reflexivity|]. cbn [toLowerCase].
  by rewrite !no_double_cons, IH, toLowerCase_head_underscore, lower_ascii_underscore.
Qed.

Lemma all_chars_toLowerCase s :
  all_chars is_ident_char s = true ->
  all_chars is_lower_ident_char (toLowerCase s) = true.
Proof.
  induction s as [|c s IH]; [done|]. cbn [toLowerCase all_chars].
  intros [Hc Hs]%andb_true_iff. by rewrite (ident_lower_ascii c Hc), IH.
Qed.

Lemma all_chars_substring P n s :
  all_chars P s = true -> all_chars P (String.substring 0 n s) = true.
Proof.
  revert s. induction n as [|n IH]; intros [|c s]; try done.
  cbn [String.substring all_chars]. intros [Hc Hs]%andb_true_iff.
  by rewrite Hc, IH.
Qed.

Lemma no_double_substring n s :
  no_double_underscore s = true -> no_double_underscore (String.substring 0 n s) = true.
Proof.
  revert s. induction n as [|n IH]; intros [|c s]; try done.
  rewrite no_double_cons. intros [Hc Hs]%andb_true_iff.
  cbn [String.substring]. rewrite no_double_cons, IH, andb_true_r by done.
  destruct n as [|n]; destruct s as [|c' s]; cbn [String.substring starts_with_underscore] in *;
    rewrite ?andb_false_r; done.
Qed.

Lemma length_substring_le n s : (String.length (String.substring 0 n s) <= n)%nat.
Proof.
  revert s. induction n as [|n IH]; intros [|c s]; cbn [String.substring String.length]; try lia.
  specialize (IH s). lia.
Qed.

Lemma substring_head_digit n s :
  starts_with_digit (String.substring 0 (S n) s) = starts_with_digit s.
Proof. by destruct s. Qed.

Lemma substring_all n s : (String.length s <= n)%nat -> String.substring 0 n s = s.
Proof.
  revert s. induction n as [|n IH]; intros [|c s]; cbn [String.substring String.length];
    try done; try lia.
  intros H. rewrite IH by lia. done.
Qed.

(** The text of [sanitizeColumnName] before the cut at 63 characters. *)
Lemma sanitized_body_clean columnName :
  let body := toLowerCase (collapse_underscores (replace_special (trim columnName))) in
  let body := if starts_with_digit body then "col_" +:+ body else body in
  all_chars is_lower_ident_char body = true /\
  no_double_underscore body = true /\
  starts_with_digit body = false.
Proof.
  set (b := toLowerCase _).
  assert (H1 : all_chars is_lower_ident_char b = true).
  { apply all_chars_toLowerCase, all_chars_collapse, all_chars_replace_special. }
  assert (H2 : no_double_underscore b = true).
  { unfold b. rewrite no_double_toLowerCase. apply no_double_collapse. }
  cbv zeta. destruct (starts_with_digit b) eqn:Ed; [|done].
  split; [|split].
  - change (all_chars is_lower_ident_char b = true). exact H1.
  - destruct b as [|c b]; [done|].
    change (no_double_underscore (String "c" (String "o" (String "l" (String "_" (String c b))))) = true).
    rewrite !no_double_cons. rewrite <- no_double_cons, H2.
    cbn [starts_with_digit] in Ed. cbn [starts_with_underscore].
    destruct (Ascii.eqb c "_") eqn:Ec; [|reflexivity].
    apply Ascii.eqb_eq in Ec. subst c. discriminate Ed.
  - reflexivity.
Qed.

Lemma sanitizeColumnName_clean (columnName : string) :
  pg_identifier (sanitizeColumnName columnName) = true /\
  no_double_underscore (sanitizeColumnName columnName) = true.
Proof.
  unfold sanitizeColumnName.
  destruct (sanitized_body_clean columnName) as (H1 & H2 & H3). cbv zeta in *.
  set (body := if starts_with_digit _ then _ else _) in *.
  destruct (truthy (VStr (String.substring 0 63 body))) eqn:Et; [|by vm_compute].
  split; [|by apply no_double_substring].
  unfold pg_identifier. cbn [truthy] in Et. rewrite Et.
  rewrite (proj2 (Nat.leb_le _ _) (length_substring_le 63 body)).
  rewrite all_chars_substring by done.
  by rewrite substring_head_digit, H3.
Qed.

(** X10: [sanitizeColumnName] always returns a name of the shape
    [pg_identifier]: not empty, at most 63 characters, all from
    [[a-z0-9_]], the first no digit; and it has no two underscores in a
    row.  The name can still be a reserved word, see below. *)
Theorem sanitizeColumnName_identifier (columnName : string) :
  pg_identifier (sanitizeColumnName columnName) = true /\
  no_double_underscore (sanitizeColumnName columnName) = true.
Proof. apply sanitizeColumnName_clean. Qed.

(** The shape says nothing about reserved words: the headers [Select]
    and [ORDER] give the names [select] and [order], which the
    statements of [sync.js] can use because they quote every column
    name. *)
Example sanitizeColumnName_reserved_word :
  sanitizeColumnName "Select" = "select" /\ sanitizeColumnName "ORDER" = "order" /\
  pg_identifier "select" = true /\ pg_identifier "order" = true.
Proof. repeat split; reflexivity. Qed.

Lemma lower_ident_not_space2 c c2 : is_lower_ident_char c = true -> is_space2 c c2 = false.
Proof. each_ascii c. Qed.

Lemma ascii_not_space2 c c2 : (nat_of_ascii c <? 128)%nat = true -> is_space2 c c2 = false.
Proof. each_ascii c. Qed.

Lemma ascii_not_space3 c c2 c3 :
  (nat_of_ascii c <? 128)%nat = true -> is_space3 c c2 c3 = false.
Proof. each_ascii c. Qed.

(** A text that starts with an ASCII character other than white space
    keeps it. *)
Lemma trim_plain c s :
  is_space c = false -> (nat_of_ascii c <? 128)%nat = true ->
  trim (String c s) = String c (trim_end s).
Proof.
  intros Hs Hc. unfold trim.
  assert (Hstart : trim_start (String c s) = String c s).
  { cbn [trim_start]. rewrite Hs.
    destruct s as [|c2 s]; [done|]. rewrite (ascii_not_space2 c c2 Hc).
    destruct s as [|c3 s]; [done|]. by rewrite (ascii_not_space3 c c2 c3 Hc). }
  assert (Hnot : only_spaces (String c s) = false).
  { cbn [only_spaces]. rewrite Hs.
    destruct s as [|c2 s]; [done|]. rewrite (ascii_not_space2 c c2 Hc).
    destruct s as [|c3 s]; [done|]. by rewrite (ascii_not_space3 c c2 c3 Hc). }
  rewrite Hstart.
  change (trim_end (String c s))
    with (if only_spaces (String c s) then EmptyString else String c (trim_end s)).
  by rewrite Hnot.
Qed.

Lemma lower_ident_not_space3 c c2 c3 :
  is_lower_ident_char c = true -> is_space3 c c2 c3 = false.
Proof. each_ascii c. Qed.

Lemma trim_start_clean s : all_chars is_lower_ident_char s = true -> trim_start s = s.
Proof.
  destruct s as [|c s]; [done|]. cbn [all_chars trim_start].
  intros [Hc _]%andb_true_iff. rewrite (lower_ident_not_space c Hc).
  destruct s as [|c2 s]; [done|]. rewrite (lower_ident_not_space2 c c2 Hc).
  destruct s as [|c3 s]; [done|]. by rewrite (lower_ident_not_space3 c c2 c3 Hc).
Qed.

Lemma only_spaces_clean c s : is_lower_ident_char c = true -> only_spaces (String c s) = false.
Proof.
  intros Hc. cbn [only_spaces]. rewrite (lower_ident_not_space c Hc).
  destruct s as [|c2 s]; [done|]. rewrite (lower_ident_not_space2 c c2 Hc).
  destruct s as [|c3 s]; [done|]. by rewrite (lower_ident_not_space3 c c2 c3 Hc).
Qed.

Lemma trim_end_clean s : all_chars is_lower_ident_char s = true -> trim_end s = s.
Proof.
  induction s as [|c s IH]; [done|]. cbn [all_chars].
  intros [Hc Hs]%andb_true_iff.
  change (trim_end (String c s))
    with (if only_spaces (String c s) then EmptyString else String c (trim_end s)).
  by rewrite (only_spaces_clean c s Hc), IH.
Qed.

Lemma replace_special_clean s :
  all_chars is_lower_ident_char s = true -> replace_special s = s.
Proof.
  induction s as [|c s IH]; [done|]. cbn [all_chars replace_special].
  intros [Hc Hs]%andb_true_iff. by rewrite IH, (lower_ident_is_ident c Hc).
Qed.

Lemma collapse_clean s : no_double_underscore s = true -> collapse_underscores s = s.
Proof.
  induction s as [|c s IH]; [done|]. rewrite no_double_cons, collapse_cons.
  intros [Hc Hs]%andb_true_iff. apply negb_true_iff in Hc. by rewrite Hc, IH.
Qed.

Lemma toLowerCase_clean s : all_chars is_lower_ident_char s = true -> toLowerCase s = s.
Proof.
  induction s as [|c s IH]; [done|]. cbn [all_chars toLowerCase].
  intros [Hc Hs]%andb_true_iff. by rewrite IH, (lower_ident_lower c Hc).
Qed.

(** X11: [sanitizeColumnName] leaves a name as it is when PostgreSQL
    takes it as it is and it has no two underscores in a row; in
    particular sanitizing twice is sanitizing once. *)
Theorem sanitizeColumnName_idempotent (columnName : string) :
  (forall s, pg_identifier s = true -> no_double_underscore s = true ->
             sanitizeColumnName s = s) /\
  sanitizeColumnName (sanitizeColumnName columnName) = sanitizeColumnName columnName.
Proof.
  assert (Hfix : forall s, pg_identifier s = true -> no_double_underscore s = true ->
                           sanitizeColumnName s = s).
  { intros s Hid Hnd. unfold pg_identifier in Hid.
    apply andb_true_iff in Hid as [[[Hne Hlen]%andb_true_iff Hall]%andb_true_iff Hdig].
    apply negb_true_iff in Hdig. apply Nat.leb_le in Hlen.
    unfold sanitizeColumnName, trim.
    rewrite trim_start_clean, trim_end_clean, replace_special_clean, collapse_clean,
      toLowerCase_clean, Hdig, substring_all by done.
    cbn [truthy]. by rewrite Hne. }
  split; [exact Hfix|].
  destruct (sanitizeColumnName_clean columnName). by apply Hfix.
Qed.

Lemma length_replace_special s : String.length (replace_special s) = String.length s.
Proof. induction s as [|c s IH]; [done|]. cbn [replace_special String.length]. by rewrite IH. Qed.

Lemma replace_special_ident s : all_chars is_ident_char s = true -> replace_special s = s.
Proof.
  induction s as [|c s IH]; [done|]. cbn [all_chars replace_special].
  intros [Hc Hs]%andb_true_iff. by rewrite Hc, IH.
Qed.

Lemma sheet_prefix_cons s :
  "sheet_" +:+ s =
  String "s"%char (String "h"%char (String "e"%char (String "e"%char
    (String "t"%char (String "_"%char s))))).
Proof. reflexivity. Qed.

Lemma replace_special_app (a b : string) :
  replace_special (a +:+ b) = replace_special a +:+ replace_special b.
Proof.
  induction a as [|c a IH]; [done|].
  change (String c a +:+ b) with (String c (a +:+ b)). cbn [replace_special].
  rewrite IH. reflexivity.
Qed.

(** X12: [sanitizeTableName] returns ["sheet_"] followed by the sheet id with
    every character outside [[a-zA-Z0-9_]] replaced by an underscore: as
    long as the id, made of identifier characters only, and the id itself
    when it has no other character.  So ids without such characters get
    different table names, while two ids that differ in a hyphen against
    an underscore (both occur in sheet ids) get the same table. *)
Theorem sanitizeTableName_spec (sheetId : string) :
  String.prefix "sheet_" (sanitizeTableName sheetId) = true /\
  String.length (sanitizeTableName sheetId) = (6 + String.length sheetId)%nat /\
  all_chars is_ident_char (sanitizeTableName sheetId) = true /\
  (all_chars is_ident_char sheetId = true -> sanitizeTableName sheetId = "sheet_" +:+ sheetId) /\
  (forall other,
     all_chars is_ident_char sheetId = true -> all_chars is_ident_char other = true ->
     sanitizeTableName sheetId = sanitizeTableName other -> sheetId = other) /\
  (forall tail,
     sanitizeTableName (sheetId +:+ "-" +:+ tail) = sanitizeTableName (sheetId +:+ "_" +:+ tail)).
Proof.
  unfold sanitizeTableName. split; [|split; [|split; [|split; [|split]]]].
  - apply prefix_app. by eexists.
  - rewrite sheet_prefix_cons. cbn [String.length]. by rewrite length_replace_special.
  - rewrite sheet_prefix_cons. cbn [all_chars]. apply all_chars_replace_special.
  - intros H. by rewrite replace_special_ident.
  - intros other H1 H2. rewrite !replace_special_ident by done.
    rewrite !sheet_prefix_cons. by intros [= ->].
  - intros tail. by rewrite !replace_special_app.
Qed.

End Sanitizers.

(* --------------------------------------------------------------------- *)
(** ** Snapshot store: the order of a snapshot *)
(* --------------------------------------------------------------------- *)

Section SnapshotOrder.
Import Js DiffEngine SnapshotStore StoreShape.

Local Abbreviation by_key := (fun a b : Entry => e_id a <= e_id b).

Lemma insert_by_id_perm (e : Entry) (l : list Entry) : insert_by_id e l ≡ₚ e :: l.
Proof.
  induction l as [|x l IH]; cbn [insert_by_id]; [done|].
  destruct (e_id x <=? e_id e); [|done]. rewrite IH. apply Permutation_swap.
Qed.

Lemma order_by_id_perm (l : list Entry) : order_by_id l ≡ₚ l.
Proof.
  induction l as [|x l IH]; cbn [order_by_id fold_right]; [done|].
  change (fold_right insert_by_id [] l) with (order_by_id l).
  by rewrite insert_by_id_perm, IH.
Qed.

Lemma insert_by_id_sorted (e : Entry) (l : list Entry) :
  StronglySorted by_key l -> StronglySorted by_key (insert_by_id e l).
Proof.
  induction 1 as [|x l Hl IH Hx]; cbn [insert_by_id].
  { repeat constructor. }
  destruct (Z.leb_spec (e_id x) (e_id e)) as [Hle|Hgt].
  - constructor; [exact IH|].
    rewrite Forall_forall. intros y Hy.
    rewrite insert_by_id_perm in Hy. apply elem_of_cons in Hy as [-> | Hy]; [done|].
    rewrite Forall_forall in Hx. by apply Hx.
  - constructor; [by constructor|]. constructor; [lia|].
    rewrite Forall_forall in Hx |- *. intros y Hy. specialize (Hx y Hy). cbv beta in *. lia.
Qed.

Lemma order_by_id_sorted (l : list Entry) : StronglySorted by_key (order_by_id l).
Proof.
  induction l as [|x l IH]; cbn [order_by_id fold_right]; [constructor|].
  by apply insert_by_id_sorted.
Qed.

(** X15: the snapshot has one row per active stored row and no other, in
    ascending order of the keys. *)
Theorem getSnapshot_ordered (tbl : Table) (columns : list string) :
  exists rows : list Entry,
    getSnapshot tbl columns = map (snapshot_row (dbColumnNames tbl) columns) rows /\
    rows ≡ₚ active_rows tbl /\
    StronglySorted (fun a b => e_id a <= e_id b) rows /\
    length (getSnapshot tbl columns) = length (active_rows tbl).
Proof.
  exists (select_active tbl). unfold getSnapshot, select_active, active_rows.
  split; [done|]. split; [apply order_by_id_perm|]. split; [apply order_by_id_sorted|].
  by rewrite length_map, order_by_id_perm.
Qed.

End SnapshotOrder.

(* --------------------------------------------------------------------- *)
(** ** Diff engine: the form of a row hash *)
(* --------------------------------------------------------------------- *)

Section HashForm.
Import Js DiffEngine Sha256 SchemaSpec.

Lemma round_length st kw : length st = 8%nat -> length (round st kw) = 8%nat.
Proof.
  intros H. do 9 (destruct st as [|? st]; try discriminate H). reflexivity.
Qed.

Lemma rounds_length kws st : length st = 8%nat -> length (fold_left round kws st) = 8%nat.
Proof.
  revert st. induction kws as [|kw kws IH]; intros st H; cbn [fold_left]; [done|].
  by apply IH, round_length.
Qed.

Lemma compress_length h block : length h = 8%nat -> length (compress h block) = 8%nat.
Proof.
  intros H. unfold compress. rewrite length_map, length_combine, rounds_length, H by done.
  reflexivity.
Qed.

Lemma blocks_length blocks h :
  length h = 8%nat -> length (fold_left compress blocks h) = 8%nat.
Proof.
  revert h. induction blocks as [|b blocks IH]; intros h H; cbn [fold_left]; [done|].
  by apply IH, compress_length.
Qed.

Lemma all_chars_app P a b :
  all_chars P (a +:+ b) = all_chars P a && all_chars P b.
Proof.
  induction a as [|c a IH]; [done|].
  change (String c a +:+ b) with (String c (a +:+ b)). cbn [all_chars].
  by rewrite IH, andb_assoc.
Qed.

Lemma length_app_string a b :
  String.length (a +:+ b) = (String.length a + String.length b)%nat.
Proof.
  induction a as [|c a IH]; [done|].
  change (String c a +:+ b) with (String c (a +:+ b)). cbn [String.length plus].
  by rewrite IH.
Qed.

Lemma hex_digit_hex d : 0 <= d < 16 -> is_hex_char (hex_digit d) = true.
Proof.
  intros H.
  assert (Hd : d ∈ [0; 1; 2; 3; 4; 5; 6; 7; 8; 9; 10; 11; 12; 13; 14; 15]).
  { assert (Hz : d = Z.of_nat (Z.to_nat d)) by lia. rewrite Hz.
    assert (Hn : (Z.to_nat d < 16)%nat) by lia. revert Hn. generalize (Z.to_nat d).
    intros n Hn. do 16 (destruct n as [|n]; [by repeat constructor|]). lia. }
  clear H. repeat (apply elem_of_cons in Hd as [-> | Hd]; [reflexivity|]).
  by apply elem_of_nil in Hd.
Qed.

Lemma hex_of_byte_form b :
  0 <= b < 256 ->
  String.length (hex_of_byte b) = 2%nat /\ all_chars is_hex_char (hex_of_byte b) = true.
Proof.
  intros H. split; [reflexivity|]. unfold hex_of_byte. cbn [all_chars].
  rewrite !hex_digit_hex; [done| |].
  - apply Z.mod_pos_bound. lia.
  - split; [apply Z.div_pos; lia|]. apply Z.div_lt_upper_bound; lia.
Qed.

Lemma be_bytes_range n x : Forall (fun b => 0 <= b < 256) (be_bytes n x).
Proof.
  revert x. induction n as [|n IH]; intros x; cbn [be_bytes]; [constructor|].
  apply Forall_app. split; [apply IH|]. repeat constructor; apply Z.mod_pos_bound; lia.
Qed.

Lemma length_be_bytes n x : length (be_bytes n x) = n.
Proof.
  revert x. induction n as [|n IH]; intros x; cbn [be_bytes]; [done|].
  rewrite length_app, IH. cbn. lia.
Qed.

Lemma hex_of_bytes_form bs :
  Forall (fun b => 0 <= b < 256) bs ->
  String.length (fold_right (fun b acc => hex_of_byte b +:+ acc) "" bs) = (2 * length bs)%nat /\
  all_chars is_hex_char (fold_right (fun b acc => hex_of_byte b +:+ acc) "" bs) = true.
Proof.
  induction 1 as [|b bs Hb _ [IH1 IH2]]; cbn [fold_right length]; [done|].
  destruct (hex_of_byte_form b Hb) as [H1 H2].
  rewrite length_app_string, all_chars_app, H1, H2, IH1, IH2. split; [lia|done].
Qed.

Lemma hex_of_words_form ws :
  String.length (fold_right (fun w acc => hex_of_word w +:+ acc) "" ws) = (8 * length ws)%nat /\
  all_chars is_hex_char (fold_right (fun w acc => hex_of_word w +:+ acc) "" ws) = true.
Proof.
  induction ws as [|w ws [IH1 IH2]]; cbn [fold_right length]; [done|].
  destruct (hex_of_bytes_form (be_bytes 4 w) (be_bytes_range 4 w)) as [H1 H2].
  rewrite length_be_bytes in H1.
  rewrite length_app_string, all_chars_app, IH1, IH2. unfold hex_of_word.
  rewrite H1, H2. split; [lia|done].
Qed.

Lemma sha256_form s :
  String.length (sha256 s) = 64%nat /\ all_chars is_hex_char (sha256 s) = true.
Proof.
  unfold sha256. cbv zeta.
  destruct (hex_of_words_form
              (fold_left compress
                 (chunks (length (pad (bytes_of_string s))) 64 (pad (bytes_of_string s)))
                 initial_state)) as [H1 H2].
  rewrite blocks_length in H1 by reflexivity. done.
Qed.

(** X16: a row hash is always 64 characters from [[0-9a-f]], whatever the row
    and the columns: it fits the [VARCHAR(64) NOT NULL] column and is
    never the empty string that [dbRow.row_hash || ...] would replace. *)
Theorem computeRowHash_hex (row : obj) (columns : list string) :
  String.length (computeRowHash row columns) = 64%nat /\
  all_chars is_hex_char (computeRowHash row columns) = true /\
  truthy (VStr (computeRowHash row columns)) = true.
Proof.
  unfold computeRowHash. destruct (sha256_form (normalizedString row columns)) as [H1 H2].
  split; [done|]. split; [done|]. cbn [truthy].
  by destruct (sha256 _).
Qed.

End HashForm.

(* --------------------------------------------------------------------- *)
(** ** Snapshot store: the names of the data columns *)
(* --------------------------------------------------------------------- *)

Section ColumnNames.
Import Js DiffEngine Schema SnapshotStore StoreSpec.

Local Abbreviation in_step st := (forall c : string, c ∈ st.1 <-> c ∈ st.2).

Lemma column_step_name (st : list string * gset string) (col : string) :
  in_step st ->
  exists name,
    column_step st col = (st.1 ++ [name], {[name]} ∪ st.2) /\
    (sanitizeColumnName col ∉ st.2 -> name = sanitizeColumnName col) /\
    (sanitizeColumnName col ∈ st.2 ->
       exists k, (1 <= k)%nat /\ name = candidate (sanitizeColumnName col) k).
Proof.
  destruct st as [cols seen]. cbn [fst snd]. intros Hdom. unfold column_step.
  destruct (bool_decide_reflect (sanitizeColumnName col ∈ seen)) as [Hin|Hnin].
  - eexists. split; [reflexivity|]. split; [done|]. intros _.
    destruct (uniqueSanitized_first (size seen) seen (sanitizeColumnName col) 1
                (candidate_available seen _ Hin)) as (k & Hk & -> & _).
    exists k. split; [lia|done].
  - eexists. split; [reflexivity|]. split; [done|]. done.
Qed.

Lemma columns_fold (columns : list string) (st : list string * gset string) :
  in_step st -> NoDup st.1 ->
  exists added,
    (fold_left column_step columns st).1 = st.1 ++ added /\
    length added = length columns /\
    (forall i c, columns !! i = Some c ->
       exists name, added !! i = Some name /\
         (name = sanitizeColumnName c \/
          exists k, (1 <= k)%nat /\ name = candidate (sanitizeColumnName c) k)) /\
    (forall c, c ∈ columns -> sanitizeColumnName c ∈ st.1 ++ added) /\
    ((forall c, c ∈ columns -> sanitizeColumnName c ∉ st.2) ->
     NoDup (map sanitizeColumnName columns) -> added = map sanitizeColumnName columns).
Proof.
  revert st. induction columns as [|col columns IH]; intros st Hdom Hnd.
  { exists []. cbn [fold_left]. rewrite app_nil_r. split; [done|]. split; [done|].
    split; [intros i c H; by rewrite lookup_nil in H|].
    split; [intros c H; by apply elem_of_nil in H|]. done. }
  destruct (column_step_name st col Hdom) as (name & Hstep & Hplain & Hsuff).
  destruct (column_step_inv st col Hdom Hnd) as (Hdom1 & Hnd1 & _).
  cbn [fold_left]. destruct (IH _ Hdom1 Hnd1) as (added & H1 & H2 & H3 & H4 & H5).
  rewrite Hstep in H1, H4, H5 |- *. cbn [fst snd] in H1, H4, H5.
  exists (name :: added). rewrite H1, <- app_assoc. cbn [app length].
  split; [done|]. split; [by rewrite H2|]. split; [|split].
  - intros [|i] c Hc; cbn in Hc |- *.
    + injection Hc as <-. exists name. split; [done|].
      destruct (decide (sanitizeColumnName col ∈ st.2)) as [Hin|Hnin].
      * right. by apply Hsuff.
      * left. by apply Hplain.
    + by apply H3.
  - intros c [-> | Hc]%elem_of_cons.
    + destruct (decide (sanitizeColumnName col ∈ st.2)) as [Hin|Hnin].
      * apply elem_of_app. left. by apply Hdom.
      * rewrite (Hplain Hnin). apply elem_of_app. right. left.
    + specialize (H4 c Hc). by rewrite <- app_assoc in H4.
  - intros Hfresh Hnodup. cbn [map] in Hnodup |- *. apply NoDup_cons in Hnodup as [Hhd Htl].
    assert (Hname : name = sanitizeColumnName col) by (apply Hplain, Hfresh; left).
    rewrite Hname. f_equal. apply H5; [|done].
    intros c Hc. rewrite Hname. rewrite elem_of_union, elem_of_singleton.
    intros [Heq | Hin].
    + apply Hhd. rewrite <- Heq. apply list_elem_of_fmap. eauto.
    + apply (Hfresh c); [by right|done].
Qed.

(** X17: the names [applyDiff] and [storeSnapshot] write to are pairwise
    different, one per column and in the order of the columns; each is
    the sanitized name of its column or that name with a numeric suffix;
    the sanitized name of every column is among them; and when no two
    columns sanitize to the same name, they are exactly the sanitized
    names. *)
Theorem sanitizedColumnsOf_names (columns : list string) :
  NoDup (sanitizedColumnsOf columns) /\
  length (sanitizedColumnsOf columns) = length columns /\
  (forall i c, columns !! i = Some c ->
     exists name, sanitizedColumnsOf columns !! i = Some name /\
       (name = sanitizeColumnName c \/
        exists k, (1 <= k)%nat /\ name = candidate (sanitizeColumnName c) k)) /\
  (forall c, c ∈ columns -> sanitizeColumnName c ∈ sanitizedColumnsOf columns) /\
  (NoDup (map sanitizeColumnName columns) ->
   sanitizedColumnsOf columns = map sanitizeColumnName columns).
Proof.
  assert (Hdom : in_step (([], ∅) : list string * gset string)).
  { intros c. cbn. rewrite elem_of_nil, elem_of_empty. tauto. }
  destruct (columns_fold columns ([], ∅) Hdom (NoDup_nil_2 (A := string)))
    as (added & H1 & H2 & H3 & H4 & H5).
  cbn [fst snd app] in *. unfold sanitizedColumnsOf. rewrite H1.
  split; [|split; [done|split; [done|split; [done|]]]].
  - rewrite <- H1. apply (sanitizedColumnsOf_spec columns).
  - apply H5. intros c _. apply not_elem_of_empty.
Qed.

End ColumnNames.


(* --------------------------------------------------------------------- *)
(** ** Row hash: more texts than digests *)
(* --------------------------------------------------------------------- *)

Section Collisions.
Import Js DiffEngine Schema SchemaSpec Samples.

Lemma hex_digit_bound (c : ascii) : (hex_value c < 16)%nat.
Proof.
  unfold hex_value. cbv zeta.
  destruct ((48 <=? nat_of_ascii c) && (nat_of_ascii c <=? 57))%nat eqn:E1.
  - apply andb_true_iff in E1 as [H1 H2]. apply Nat.leb_le in H1, H2. lia.
  - destruct ((97 <=? nat_of_ascii c) && (nat_of_ascii c <=? 102))%nat eqn:E2; [|lia].
    apply andb_true_iff in E2 as [H1 H2]. apply Nat.leb_le in H1, H2. lia.
Qed.

Lemma hex_digit_inj (c1 c2 : ascii) :
  is_hex_char c1 = true -> is_hex_char c2 = true -> hex_value c1 = hex_value c2 -> c1 = c2.
Proof.
  unfold is_hex_char, hex_value. cbv zeta. intros H1 H2 H.
  rewrite <- (ascii_nat_embedding c1), <- (ascii_nat_embedding c2). f_equal.
  destruct ((48 <=? nat_of_ascii c1) && (nat_of_ascii c1 <=? 57))%nat eqn:A1;
    destruct ((48 <=? nat_of_ascii c2) && (nat_of_ascii c2 <=? 57))%nat eqn:A2;
    cbn [orb] in H1, H2; try rewrite H1 in H; try rewrite H2 in H;
    repeat match goal with
           | X : (_ && _)%bool = true |- _ => apply andb_true_iff in X as [? ?]
           | X : (_ <=? _)%nat = true |- _ => apply Nat.leb_le in X
           end; lia.
Qed.

Lemma hexval_bound (s : string) : (hexval s < 16 ^ String.length s)%nat.
Proof.
  induction s as [|c s IH]; [cbn; lia|].
  cbn [hexval String.length]. rewrite Nat.pow_succ_r'.
  pose proof (hex_digit_bound c). revert IH.
  generalize (16 ^ String.length s)%nat (hexval s) (hex_value c) H. clear.
  intros P v d Hd Hv. nia.
Qed.

Lemma hexval_inj (s t : string) :
  String.length s = String.length t ->
  all_chars is_hex_char s = true -> all_chars is_hex_char t = true ->
  hexval s = hexval t -> s = t.
Proof.
  revert t. induction s as [|c s IH]; intros [|c' t]; cbn [String.length]; try done.
  intros [= Hlen]. cbn [all_chars hexval].
  intros [Hc Hs]%andb_true_iff [Hc' Ht]%andb_true_iff. rewrite Hlen.
  pose proof (hexval_bound s) as Bs. pose proof (hexval_bound t) as Bt.
  rewrite Hlen in Bs. intros H.
  assert (Hd : hex_value c = hex_value c' /\ hexval s = hexval t).
  { revert Bs Bt H.
    generalize (16 ^ String.length t)%nat (hexval s) (hexval t) (hex_value c) (hex_value c').
    clear. intros P v w d e Hv Hw H.
    destruct (Nat.lt_trichotomy d e) as [Hlt|[->|Hgt]]; [nia|lia|nia]. }
  destruct Hd as [Hd Hv]. f_equal; [by apply hex_digit_inj|by apply IH].
Qed.

(** Among more than [16 ^ n] texts of [n] characters from [[0-9a-f]] two
    are the same. *)
Lemma digest_pigeonhole (f : nat -> string) (n : nat) :
  (forall i, String.length (f i) = n /\ all_chars is_hex_char (f i) = true) ->
  exists i j, (i < j)%nat /\ f i = f j.
Proof.
  intros Hf.
  destruct (nat_pigeonhole (fun i => hexval (f i)) (S (16 ^ n)) (16 ^ n))
    as (i & j & [Hij _] & Heq).
  - apply Nat.lt_succ_diag_r.
  - intros i _. destruct (Hf i) as [<- _]. apply hexval_bound.
  - exists i, j. split; [done|].
    destruct (Hf i) as [Hi1 Hi2], (Hf j) as [Hj1 Hj2].
    apply hexval_inj; [congruence|done|done|done].
Qed.

Lemma separator_free (s : string) :
  all_chars is_digit s = true -> includes s "|" = false.
Proof.
  induction s as [|c s IH]; [done|].
  cbn [all_chars]. intros [Hc Hs]%andb_true_iff.
  cbn [includes String.prefix]. rewrite (IH Hs), orb_false_r.
  destruct (ascii_dec "|" c) as [<-|Hne]; [done|done].
Qed.

Lemma string_of_uint_digits (u : Decimal.uint) :
  all_chars is_digit (NilZero.string_of_uint u) = true.
Proof.
  assert (H : forall v, all_chars is_digit (NilEmpty.string_of_uint v) = true).
  { induction v as [|v IH|v IH|v IH|v IH|v IH|v IH|v IH|v IH|v IH|v IH];
      cbn [NilEmpty.string_of_uint all_chars]; [done|exact IH..]. }
  destruct u; try apply H. done.
Qed.

(** Two of the rows [numbered 0], [numbered 1], ... have the same
    hash. *)
Lemma numbered_collision :
  exists i j, i <> j /\ computeRowHash (numbered i) ["c"] = computeRowHash (numbered j) ["c"].
Proof.
  destruct (digest_pigeonhole (fun i => computeRowHash (numbered i) ["c"]) 64)
    as (i & j & Hij & Heq).
  - intros i. apply sha256_form.
  - exists i, j. split; [lia|exact Heq].
Qed.

(** C3, counterexample: rows that differ in the normalized value of a
    listed column, without the separator in any value, and have the
    same digest.  First, a listed column called [__proto__] is not
    hashed: the assignment [normalized[col] = ...] of such a column sets
    no property, so the two sample rows, which hold ["a"] and ["b"]
    there, both give the canonical text [""].  Second, there are more
    canonical texts than digests: among the rows that hold a decimal
    number in the one column [c], two hold different numbers and have
    the same digest. *)
Lemma computeRowHash_collides :
  (includes (normalize_value (obj_get row_proto_a "__proto__")) "|" = false /\
   includes (normalize_value (obj_get row_proto_b "__proto__")) "|" = false /\
   normalize_value (obj_get row_proto_a "__proto__")
   <> normalize_value (obj_get row_proto_b "__proto__") /\
   normalizedString row_proto_a proto = "" /\
   normalizedString row_proto_b proto = "" /\
   computeRowHash row_proto_a proto = computeRowHash row_proto_b proto) /\
  (exists r1 r2 : obj,
     includes (normalize_value (obj_get r1 "c")) "|" = false /\
     includes (normalize_value (obj_get r2 "c")) "|" = false /\
     normalize_value (obj_get r1 "c") <> normalize_value (obj_get r2 "c") /\
     computeRowHash r1 ["c"] = computeRowHash r2 ["c"]).
Proof.
  split.
  - split; [reflexivity|]. split; [reflexivity|]. split; [discriminate|].
    split; [reflexivity|]. split; [reflexivity|].
    unfold computeRowHash. f_equal.
  - destruct numbered_collision as (i & j & Hij & Heq).
    exists (numbered i), (numbered j).
    change (normalize_value (obj_get (numbered i) "c")) with (string_of_nat i).
    change (normalize_value (obj_get (numbered j) "c")) with (string_of_nat j).
    split; [apply separator_free, string_of_uint_digits|].
    split; [apply separator_free, string_of_uint_digits|].
    split; [|exact Heq].
    intros H%string_of_nat_inj. done.
Qed.

End Collisions.
(* --------------------------------------------------------------------- *)
(** ** Snapshot store: counters and keys of one pass *)
(* --------------------------------------------------------------------- *)

Section Accounting.
Import Js DiffEngine SnapshotStore StoreSpec StoreShape.

Variables (now N : Z) (columns sanitizedColumns : list string).

Lemma update_where_keys (sel : Entry -> bool) (f : Entry -> Entry) rows :
  (forall e, e_id (f e) = e_id e) ->
  map e_id (update_where now sel f rows) = map e_id rows.
Proof.
  intros Hf. unfold update_where. rewrite map_map. apply map_ext.
  intros e. destruct (sel e); [|done]. cbn [e_id]. apply Hf.
Qed.

(** INSERT takes the next key of the sequence; UPDATE keeps the keys. *)
Lemma exec_keys stmt tbl tbl' :
  exec now stmt tbl = Some tbl' ->
  t_columns tbl' = t_columns tbl /\
  match stmt with
  | InsertRow _ _ _ _ _ =>
      keys tbl' = keys tbl ++ [t_next_id tbl] /\ t_next_id tbl' = t_next_id tbl + 1
  | _ => keys tbl' = keys tbl /\ t_next_id tbl' = t_next_id tbl
  end.
Proof.
  intros H. apply exec_inv in H as [_ H]. unfold keys.
  destruct stmt as [h r s cs vs id|h r s cs vs|r id|r h].
  - destruct H as (h' & src' & key & _ & _ & _ & _ & E). cbn [execute] in E.
    destruct h' as [h'|].
    + injection E as <-. cbn [with_rows t_columns t_rows t_next_id].
      by rewrite update_where_keys.
    + destruct (existsb _ _); [done|]. by injection E as <-.
  - destruct H as (h' & src' & _ & _ & _ & E). cbn [execute] in E.
    destruct (int4 (t_next_id tbl)); [|done]. destruct h' as [h'|]; [|done].
    injection E as <-. cbn [t_columns t_rows t_next_id]. by rewrite map_app.
  - destruct H as (key & _ & E). cbn [execute] in E. injection E as <-.
    cbn [with_rows t_columns t_rows t_next_id]. by rewrite update_where_keys.
  - cbn [execute] in H. injection H as <-. cbn [with_rows t_columns t_rows t_next_id].
    by rewrite update_where_keys.
Qed.

Lemma fresh_keys_snoc tbl n :
  fresh_keys tbl (S n) = fresh_keys tbl n ++ [t_next_id tbl + Z.of_nat n].
Proof. unfold fresh_keys. by rewrite seq_S, map_app. Qed.

(** Statements that add no row keep the keys and the sequence. *)
Lemma run_keys_rewrites l tbl tbl' :
  (forall s, s ∈ l -> rewrites_only s) -> run now l tbl = Some tbl' ->
  t_columns tbl' = t_columns tbl /\ keys tbl' = keys tbl /\
  t_next_id tbl' = t_next_id tbl.
Proof.
  intros Hl. apply (run_inv (fun t => t_columns t = t_columns tbl /\ keys t = keys tbl /\
                                      t_next_id t = t_next_id tbl)); [|done].
  intros s t t' Hs (H1 & H2 & H3) E. apply exec_keys in E as [G1 G2].
  specialize (Hl s Hs). destruct s; try done; destruct G2 as [G2 G3]; repeat split; congruence.
Qed.

(** INSERTs append one key of the sequence each. *)
Lemma run_keys_inserts {A} (f : A -> Stmt) (l : list A) tbl tbl' :
  (forall x, match f x with InsertRow _ _ _ _ _ => True | _ => False end) ->
  run now (map f l) tbl = Some tbl' ->
  t_columns tbl' = t_columns tbl /\
  keys tbl' = keys tbl ++ fresh_keys tbl (length l) /\
  t_next_id tbl' = t_next_id tbl + Z.of_nat (length l).
Proof.
  intros Hf. revert tbl'. induction l as [|x l IH] using rev_ind; intros tbl' H.
  - cbn in H. injection H as <-. unfold fresh_keys. cbn. rewrite app_nil_r.
    repeat split; lia.
  - rewrite map_app in H. apply run_app_Some in H as (t1 & H1 & H2).
    destruct (IH t1 H1) as (G1 & G2 & G3).
    apply run_cons_Some in H2 as (t2 & E & H2). cbn in H2. injection H2 as <-.
    apply exec_keys in E as [E1 E2]. specialize (Hf x).
    destruct (f x); try done. destruct E2 as [E2 E3].
    rewrite length_app. cbn [length]. rewrite Nat.add_1_r, fresh_keys_snoc.
    rewrite E1, E2, E3, G1, G2, G3, app_assoc. repeat split; lia.
Qed.

(** The keys after the statements of a pass: those from before, then one
    key of the sequence per insert item. *)
Lemma statements_keys diff tbl tbl' :
  run now (statements N columns sanitizedColumns diff) tbl = Some tbl' ->
  t_columns tbl' = t_columns tbl /\
  keys tbl' = keys tbl ++ fresh_keys tbl (length (inserts diff)) /\
  t_next_id tbl' = t_next_id tbl + Z.of_nat (length (inserts diff)).
Proof.
  unfold statements. intros (t1 & H1 & H)%run_app_Some.
  apply run_app_Some in H as (t2 & H2 & H3).
  apply run_keys_rewrites in H1 as (A1 & A2 & A3).
  2:{ intros s (u & _ & Hs)%list_elem_of_omap. unfold update_stmt_of in Hs.
      destruct (truthy _); [|done]. by injection Hs as <-. }
  apply run_keys_inserts in H2 as (B1 & B2 & B3); [|done].
  apply run_keys_rewrites in H3 as (C1 & C2 & C3).
  2:{ intros s (d & -> & _)%list_elem_of_fmap. unfold delete_stmt.
      by destruct (truthy _). }
  assert (Hf : fresh_keys t1 (length (inserts diff)) = fresh_keys tbl (length (inserts diff)))
    by (unfold fresh_keys; by rewrite A3).
  rewrite C1, C2, C3, B1, B2, B3, A1, A2, A3, Hf. done.
Qed.

End Accounting.

Section AccountingTheorems.
Import Js DiffEngine SnapshotStore StoreSpec StoreShape.

Lemma applyDiff_account (tbl : Table) (now : Z) (columns : list string)
      (diff : Diff) (N : Z) (counts : Counts) (tbl' : Table) :
  applyDiff tbl now columns diff N = (inr counts, tbl') ->
  0 <= inserted counts <= Z.of_nat (length (inserts diff)) /\
  0 <= updated counts <= Z.of_nat (length (updates diff)) /\
  0 <= deleted counts <= Z.of_nat (length (deletes diff)) /\
  keyless diff <= skipped counts /\
  inserted counts + updated counts + deleted counts + skipped counts
  = Z.of_nat (length (inserts diff) + length (updates diff) + length (deletes diff)) /\
  t_columns tbl' = t_columns tbl /\
  (clean diff counts ->
   inserted counts = Z.of_nat (length (inserts diff)) /\
   updated counts = Z.of_nat (length (updates diff)) - keyless diff /\
   deleted counts = Z.of_nat (length (deletes diff)) /\
   keys tbl' = keys tbl ++ fresh_keys tbl (length (inserts diff)) /\
   t_next_id tbl' = t_next_id tbl + Z.of_nat (length (inserts diff))) /\
  (~ clean diff counts ->
   t_rows tbl' = t_rows tbl /\ t_next_id tbl <= t_next_id tbl').
Proof.
  intros H. pose proof (keyless_bounds N columns (sanitizedColumnsOf columns) diff) as Hb.
  apply applyDiff_outcome in H
    as [(Hc & Hrun & Hi & Hu & Hd)|(Hs & Hrun & (n & -> & Hn) & Hi & Hu & Hd & Hsum)].
  - apply statements_keys in Hrun as (K1 & K2 & K3). unfold clean in Hc.
    rewrite Hi, Hu, Hd, Hc. repeat split; try done; try lia.
  - cbn [t_columns t_rows t_next_id]. repeat split; try done; try lia;
      unfold clean in *; exfalso; lia.
Qed.

(** X13: every item of the diff is counted exactly once, an insert as
    inserted or skipped, an update as updated or skipped, a delete as
    deleted or skipped; the update items without a key are among the
    skipped ones.  When nothing else is skipped, no statement raised:
    every insert and delete item is counted as such, no stored row is
    removed or moved, and the keys afterwards are the keys before
    followed by one new key of the sequence per insert item.  Otherwise
    a statement raised and the pass was rolled back: the stored rows are
    those from before (the sequence may have advanced). *)
Theorem applyDiff_accounts (tbl : Table) (now : Z) (columns : list string)
        (diff : Diff) (N : Z) (counts : Counts) (tbl' : Table) :
  applyDiff tbl now columns diff N = (inr counts, tbl') ->
  0 <= inserted counts <= Z.of_nat (length (inserts diff)) /\
  0 <= updated counts <= Z.of_nat (length (updates diff)) /\
  0 <= deleted counts <= Z.of_nat (length (deletes diff)) /\
  keyless diff <= skipped counts /\
  inserted counts + updated counts + deleted counts + skipped counts
  = Z.of_nat (length (inserts diff) + length (updates diff) + length (deletes diff)) /\
  t_columns tbl' = t_columns tbl /\
  (clean diff counts ->
   inserted counts = Z.of_nat (length (inserts diff)) /\
   updated counts = Z.of_nat (length (updates diff)) - keyless diff /\
   deleted counts = Z.of_nat (length (deletes diff)) /\
   keys tbl' = keys tbl ++ fresh_keys tbl (length (inserts diff)) /\
   t_next_id tbl' = t_next_id tbl + Z.of_nat (length (inserts diff))) /\
  (~ clean diff counts ->
   t_rows tbl' = t_rows tbl /\ t_next_id tbl <= t_next_id tbl').
Proof. apply applyDiff_account. Qed.

(** *** What is stored for a hash and a source that fit their columns *)

Lemma split_chars_short (n : nat) (s : string) :
  (String.length s <= n)%nat -> split_chars n s = (s, EmptyString).
Proof.
  revert n. induction s as [|c s IH]; intros n Hn; [done|].
  cbn [String.length] in Hn. cbn [split_chars].
  destruct (is_continuation c).
  - rewrite IH by lia. done.
  - destruct n as [|n]; [lia|]. rewrite IH by lia. done.
Qed.

Lemma varchar_short (n : nat) (s : string) :
  (String.length s <= n)%nat -> varchar n s = Some s.
Proof. intros Hn. unfold varchar. by rewrite split_chars_short. Qed.

Lemma bind_hash_short (h : string) (stored : option string) :
  bind_hash (VStr h) = Some stored -> (String.length h <= 64)%nat -> stored = Some h.
Proof.
  unfold bind_hash, bind_text. cbn [pg_text]. destruct (has_nul h); [done|].
  intros H Hn. rewrite varchar_short in H by done. by injection H as <-.
Qed.

Lemma bind_source_sheet (stored : string) :
  bind_source "sheet" = Some stored -> stored = "sheet".
Proof. vm_compute. by intros [= <-]. Qed.

Lemma pg_int_number (x : Z) (key : option Z) : pg_int (VNum x) = Some key -> key = Some x.
Proof. cbn [pg_int]. destruct (int4 x); [|done]. by intros [= <-]. Qed.

(** The row that an INSERT of [applyDiff] or [storeSnapshot] stores. *)
Lemma exec_insert_stored now (h : string) (r : Z) cols vals tbl tbl' :
  exec now (InsertRow (VStr h) r "sheet" cols vals) tbl = Some tbl' ->
  (String.length h <= 64)%nat ->
  tbl' = mkTable (t_columns tbl)
           (t_rows tbl ++
              [mkEntry (t_next_id tbl) now now h r "sheet" None (set_data cols vals ∅)])
           (t_next_id tbl + 1).
Proof.
  intros H Hn. apply exec_inv in H as [_ (stored & src & Hh & Hs & _ & E)].
  apply bind_hash_short in Hh as ->; [|done]. apply bind_source_sheet in Hs as ->.
  cbn [execute] in E. destruct (int4 (t_next_id tbl)); [|done]. by injection E as <-.
Qed.

(** What an UPDATE of [applyDiff] makes of the table. *)
Lemma exec_update_stored now (h : string) (r x : Z) cols vals tbl tbl' :
  exec now (UpdateRow (VStr h) r "sheet" cols vals (VNum x)) tbl = Some tbl' ->
  (String.length h <= 64)%nat ->
  tbl' = with_rows tbl
           (update_where now (selected_by_id x)
              (fun e => mkEntry (e_id e) (e_created_at e) (e_updated_at e) h r "sheet"
                                (e_deleted_at e) (set_data cols vals (e_data e)))
              (t_rows tbl)).
Proof.
  intros H Hn. apply exec_inv in H as [_ (stored & src & key & Hh & Hs & _ & Hk & E)].
  apply bind_hash_short in Hh as ->; [|done]. apply bind_source_sheet in Hs as ->.
  apply pg_int_number in Hk as ->. cbn [execute] in E. by injection E as <-.
Qed.

(** What a soft delete by a numeric key makes of the rows. *)
Lemma exec_delete_stored now (r x : Z) tbl tbl' :
  exec now (SoftDeleteById r (VNum x)) tbl = Some tbl' ->
  tbl' = with_rows tbl
           (map (fun e => if selected_by_id x e then tombstone now r e else e) (t_rows tbl)).
Proof.
  intros H. apply exec_inv in H as [_ (key & Hk & E)].
  apply pg_int_number in Hk as ->. cbn [execute] in E. by injection E as <-.
Qed.

(** The INSERTs of [storeSnapshot], when none raises. *)
Lemma store_run now (columns : list string) (hashfn : obj -> list string -> string)
      (data : list obj) (tbl tbl' : Table) :
  (forall row, (String.length (hashfn row columns) <= 64)%nat) ->
  run now (map (store_stmt columns (sanitizedColumnsOf columns) hashfn) data) tbl = Some tbl' ->
  tbl' = mkTable (t_columns tbl)
           (t_rows tbl ++
              imap (fun j row => new_entry now 1 columns (t_next_id tbl + Z.of_nat j)
                                   (hashfn row columns) row) data)
           (t_next_id tbl + Z.of_nat (length data)).
Proof.
  intros Hlen. revert tbl. induction data as [|row data IH]; intros tbl H.
  - cbn in H. injection H as <-. cbn [imap length]. rewrite app_nil_r, Z.add_0_r.
    by destruct tbl.
  - cbn [map] in H. apply run_cons_Some in H as (t1 & E & H).
    apply exec_insert_stored in E; [|apply Hlen]. subst t1.
    rewrite (IH _ H). cbn [t_columns t_rows t_next_id imap length].
    rewrite <- app_assoc. cbn [app]. rewrite Z.add_0_r.
    f_equal; [|lia]. do 2 f_equal.
    apply imap_ext. intros j x _. unfold compose. f_equal. lia.
Qed.

Lemma computeRowHash_length row columns :
  (String.length (computeRowHash row columns) <= 64)%nat.
Proof. unfold computeRowHash. destruct (sha256_form (normalizedString row columns)) as [-> _]. done. Qed.

Lemma storeSnapshot_account (tbl : Table) (now : Z) (columns : list string)
      (data : list obj) :
  match storeSnapshot tbl now columns data computeRowHash with
  | (inl error, tbl') =>
      missingColumns tbl (sanitizedColumnsOf columns) <> [] /\
      error = schemaError (missingColumns tbl (sanitizedColumnsOf columns)) /\
      tbl' = tbl
  | (inr (ins, skip), tbl') =>
      missingColumns tbl (sanitizedColumnsOf columns) = [] /\
      0 <= ins /\ 0 <= skip /\ ins + skip = Z.of_nat (length data) /\
      (skip = 0 ->
       tbl' = mkTable (t_columns tbl)
                (t_rows tbl ++
                   imap (fun j row => new_entry now 1 columns (t_next_id tbl + Z.of_nat j)
                                        (computeRowHash row columns) row) data)
                (t_next_id tbl + Z.of_nat (length data))) /\
      (skip <> 0 ->
       t_columns tbl' = t_columns tbl /\ t_rows tbl' = t_rows tbl /\
       t_next_id tbl <= t_next_id tbl')
  end.
Proof.
  destruct (storeSnapshot tbl now columns data computeRowHash) as [[error|[ins skip]] tbl'] eqn:H.
  - unfold storeSnapshot in H.
    destruct (missingColumns tbl (sanitizedColumnsOf columns)) as [|c missing] eqn:Em.
    + cbn [length Nat.ltb Nat.leb] in H. by destruct (fold_left _ _ _) as [? []].
    + cbn [length Nat.ltb Nat.leb] in H. by injection H as <- <-.
  - assert (Hm : missingColumns tbl (sanitizedColumnsOf columns) = []).
    { unfold storeSnapshot in H.
      destruct (missingColumns tbl (sanitizedColumnsOf columns)) as [|c missing]; done. }
    split; [exact Hm|].
    apply storeSnapshot_outcome in H as [(-> & -> & Hrun)|(Hs & Hi & Hsum & _ & n & -> & Hn)].
    + apply store_run in Hrun; [|intros row; apply computeRowHash_length].
      repeat split; try done; lia.
    + cbn [t_columns t_rows t_next_id]. repeat split; try done; try lia.
Qed.

(** X14: [storeSnapshot] called with [computeRowHash] throws the
    missing-columns error and leaves the table alone when a column is
    missing.  Otherwise it returns, with every row of the data counted
    as inserted or as skipped.  When none is skipped, every INSERT ran
    and the table holds one new active row per data row, in order, after
    the rows that were there, with the next keys of the sequence,
    revision 1, source ["sheet"] and the row's hash.  When a row is
    skipped, an INSERT raised and the call was rolled back: the stored
    rows are those from before (the sequence may have advanced). *)
Theorem storeSnapshot_stores (tbl : Table) (now : Z) (columns : list string)
        (data : list obj) :
  match storeSnapshot tbl now columns data computeRowHash with
  | (inl error, tbl') =>
      missingColumns tbl (sanitizedColumnsOf columns) <> [] /\
      error = schemaError (missingColumns tbl (sanitizedColumnsOf columns)) /\
      tbl' = tbl
  | (inr (ins, skip), tbl') =>
      missingColumns tbl (sanitizedColumnsOf columns) = [] /\
      0 <= ins /\ 0 <= skip /\ ins + skip = Z.of_nat (length data) /\
      (skip = 0 ->
       tbl' = mkTable (t_columns tbl)
                (t_rows tbl ++
                   imap (fun j row => new_entry now 1 columns (t_next_id tbl + Z.of_nat j)
                                        (computeRowHash row columns) row) data)
                (t_next_id tbl + Z.of_nat (length data))) /\
      (skip <> 0 ->
       t_columns tbl' = t_columns tbl /\ t_rows tbl' = t_rows tbl /\
       t_next_id tbl <= t_next_id tbl')
  end.
Proof. apply storeSnapshot_account. Qed.

End AccountingTheorems.
(* --------------------------------------------------------------------- *)
(** ** Snapshot store: keys stay in order *)
(* --------------------------------------------------------------------- *)

Section KeyOrder.
Import Js DiffEngine SnapshotStore StoreSpec StoreShape.

Lemma ascending_fresh_only (n : nat) (lo hi : Z) :
  lo < hi ->
  ascending lo (map (fun j => hi + Z.of_nat j) (seq 0 n)) (hi + Z.of_nat n) = true.
Proof.
  revert lo hi. induction n as [|n IH]; intros lo hi H.
  - cbn. apply Z.ltb_lt. lia.
  - cbn [seq map ascending]. rewrite <- seq_shift, map_map.
    apply andb_true_iff. split; [apply Z.ltb_lt; lia|].
    specialize (IH (hi + Z.of_nat 0) (hi + 1) ltac:(lia)).
    replace (hi + Z.of_nat (S n)) with (hi + 1 + Z.of_nat n) by lia.
    erewrite map_ext; [exact IH|]. intros j. cbv beta. lia.
Qed.

Lemma ascending_fresh (ids : list Z) (n : nat) (lo hi : Z) :
  ascending lo ids hi = true ->
  ascending lo (ids ++ map (fun j => hi + Z.of_nat j) (seq 0 n)) (hi + Z.of_nat n) = true.
Proof.
  revert lo. induction ids as [|x ids IH]; intros lo; cbn [ascending app].
  - intros H%Z.ltb_lt. by apply ascending_fresh_only.
  - intros [H1 H2]%andb_true_iff. by rewrite H1, IH.
Qed.

Lemma ascending_bounds (ids : list Z) (lo hi : Z) :
  ascending lo ids hi = true ->
  lo < hi /\ Forall (fun x => lo < x < hi) ids /\ StronglySorted Z.lt ids.
Proof.
  revert lo. induction ids as [|x ids IH]; intros lo; cbn [ascending].
  - intros H%Z.ltb_lt. split; [done|]. split; constructor.
  - intros [H1%Z.ltb_lt H2]%andb_true_iff. destruct (IH _ H2) as (G1 & G2 & G3).
    split; [lia|]. split.
    + constructor; [lia|]. eapply Forall_impl; [exact G2|]. cbv beta. intros; lia.
    + constructor; [done|]. eapply Forall_impl; [exact G2|]. cbv beta. intros; lia.
Qed.

Lemma sorted_lt_NoDup (ids : list Z) : StronglySorted Z.lt ids -> NoDup ids.
Proof.
  induction 1 as [|x ids _ IH Hx]; constructor; [|done].
  intros Hin. rewrite Forall_forall in Hx. specialize (Hx x Hin). lia.
Qed.

Lemma well_formed_appended (tbl tbl' : Table) (n : nat) :
  well_formed tbl = true ->
  keys tbl' = keys tbl ++ fresh_keys tbl n ->
  t_next_id tbl' = t_next_id tbl + Z.of_nat n ->
  well_formed tbl' = true.
Proof.
  unfold well_formed, fresh_keys. intros H -> ->. by apply ascending_fresh.
Qed.

Lemma ascending_raise (ids : list Z) (lo hi hi' : Z) :
  ascending lo ids hi = true -> hi <= hi' -> ascending lo ids hi' = true.
Proof.
  revert lo. induction ids as [|x ids IH]; intros lo; cbn [ascending].
  - intros H%Z.ltb_lt Hle. apply Z.ltb_lt. lia.
  - intros [H1 H2]%andb_true_iff Hle. by rewrite H1, IH.
Qed.

(** A rollback keeps the keys and may leave the sequence further on. *)
Lemma well_formed_rolled_back (tbl : Table) (n : Z) :
  well_formed tbl = true -> t_next_id tbl <= n ->
  well_formed (mkTable (t_columns tbl) (t_rows tbl) n) = true.
Proof. unfold well_formed, keys. cbn [t_rows t_next_id]. apply ascending_raise. Qed.

Lemma applyDiff_well_formed tbl now columns diff N res tbl' :
  applyDiff tbl now columns diff N = (res, tbl') ->
  well_formed tbl = true -> well_formed tbl' = true.
Proof.
  destruct res as [error|counts]; intros H Hwf.
  - by apply applyDiff_throws in H as ->.
  - apply applyDiff_outcome in H as [(_ & Hrun & _)|(_ & _ & (n & -> & Hn) & _)].
    + apply statements_keys in Hrun as (_ & Hk & Hn).
      by apply (well_formed_appended tbl tbl' (length (inserts diff))).
    + by apply well_formed_rolled_back.
Qed.

Lemma storeSnapshot_well_formed tbl now columns data hashfn res tbl' :
  storeSnapshot tbl now columns data hashfn = (res, tbl') ->
  well_formed tbl = true -> well_formed tbl' = true.
Proof.
  destruct res as [error|[ins skip]]; intros H Hwf.
  - by apply storeSnapshot_throws in H as ->.
  - apply storeSnapshot_outcome in H as [(_ & _ & Hrun)|(_ & _ & _ & _ & n & -> & Hn)].
    + apply run_keys_inserts in Hrun as (_ & Hk & Hn); [|done].
      by apply (well_formed_appended tbl tbl' (length data)).
    + by apply well_formed_rolled_back.
Qed.

(** X18: a table whose keys came from its sequence stays so through any
    number of [applyDiff] and [storeSnapshot] calls: the keys are
    positive, pairwise different, ascend in physical order and lie below
    the next value of the sequence. *)
Theorem well_formed_later (tbl tbl' : Table) :
  well_formed tbl = true -> later tbl tbl' ->
  well_formed tbl' = true /\
  NoDup (keys tbl') /\
  StronglySorted Z.lt (keys tbl') /\
  Forall (fun k => 0 < k < t_next_id tbl') (keys tbl').
Proof.
  intros Hwf Hl.
  assert (H : well_formed tbl' = true).
  { induction Hl as [tbl|tbl now columns diff N res t1 t2 E _ IH
                     |tbl now columns data hashfn res t1 t2 E _ IH]; [done| |].
    - by eapply IH, applyDiff_well_formed.
    - by eapply IH, storeSnapshot_well_formed. }
  split; [done|]. destruct (ascending_bounds _ _ _ H) as (_ & H2 & H3).
  split; [by apply sorted_lt_NoDup|]. done.
Qed.

End KeyOrder.

(* --------------------------------------------------------------------- *)
(** ** Snapshot store: what each statement does to the active rows *)
(* --------------------------------------------------------------------- *)

Section ActiveRows.
Import Js DiffEngine SnapshotStore StoreSpec StoreShape.

Variables (now N : Z) (columns : list string).

Local Abbreviation sanitizedColumns := (sanitizedColumnsOf columns).

Lemma filter_active_map (g : Entry -> Entry) (rows : list Entry) :
  (forall e, is_active (g e) = is_active e) ->
  filter (fun e => is_active e = true) (map g rows)
  = map g (filter (fun e => is_active e = true) rows).
Proof.
  intros Hg. induction rows as [|e rows IH]; [done|]. cbn [map]. rewrite !filter_cons.
  rewrite Hg. destruct (decide (is_active e = true)); cbn [map]; by rewrite IH.
Qed.

Lemma active_update_where (sel : Entry -> bool) (f : Entry -> Entry) (rows : list Entry) :
  (forall e, e_deleted_at (f e) = e_deleted_at e) ->
  filter (fun e => is_active e = true) (update_where now sel f rows)
  = update_where now sel f (filter (fun e => is_active e = true) rows).
Proof.
  intros Hf. unfold update_where. apply filter_active_map.
  intros e. destruct (sel e); [|done]. unfold is_active. cbn [e_deleted_at]. by rewrite Hf.
Qed.

(** The UPDATE of an update item rewrites the active row with the key
    of the item. *)
Lemma exec_update_active (h : string) (row : obj) (x : Z) (tbl tbl' : Table) :
  exec now (UpdateRow (VStr h) N "sheet" sanitizedColumns (dataValues row columns) (VNum x)) tbl
  = Some tbl' ->
  (String.length h <= 64)%nat ->
  t_next_id tbl' = t_next_id tbl /\
  active_rows tbl'
  = map (fun e => if bool_decide (e_id e = x)
                  then updated_entry now N columns h row e else e)
        (active_rows tbl).
Proof.
  intros H Hn. apply exec_update_stored in H as ->; [|done]. split; [done|].
  unfold active_rows. cbn [with_rows t_rows].
  rewrite active_update_where by done. unfold update_where.
  apply map_ext_in. intros e He. apply list_elem_of_In, list_elem_of_filter in He as [Ha _].
  unfold selected_by_id. rewrite Ha, andb_true_r. destruct (decide (e_id e = x)) as [Heq|Hne].
  - rewrite !bool_decide_eq_true_2 by congruence. reflexivity.
  - rewrite !bool_decide_eq_false_2 by congruence. reflexivity.
Qed.

(** The soft delete of a delete item with a key takes the active row
    with that key out of the active rows. *)
Lemma exec_delete_active (x : Z) (tbl tbl' : Table) :
  exec now (SoftDeleteById N (VNum x)) tbl = Some tbl' ->
  active_rows tbl' = filter (fun e => e_id e <> x) (active_rows tbl).
Proof.
  intros H. apply exec_delete_stored in H as ->.
  unfold active_rows. cbn [with_rows t_rows].
  induction (t_rows tbl) as [|e rows IH]; [done|]. cbn [map]. rewrite !filter_cons, IH.
  unfold selected_by_id.
  destruct (bool_decide_reflect (Some (e_id e) = Some x)) as [[= H]|H]; cbn [andb].
  - destruct (is_active e) eqn:Ha.
    + cbn [is_active e_deleted_at tombstone]. rewrite decide_False by done.
      rewrite decide_True by done. rewrite filter_cons, decide_False; [done|]. tauto.
    + rewrite Ha. by rewrite decide_False by done.
  - destruct (decide (is_active e = true)); [|done].
    rewrite filter_cons, decide_True; [done|]. intros Heq. apply H. by rewrite Heq.
Qed.

End ActiveRows.

(* --------------------------------------------------------------------- *)
(** ** Snapshot store: a pass over the diff against the snapshot *)
(* --------------------------------------------------------------------- *)

Section SnapshotRows.
Import Js DiffEngine SnapshotStore StoreSpec StoreShape.

(** A property that is not a data column keeps the value it is created
    with. *)
Lemma snapshot_row_other dbCols columns (row : Entry) (k : string) :
  k ∉ columns ->
  obj_get (snapshot_row dbCols columns row) k
  = obj_get [("id", VNum (e_id row)); ("row_hash", VStr (e_row_hash row));
             ("revision", VNum (e_revision row)); ("source", VStr (e_source row));
             ("deleted_at", js_of_timestamp (e_deleted_at row))] k.
Proof.
  unfold snapshot_row. generalize
    [("id", VNum (e_id row)); ("row_hash", VStr (e_row_hash row));
     ("revision", VNum (e_revision row)); ("source", VStr (e_source row));
     ("deleted_at", js_of_timestamp (e_deleted_at row))].
  induction columns as [|c columns IH]; intros o Hk; cbn [fold_left]; [done|].
  apply not_elem_of_cons in Hk as [Hne Hk]. rewrite IH by done.
  destruct (find _ dbCols) as [dbCol|]; [destruct (truthy (VStr dbCol))|];
    by rewrite obj_get_set_other by done.
Qed.

Lemma sorted_keys_filter (P : Entry -> Prop) `{!forall e, Decision (P e)} (rows : list Entry) :
  StronglySorted Z.lt (map e_id rows) -> StronglySorted Z.lt (map e_id (filter P rows)).
Proof.
  induction rows as [|e rows IH]; [done|]. cbn [map]. intros [H1 H2]%StronglySorted_inv.
  rewrite filter_cons. destruct (decide (P e)); [|by apply IH]. cbn [map].
  constructor; [by apply IH|]. rewrite Forall_forall in H2 |- *.
  intros x [y [-> Hy]]%list_elem_of_fmap. apply H2, list_elem_of_fmap.
  exists y. split; [done|]. by apply list_elem_of_filter in Hy as [_ ?].
Qed.

Lemma order_by_id_ascending (l : list Entry) :
  StronglySorted Z.lt (map e_id l) -> order_by_id l = l.
Proof.
  induction l as [|e l IH]; [done|]. cbn [map]. intros [H1 H2]%StronglySorted_inv.
  cbn [order_by_id fold_right]. change (fold_right insert_by_id [] l) with (order_by_id l).
  rewrite IH by done. destruct l as [|x l]; [done|]. cbn [insert_by_id].
  apply Forall_cons in H2 as [H2 _]. cbn [map] in H2.
  destruct (Z.leb_spec (e_id x) (e_id e)); [lia|done].
Qed.

(** In a table whose keys ascend, the snapshot lists the active rows in
    physical order. *)
Lemma select_active_well_formed (tbl : Table) :
  well_formed tbl = true -> select_active tbl = active_rows tbl.
Proof.
  intros H. destruct (ascending_bounds _ _ _ H) as (_ & _ & Hs).
  unfold select_active. apply order_by_id_ascending. by apply sorted_keys_filter.
Qed.

Lemma active_rows_keys (tbl : Table) :
  well_formed tbl = true ->
  NoDup (map e_id (active_rows tbl)) /\
  Forall (fun e => 0 < e_id e < t_next_id tbl) (active_rows tbl).
Proof.
  intros H. destruct (ascending_bounds _ _ _ H) as (_ & Hb & Hs). split.
  - apply sorted_lt_NoDup. by apply sorted_keys_filter.
  - rewrite Forall_forall in Hb. rewrite Forall_forall.
    intros e [_ He]%list_elem_of_filter. apply Hb. unfold keys. apply list_elem_of_fmap. eauto.
Qed.

End SnapshotRows.

Section Phases.
Import Js DiffEngine SnapshotStore StoreSpec StoreShape DiffShape.

Variables (now N : Z) (columns : list string).

Local Abbreviation sanitizedColumns := (sanitizedColumnsOf columns).
Local Abbreviation update_stmt_of := (update_stmt_of N columns sanitizedColumns).
Local Abbreviation insert_stmt := (insert_stmt N columns sanitizedColumns).
Local Abbreviation delete_stmt := (delete_stmt N).

(** What the updates for the positions of [pairs] make of the active
    row at position [p]. *)
Local Abbreviation rewritten pairs :=
  (fun (p : nat) (e : Entry) =>
     match pairs !! p with
     | Some (r, d) =>
         if changed columns r d
         then updated_entry now N columns (computeRowHash r columns) r e
         else e
     | None => e
     end).

Lemma truthy_number (x : Z) : x <> 0 -> truthy (VNum x) = true.
Proof. intros H. cbn [truthy]. by rewrite (proj2 (Z.eqb_neq x 0) H). Qed.

Lemma updates_phase (pairs : list (obj * obj)) (t t1 : Table) :
  NoDup (map e_id (active_rows t)) ->
  (forall i r d, pairs !! i = Some (r, d) ->
     exists e, active_rows t !! i = Some e /\
               obj_get d "id" = VNum (e_id e) /\ e_id e <> 0) ->
  run now (omap update_stmt_of (omap (update_at columns) (imap (fun i p => (i, p)) pairs))) t
  = Some t1 ->
  t_next_id t1 = t_next_id t /\
  active_rows t1 = imap (rewritten pairs) (active_rows t).
Proof.
  intros Hnd. revert t1. induction pairs as [|[r d] pairs IH] using rev_ind; intros t1 Hp H.
  - cbn in H. injection H as <-. split; [done|].
    apply list_eq. intros p. rewrite list_lookup_imap.
    by destruct (active_rows t !! p).
  - rewrite imap_app, !omap_app in H. apply run_app_Some in H as (t0 & H0 & H).
    destruct (IH t0) as (Hnext & Hact); [|exact H0|].
    { intros i r' d' Hi. apply (Hp i r' d'). by apply lookup_app_l_Some. }
    destruct (Hp (length pairs) r d) as (e & He & Hid & Hne).
    { by apply list_lookup_middle. }
    assert (Hother : forall p ep, active_rows t !! p = Some ep -> p <> length pairs ->
              e_id ep <> e_id e /\ (pairs ++ [(r, d)]) !! p = pairs !! p).
    { intros p ep Hep Hpk. split.
      - intros Heq. apply Hpk.
        eapply (NoDup_lookup _ _ _ (e_id e) Hnd); rewrite list_lookup_fmap.
        + by rewrite Hep, <- Heq.
        + by rewrite He.
      - destruct (decide (p < length pairs)%nat); [by rewrite lookup_app_l|].
        rewrite !lookup_ge_None_2; [done|lia|]. rewrite length_app. cbn. lia. }
    cbn [imap] in H. rewrite omap_one in H.
    assert (Hu : update_at columns ((length pairs + 0)%nat, (r, d))
                 = if changed columns r d
                   then Some (update_of columns (length pairs + 0) r d) else None)
      by reflexivity.
    rewrite Hu in H. destruct (changed columns r d) eqn:Ec.
    + cbn [omap list_omap] in H. unfold StoreSpec.update_stmt_of in H.
      cbn [upd_dbId update_of] in H. rewrite Hid, (truthy_number _ Hne) in H.
      apply run_cons_Some in H as (t2 & E & H). cbn in H. injection H as <-.
      unfold update_stmt in E. cbn [upd_dbId upd_hash upd_row update_of] in E.
      rewrite Hid in E.
      apply exec_update_active in E as [Hnext2 Hact2]; [|apply computeRowHash_length].
      split; [congruence|]. rewrite Hact2, Hact.
      apply list_eq. intros p. rewrite list_lookup_fmap, !list_lookup_imap.
      destruct (active_rows t !! p) as [ep|] eqn:Hep; [|done].
      cbn [fmap option_fmap option_map]. f_equal.
      destruct (decide (p = length pairs)) as [->|Hpk].
      * rewrite (lookup_ge_None_2 pairs) by lia.
        rewrite He in Hep. injection Hep as <-.
        rewrite bool_decide_eq_true_2 by done.
        rewrite list_lookup_middle by done. by rewrite Ec.
      * destruct (Hother p ep Hep Hpk) as [Hne' ->].
        rewrite bool_decide_eq_false_2; [done|].
        destruct (pairs !! p) as [[r' d']|]; [destruct (changed columns r' d')|]; done.
    + cbn in H. injection H as <-. split; [done|]. rewrite Hact.
      apply imap_ext. intros p ep Hep.
      destruct (decide (p = length pairs)) as [->|Hpk].
      * rewrite (lookup_ge_None_2 pairs) by lia.
        rewrite list_lookup_middle by done. by rewrite Ec.
      * by destruct (Hother p ep Hep Hpk) as [_ ->].
Qed.

Lemma inserts_phase (rows : list obj) (g : nat -> nat) (t t2 : Table) :
  run now (map insert_stmt (imap (fun j row => insert_of columns (g j) row) rows)) t
  = Some t2 ->
  t2 = mkTable (t_columns t)
         (t_rows t ++
            imap (fun j row => new_entry now N columns (t_next_id t + Z.of_nat j)
                                 (computeRowHash row columns) row) rows)
         (t_next_id t + Z.of_nat (length rows)).
Proof.
  revert g t. induction rows as [|row rows IH]; intros g t H.
  - cbn in H. injection H as <-. cbn [imap length]. rewrite app_nil_r, Z.add_0_r.
    by destruct t.
  - rewrite imap_cons in H. cbn [map] in H. apply run_cons_Some in H as (t1 & E & H).
    unfold StoreSpec.insert_stmt in E. cbn [ins_hash ins_row insert_of] in E.
    apply exec_insert_stored in E; [|apply computeRowHash_length]. subst t1.
    change (imap ((fun j row => insert_of columns (g j) row) ∘ S) rows)
      with (imap (fun j row => insert_of columns ((g ∘ S) j) row) rows) in H.
    rewrite (IH _ _ H). cbn [t_columns t_rows t_next_id imap length].
    rewrite <- app_assoc. cbn [app]. rewrite Z.add_0_r. f_equal; [|lia]. do 2 f_equal.
    apply imap_ext. intros j x _. unfold compose. f_equal. lia.
Qed.

Lemma deletes_phase (ds : list obj) (g : nat -> nat) (t t3 : Table) :
  (forall d, d ∈ ds -> exists x, obj_get d "id" = VNum x /\ x <> 0) ->
  run now (map delete_stmt (imap (fun j d => delete_of columns (g j) d) ds)) t = Some t3 ->
  active_rows t3
  = filter (fun e => VNum (e_id e) ∉ map (fun d => obj_get d "id") ds) (active_rows t).
Proof.
  revert g t. induction ds as [|d ds IH]; intros g t Hd H.
  - cbn in H. injection H as <-. cbn [map]. symmetry.
    induction (active_rows t) as [|e l IHl]; [done|].
    rewrite filter_cons, decide_True by apply not_elem_of_nil. by rewrite IHl.
  - destruct (Hd d) as (x & Hx & Hne); [left|].
    rewrite imap_cons in H. cbn [map] in H. apply run_cons_Some in H as (t1 & E & H).
    unfold StoreSpec.delete_stmt in E. cbn [del_dbId delete_of] in E.
    rewrite Hx, (truthy_number _ Hne) in E.
    apply exec_delete_active in E as Hact.
    change (imap ((fun j d => delete_of columns (g j) d) ∘ S) ds)
      with (imap (fun j d => delete_of columns ((g ∘ S) j) d) ds) in H.
    rewrite (IH (g ∘ S) t1); [|intros d' Hd'; apply Hd; by right|exact H].
    rewrite Hact, list_filter_filter.
    apply list_filter_iff. intros e. cbn [map]. rewrite not_elem_of_cons, Hx.
    split; [intros [? ?]|intros [? ?]]; split; try done; congruence.
Qed.

End Phases.

Section Reconcile.
Import Js DiffEngine SnapshotStore StoreSpec StoreShape DiffShape.

Variables (now N : Z) (columns : list string).

Lemma filter_all {A} (P : A -> Prop) `{!forall x, Decision (P x)} (l : list A) :
  Forall P l -> filter P l = l.
Proof.
  induction 1 as [|x l Hx _ IH]; [done|]. by rewrite filter_cons, decide_True, IH.
Qed.

Lemma filter_none {A} (P : A -> Prop) `{!forall x, Decision (P x)} (l : list A) :
  Forall (fun x => ~ P x) l -> filter P l = [].
Proof.
  induction 1 as [|x l Hx _ IH]; [done|]. by rewrite filter_cons, decide_False, IH.
Qed.

(** Taking out the rows whose keys are those of the rows from position
    [n] on leaves the rows before position [n]. *)
Lemma filter_dropped (rows : list Entry) (f : nat -> Entry -> Entry) (n : nat) :
  NoDup (map e_id rows) -> (forall p e, e_id (f p e) = e_id e) ->
  filter (fun e => VNum (e_id e) ∉ map (fun e => VNum (e_id e)) (drop n rows)) (imap f rows)
  = imap f (take n rows).
Proof.
  intros Hnd Hf.
  assert (Hsplit : imap f rows
                   = imap f (take n rows)
                     ++ imap (fun j => f (length (take n rows) + j)%nat) (drop n rows)).
  { by rewrite <- imap_app, take_drop. }
  rewrite Hsplit, filter_app. rewrite <- (take_drop n rows), map_app in Hnd.
  apply NoDup_app in Hnd as (_ & Hdis & _).
  rewrite filter_all, filter_none; [by rewrite app_nil_r| |].
  - rewrite Forall_forall. intros e' Hin Hnot. apply Hnot.
    apply list_elem_of_lookup in Hin as [j Hj].
    rewrite list_lookup_imap in Hj.
    destruct (drop n rows !! j) as [e|] eqn:He; [|done]. injection Hj as <-.
    rewrite Hf. apply list_elem_of_fmap. exists e. split; [done|].
    by eapply list_elem_of_lookup_2.
  - rewrite Forall_forall. intros e' Hin.
    apply list_elem_of_lookup in Hin as [j Hj].
    rewrite list_lookup_imap in Hj.
    destruct (take n rows !! j) as [e|] eqn:He; [|done]. injection Hj as <-.
    rewrite Hf. intros (e2 & [= Heq] & He2)%list_elem_of_fmap.
    apply (Hdis (e_id e)).
    + apply list_elem_of_fmap. exists e. split; [done|]. by eapply list_elem_of_lookup_2.
    + apply list_elem_of_fmap. exists e2. done.
Qed.

Lemma elem_of_drop_1 {A} (x : A) (n : nat) (l : list A) : x ∈ drop n l -> x ∈ l.
Proof. apply subseteq_drop. Qed.

Lemma new_entries_active (key : Z) (rows : list obj) :
  filter (fun e => is_active e = true)
         (imap (fun j row => new_entry now N columns (key + Z.of_nat j)
                               (computeRowHash row columns) row) rows)
  = imap (fun j row => new_entry now N columns (key + Z.of_nat j)
                         (computeRowHash row columns) row) rows.
Proof.
  apply filter_all. rewrite Forall_forall. intros e Hin.
  apply list_elem_of_lookup in Hin as [j Hj]. rewrite list_lookup_imap in Hj.
  destruct (rows !! j); [|done]. by injection Hj as <-.
Qed.

Lemma active_rows_app (cols : list string) (rows1 rows2 : list Entry) (next : Z) :
  active_rows (mkTable cols (rows1 ++ rows2) next)
  = filter (fun e => is_active e = true) rows1 ++ filter (fun e => is_active e = true) rows2.
Proof. unfold active_rows. cbn [t_rows]. apply filter_app. Qed.

Lemma snapshot_row_key dbCols (row : Entry) :
  "id" ∉ columns -> obj_get (snapshot_row dbCols columns row) "id" = VNum (e_id row).
Proof. intros H. by rewrite snapshot_row_other. Qed.

(** The snapshot rows of a table whose keys came from its sequence
    carry those keys, none of which is 0. *)
Lemma snapshot_keys (tbl : Table) :
  well_formed tbl = true -> "id" ∉ columns ->
  getSnapshot tbl columns = map (snapshot_row (dbColumnNames tbl) columns) (active_rows tbl) /\
  forall e, e ∈ active_rows tbl ->
    obj_get (snapshot_row (dbColumnNames tbl) columns e) "id" = VNum (e_id e) /\ e_id e <> 0.
Proof.
  intros Hwf Hid. destruct (active_rows_keys tbl Hwf) as [Hnd Hpos]. split.
  - unfold getSnapshot. by rewrite select_active_well_formed.
  - intros e He. split; [by apply snapshot_row_key|].
    rewrite Forall_forall in Hpos. specialize (Hpos e He). lia.
Qed.

(** Every update item of the diff against such a snapshot has a key. *)
Lemma computeDiff_keyless (tbl : Table) (sheetRows : list obj) :
  well_formed tbl = true -> "id" ∉ columns ->
  keyless (computeDiff sheetRows (getSnapshot tbl columns) columns) = 0.
Proof.
  intros Hwf Hid. destruct (snapshot_keys tbl Hwf Hid) as [Hsnap Hkey].
  unfold keyless. rewrite computeDiff_shape. cbn [updates].
  rewrite filter_none; [done|]. rewrite Forall_forall.
  intros item (p & Hp & Hitem)%list_elem_of_omap.
  apply list_elem_of_lookup in Hp as [i Hi]. rewrite list_lookup_imap in Hi.
  destruct (zip sheetRows (getSnapshot tbl columns) !! i) as [[r d]|] eqn:Hz; [|done].
  injection Hi as <-.
  apply lookup_zip_with_Some in Hz as (r' & d' & [= <- <-] & Hr & Hd).
  rewrite Hsnap, list_lookup_fmap in Hd.
  destruct (active_rows tbl !! i) as [e|] eqn:He; [|done]. injection Hd as <-.
  unfold update_at in Hitem. cbn [fst snd] in Hitem.
  destruct (changed columns r _); [|done]. injection Hitem as <-.
  cbn [upd_dbId update_of].
  destruct (Hkey e) as [-> Hne]; [by eapply list_elem_of_lookup_2|].
  cbn [truthy]. rewrite (proj2 (Z.eqb_neq _ 0) Hne). done.
Qed.

(** The statements of the diff of the sheet rows against the snapshot
    of a table whose keys came from its sequence, when none raises: the
    active rows afterwards are the reconciled rows. *)
Lemma run_reconciles (tbl : Table) (sheetRows : list obj) (tbl' : Table) :
  well_formed tbl = true -> "id" ∉ columns ->
  run now (statements N columns (sanitizedColumnsOf columns)
             (computeDiff sheetRows (getSnapshot tbl columns) columns)) tbl = Some tbl' ->
  active_rows tbl' = reconciled_rows now N columns tbl sheetRows.
Proof.
  intros Hwf Hid.
  destruct (active_rows_keys tbl Hwf) as [Hnd Hpos].
  destruct (snapshot_keys tbl Hwf Hid) as [Hsnap Hkey].
  set (SR := snapshot_row (dbColumnNames tbl) columns) in *.
  rewrite Hsnap, computeDiff_shape. unfold statements. cbn [updates inserts deletes].
  intros (t1 & H1 & H)%run_app_Some. apply run_app_Some in H as (t2 & H2 & H3).
  (* updates *)
  apply updates_phase in H1 as [Hnext1 Hact1]; [|done|].
  2:{ intros i r d (r' & d' & [= <- <-] & Hr & Hd)%lookup_zip_with_Some.
      rewrite list_lookup_fmap in Hd.
      destruct (active_rows tbl !! i) as [e|] eqn:He; [|done]. injection Hd as <-.
      exists e. split; [done|]. apply Hkey. by eapply list_elem_of_lookup_2. }
  (* inserts *)
  apply inserts_phase in H2. subst t2.
  (* deletes *)
  apply deletes_phase in H3.
  2:{ intros d Hd%elem_of_drop_1. apply list_elem_of_fmap in Hd as (e & -> & He).
      exists (e_id e). by apply Hkey. }
  rewrite H3, active_rows_app, Hnext1, new_entries_active.
  change (filter (fun e => is_active e = true) (t_rows t1)) with (active_rows t1).
  rewrite Hact1. unfold reconciled_rows. rewrite length_map.
  assert (Hids : map (fun d => obj_get d "id") (drop (length sheetRows) (map SR (active_rows tbl)))
                 = map (fun e => VNum (e_id e)) (drop (length sheetRows) (active_rows tbl))).
  { rewrite <- fmap_drop. rewrite <- list_fmap_compose. apply list_fmap_ext.
    intros i e He. apply Hkey. apply list_elem_of_lookup_2 in He.
    by apply elem_of_drop_1 in He. }
  rewrite Hids, filter_app. f_equal.
  - rewrite filter_dropped; [|done|].
    + apply list_eq. intros p.
      rewrite list_lookup_imap, lookup_take, (lookup_zip_with (kept_row now N columns tbl)).
      destruct (decide (p < length sheetRows)%nat) as [Hlt|Hge].
      * destruct (lookup_lt_is_Some_2 sheetRows p Hlt) as [r Hr]. rewrite Hr.
        cbn [mbind option_bind].
        destruct (active_rows tbl !! p) as [e|] eqn:He; [|done].
        cbn [fmap option_fmap option_map mbind option_bind]. f_equal.
        assert (Hz : zip sheetRows (map SR (active_rows tbl)) !! p = Some (r, SR e)).
        { apply lookup_zip_with_Some. exists r, (SR e). split; [done|]. split; [done|].
          by rewrite list_lookup_fmap, He. }
        rewrite Hz. reflexivity.
      * rewrite (lookup_ge_None_2 sheetRows) by lia. reflexivity.
    + intros p e. destruct (zip _ _ !! p) as [[r d]|]; [destruct (changed columns r d)|]; done.
  - destruct (decide (length (active_rows tbl) <= length sheetRows)%nat) as [Hle|Hgt].
    + rewrite (drop_ge (active_rows tbl)) by lia. apply filter_all.
      rewrite Forall_forall. intros e _. apply not_elem_of_nil.
    + by rewrite (drop_ge sheetRows) by lia.
Qed.

End Reconcile.

Section Converged.
Import Js DiffEngine Schema SnapshotStore StoreSpec StoreShape DiffShape.

Lemma sanitized_listed (columns : list string) (c : string) :
  c ∈ columns -> sanitizeColumnName c ∈ sanitizedColumnsOf columns.
Proof.
  intros Hc.
  assert (Hdom : forall x : string,
             x ∈ (([], ∅) : list string * gset string).1 <-> x ∈ (([], ∅) : list string * gset string).2).
  { intros x. cbn. rewrite elem_of_nil, elem_of_empty. tauto. }
  destruct (columns_fold columns ([], ∅) Hdom (NoDup_nil_2 (A := string)))
    as (added & H1 & _ & _ & H4 & _).
  unfold sanitizedColumnsOf. rewrite H1. by apply H4.
Qed.

(** Past the schema check no column is called like a system column. *)
Lemma schema_check_columns (tbl : Table) (columns : list string) :
  (0 <? length (missingColumns tbl (sanitizedColumnsOf columns)))%nat = false ->
  ("id" ∉ columns) /\ ("row_hash" ∉ columns).
Proof.
  intros H. apply Nat.ltb_ge in H.
  assert (Hall : forall c, c ∈ columns -> sanitizeColumnName c ∉ systemColumns).
  { intros c Hc Hsys. apply (sanitized_listed columns) in Hc.
    assert (Hm : sanitizeColumnName c ∈ missingColumns tbl (sanitizedColumnsOf columns)).
    { apply list_elem_of_filter. split; [|done]. rewrite dbColumnNames_elem. tauto. }
    destruct (missingColumns _ _); [by apply elem_of_nil in Hm|cbn in H; lia]. }
  split; intros Hin; apply (Hall _ Hin); vm_compute; repeat constructor.
Qed.

Lemma computeRowHash_truthy (row : obj) (columns : list string) (v : jsval) :
  js_or (VStr (computeRowHash row columns)) v = VStr (computeRowHash row columns).
Proof.
  unfold js_or, computeRowHash. cbn [truthy].
  destruct (sha256_form (normalizedString row columns)) as [H _].
  by destruct (Sha256.sha256 _).
Qed.

Lemma length_reconciled_rows now N columns tbl (sheetRows : list obj) :
  length (reconciled_rows now N columns tbl sheetRows) = length sheetRows.
Proof.
  unfold reconciled_rows. rewrite length_app, length_zip_with, length_imap, length_drop. lia.
Qed.

(** The snapshot row of a reconciled row carries the hash of the sheet
    row at its position. *)
Lemma reconciled_rows_hash now N columns tbl (sheetRows : list obj) i row e :
  "row_hash" ∉ columns ->
  sheetRows !! i = Some row ->
  reconciled_rows now N columns tbl sheetRows !! i = Some e ->
  db_hash columns (snapshot_row (dbColumnNames tbl) columns e)
  = VStr (computeRowHash row columns).
Proof.
  intros Hrh Hrow. unfold reconciled_rows.
  assert (Hnew : forall h e', e_row_hash e' = h ->
            db_hash columns (snapshot_row (dbColumnNames tbl) columns e')
            = js_or (VStr h) (VStr (computeRowHash (snapshot_row (dbColumnNames tbl) columns e')
                                                   columns))).
  { intros h e' <-. unfold db_hash. by rewrite snapshot_row_other. }
  destruct (decide (i < length (active_rows tbl))%nat) as [Hlt|Hge].
  - rewrite lookup_app_l by (rewrite length_zip_with; apply lookup_lt_Some in Hrow; lia).
    rewrite lookup_zip_with, Hrow. cbn [mbind option_bind].
    destruct (active_rows tbl !! i) as [a|]; [|done]. cbn [mbind option_bind].
    intros [= <-]. unfold kept_row.
    destruct (changed columns row _) eqn:Ec.
    + rewrite (Hnew (computeRowHash row columns)) by done. apply computeRowHash_truthy.
    + unfold changed in Ec. apply strict_neq_false in Ec. by rewrite <- Ec.
  - assert (Hlen : length (zip_with (kept_row now N columns tbl) sheetRows (active_rows tbl))
                   = length (active_rows tbl)).
    { rewrite length_zip_with. apply lookup_lt_Some in Hrow. lia. }
    rewrite lookup_app_r by lia. rewrite Hlen, list_lookup_imap, lookup_drop.
    replace (length (active_rows tbl) + (i - length (active_rows tbl)))%nat with i by lia.
    rewrite Hrow. cbn [fmap option_fmap option_map]. intros [= <-].
    rewrite (Hnew (computeRowHash row columns)) by done. apply computeRowHash_truthy.
Qed.

(** A table whose active rows are the reconciled rows gives the empty
    diff against the sheet rows. *)
Lemma reconciled_converged now N columns tbl tbl' (sheetRows : list obj) :
  well_formed tbl' = true -> t_columns tbl' = t_columns tbl ->
  "row_hash" ∉ columns ->
  active_rows tbl' = reconciled_rows now N columns tbl sheetRows ->
  computeDiff sheetRows (getSnapshot tbl' columns) columns
  = mkDiff [] [] [] (Z.of_nat (length sheetRows)).
Proof.
  intros Hwf Hcols Hrh Hact.
  assert (Hdb : dbColumnNames tbl' = dbColumnNames tbl).
  { unfold dbColumnNames. by rewrite Hcols. }
  unfold getSnapshot. rewrite select_active_well_formed, Hact, Hdb by done.
  apply computeDiff_same.
  - by rewrite length_map, length_reconciled_rows.
  - intros i row dbRow Hrow Hd. rewrite list_lookup_fmap in Hd.
    destruct (reconciled_rows now N columns tbl sheetRows !! i) as [e|] eqn:He; [|done].
    injection Hd as <-. by eapply reconciled_rows_hash.
Qed.

Lemma updates_count columns (l : list (obj * obj)) (offset : nat) :
  length (omap (update_at columns) (imap (fun i p => (offset + i, p)%nat) l))
  = length (filter (fun p => changed columns p.1 p.2 = true) l).
Proof.
  revert offset. induction l as [|[row dbRow] l IH]; intros offset; [reflexivity|].
  cbn [imap omap list_omap]. rewrite filter_cons.
  unfold update_at at 1. cbn [fst snd].
  specialize (IH (S offset)).
  rewrite (imap_ext _ (fun i p => (S offset + i, p)%nat)) by (intros; unfold compose; f_equal; lia).
  destruct (changed columns row dbRow) eqn:Ec.
  - rewrite decide_True by done. cbn [length]. by rewrite IH.
  - rewrite decide_False by done. exact IH.
Qed.

(** The snapshot reads the columns and the rows of the table only. *)
Lemma getSnapshot_rows (tbl tbl' : Table) (columns : list string) :
  t_columns tbl' = t_columns tbl -> t_rows tbl' = t_rows tbl ->
  getSnapshot tbl' columns = getSnapshot tbl columns.
Proof.
  intros Hc Hr. unfold getSnapshot, select_active, dbColumnNames. by rewrite Hc, Hr.
Qed.

(** X19: one pass of [applyDiff] over the diff of the sheet rows against the
    snapshot of a table whose keys came from its sequence.  When the pass
    reports no skipped item, the counts are those of the diff and the
    active rows afterwards are, position by position, the active rows
    before, updated where the hashes differed, cut to the length of the
    sheet, and followed by one new row per sheet row past the end of the
    snapshot.  When it reports a skipped item, a statement raised, the
    transaction was rolled back and the rows are those before the pass. *)
Theorem applyDiff_reconciles (tbl : Table) (now : Z) (columns : list string)
        (sheetRows : list obj) (N : Z) (counts : Counts) (tbl' : Table) :
  well_formed tbl = true ->
  applyDiff tbl now columns (computeDiff sheetRows (getSnapshot tbl columns) columns) N
  = (inr counts, tbl') ->
  well_formed tbl' = true /\
  (skipped counts = 0 ->
   counts
   = mkCounts
       (Z.of_nat (length sheetRows - length (active_rows tbl)))
       (Z.of_nat (length (filter (fun p => changed columns p.1 p.2 = true)
                                 (zip sheetRows (getSnapshot tbl columns)))))
       (Z.of_nat (length (active_rows tbl) - length sheetRows))
       0 /\
   active_rows tbl' = reconciled_rows now N columns tbl sheetRows) /\
  (skipped counts <> 0 -> t_rows tbl' = t_rows tbl).
Proof.
  intros Hwf H. pose proof (applyDiff_well_formed _ _ _ _ _ _ _ H Hwf) as Hwf'.
  split; [done|].
  assert (Hm : (0 <? length (missingColumns tbl (sanitizedColumnsOf columns)))%nat = false).
  { unfold applyDiff in H. by destruct (0 <? length _)%nat. }
  destruct (schema_check_columns tbl columns Hm) as [Hid Hrh].
  pose proof (computeDiff_keyless columns tbl sheetRows Hwf Hid) as Hk.
  split.
  - intros Hs.
    assert (Hclean : clean (computeDiff sheetRows (getSnapshot tbl columns) columns) counts).
    { unfold clean. by rewrite Hk. }
    pose proof (applyDiff_clean_run _ _ _ _ _ _ _ H Hclean) as Hrun.
    destruct (applyDiff_account _ _ _ _ _ _ _ H) as (_ & _ & _ & _ & _ & _ & Hc & _).
    destruct (Hc Hclean) as (Hi & Hu & Hd & _). split.
    + assert (Hlen : length (getSnapshot tbl columns) = length (active_rows tbl)).
      { unfold getSnapshot. by rewrite select_active_well_formed, length_map. }
      rewrite Hk in Hu. revert Hi Hu Hd.
      rewrite computeDiff_shape. cbn [inserts updates deletes].
      rewrite !length_imap, !length_drop, Hlen.
      rewrite (updates_count columns _ 0). intros Hi Hu Hd.
      apply counts_eq; cbn [inserted updated deleted skipped]; lia.
    + by apply (run_reconciles now N columns tbl sheetRows tbl').
  - intros Hs. apply (applyDiff_rolled_back _ _ _ _ _ _ _ H).
    unfold clean. rewrite Hk. done.
Qed.

(** The table after a pass over the diff against its own snapshot. *)
Lemma pass_converged (tbl : Table) (now : Z) (columns : list string)
        (sheetRows : list obj) (N : Z) (counts : Counts) (tbl' : Table) :
  well_formed tbl = true ->
  applyDiff tbl now columns (computeDiff sheetRows (getSnapshot tbl columns) columns) N
  = (inr counts, tbl') ->
  (skipped counts = 0 ->
   computeDiff sheetRows (getSnapshot tbl' columns) columns
   = mkDiff [] [] [] (Z.of_nat (length sheetRows))) /\
  (skipped counts <> 0 -> getSnapshot tbl' columns = getSnapshot tbl columns).
Proof.
  intros Hwf H. pose proof (applyDiff_well_formed _ _ _ _ _ _ _ H Hwf) as Hwf'.
  assert (Hm : (0 <? length (missingColumns tbl (sanitizedColumnsOf columns)))%nat = false).
  { unfold applyDiff in H. by destruct (0 <? length _)%nat. }
  destruct (schema_check_columns tbl columns Hm) as [Hid Hrh].
  pose proof (computeDiff_keyless columns tbl sheetRows Hwf Hid) as Hk.
  destruct (applyDiff_account _ _ _ _ _ _ _ H) as (_ & _ & _ & _ & _ & Hcols & _ & _).
  split; intros Hs.
  - assert (Hclean : clean (computeDiff sheetRows (getSnapshot tbl columns) columns) counts).
    { unfold clean. by rewrite Hk. }
    pose proof (applyDiff_clean_run _ _ _ _ _ _ _ H Hclean) as Hrun.
    apply (reconciled_converged now N columns tbl tbl'); try done.
    by apply (run_reconciles now N columns tbl sheetRows tbl').
  - apply getSnapshot_rows; [done|].
    apply (applyDiff_rolled_back _ _ _ _ _ _ _ H). unfold clean. by rewrite Hk.
Qed.

(** X20: a pass converges: after [applyDiff] has applied the diff of the
    sheet rows against the snapshot of a table whose keys came from its
    sequence and reported no skipped item, the table agrees with the
    sheet, that is, the diff of the same sheet rows against the new
    snapshot is empty, every row unchanged.  After a pass that reports a
    skipped item the snapshot is the one before the pass. *)
Theorem applyDiff_converges (tbl : Table) (now : Z) (columns : list string)
        (sheetRows : list obj) (N : Z) (counts : Counts) (tbl' : Table) :
  well_formed tbl = true ->
  applyDiff tbl now columns (computeDiff sheetRows (getSnapshot tbl columns) columns) N
  = (inr counts, tbl') ->
  (skipped counts = 0 ->
   computeDiff sheetRows (getSnapshot tbl' columns) columns
   = mkDiff [] [] [] (Z.of_nat (length sheetRows))) /\
  (skipped counts <> 0 -> getSnapshot tbl' columns = getSnapshot tbl columns).
Proof. exact (pass_converged tbl now columns sheetRows N counts tbl'). Qed.

(** The table after seeding a table without active rows. *)
Lemma seeding_converged (tbl : Table) (now : Z) (columns : list string)
        (sheetRows : list obj) (ins skip : Z) (tbl' : Table) :
  well_formed tbl = true -> active_rows tbl = [] ->
  storeSnapshot tbl now columns sheetRows computeRowHash = (inr (ins, skip), tbl') ->
  getSnapshot tbl columns = [] /\
  (skip = 0 ->
   ins = Z.of_nat (length sheetRows) /\
   length (getSnapshot tbl' columns) = length sheetRows /\
   computeDiff sheetRows (getSnapshot tbl' columns) columns
   = mkDiff [] [] [] (Z.of_nat (length sheetRows))) /\
  (skip <> 0 -> getSnapshot tbl' columns = []).
Proof.
  intros Hwf Hnone H. pose proof (storeSnapshot_well_formed _ _ _ _ _ _ _ H Hwf) as Hwf'.
  pose proof (storeSnapshot_account tbl now columns sheetRows) as Ha. rewrite H in Ha.
  destruct Ha as (Hmiss & Hi & Hsk & Hsum & Hok & Hbad).
  assert (Hm : (0 <? length (missingColumns tbl (sanitizedColumnsOf columns)))%nat = false).
  { by rewrite Hmiss. }
  destruct (schema_check_columns tbl columns Hm) as [Hid Hrh].
  assert (Hempty : getSnapshot tbl columns = []).
  { unfold getSnapshot. by rewrite select_active_well_formed, Hnone. }
  split; [done|]. split; intros Hs.
  - specialize (Hok Hs).
    assert (Hact : active_rows tbl' = reconciled_rows now 1 columns tbl sheetRows).
    { rewrite Hok. rewrite active_rows_app, new_entries_active. unfold reconciled_rows.
      fold (active_rows tbl). rewrite Hnone. by rewrite zip_with_nil_r. }
    split; [lia|]. split.
    + unfold getSnapshot. rewrite select_active_well_formed, length_map, Hact by done.
      apply length_reconciled_rows.
    + apply (reconciled_converged now 1 columns tbl); [done| |done|done].
      by rewrite Hok.
  - destruct (Hbad Hs) as (Hc & Hr & _).
    by rewrite (getSnapshot_rows tbl tbl').
Qed.

(** X21: seeding converges: after [storeSnapshot] has stored the
    sheet rows in a table without active rows and reported no skipped
    row, every row was inserted and the diff of the same sheet rows
    against the snapshot is empty.  After a call that reports a skipped
    row the snapshot is still empty. *)
Theorem storeSnapshot_converges (tbl : Table) (now : Z) (columns : list string)
        (sheetRows : list obj) (ins skip : Z) (tbl' : Table) :
  well_formed tbl = true -> active_rows tbl = [] ->
  storeSnapshot tbl now columns sheetRows computeRowHash = (inr (ins, skip), tbl') ->
  getSnapshot tbl columns = [] /\
  (skip = 0 ->
   ins = Z.of_nat (length sheetRows) /\
   length (getSnapshot tbl' columns) = length sheetRows /\
   computeDiff sheetRows (getSnapshot tbl' columns) columns
   = mkDiff [] [] [] (Z.of_nat (length sheetRows))) /\
  (skip <> 0 -> getSnapshot tbl' columns = []).
Proof. exact (seeding_converged tbl now columns sheetRows ins skip tbl'). Qed.

End Converged.

(* --------------------------------------------------------------------- *)
(** ** The sync routes: one sync under the lock *)
(* --------------------------------------------------------------------- *)

Section RouteProps.
Import Js DiffEngine SnapshotStore SyncLock SyncRoute StoreSpec StoreShape.

Lemma fold_max_start (rs : list Z) (r : Z) : r <= fold_left Z.max rs r.
Proof.
  revert r. induction rs as [|y rs IH]; intros r; cbn [fold_left]; [lia|].
  specialize (IH (Z.max r y)). lia.
Qed.

Lemma fold_max_le (rs : list Z) (r x : Z) :
  x = r \/ x ∈ rs -> x <= fold_left Z.max rs r.
Proof.
  revert r. induction rs as [|y rs IH]; intros r; cbn [fold_left].
  - intros [-> | H]; [lia|by apply elem_of_nil in H].
  - pose proof (fold_max_start rs (Z.max r y)) as Hs.
    intros [Hx | [Hx | H]%elem_of_cons]; [lia|lia|].
    apply IH. by right.
Qed.

Lemma max_revision_bound (tbl : Table) (e : Entry) :
  e ∈ t_rows tbl -> e_revision e <= max_revision tbl.
Proof.
  intros He. unfold max_revision.
  assert (Hin : e_revision e ∈ map e_revision (t_rows tbl)).
  { apply list_elem_of_fmap. eauto. }
  destruct (map e_revision (t_rows tbl)) as [|r rs]; [by apply elem_of_nil in Hin|].
  apply fold_max_le. by apply elem_of_cons in Hin.
Qed.

Lemma nextRevision_above (tbl : Table) (e : Entry) :
  e ∈ t_rows tbl -> e_revision e < nextRevision tbl.
Proof.
  intros He%max_revision_bound. unfold nextRevision, js_or. cbn [truthy].
  destruct (max_revision tbl =? 0) eqn:E; cbn [negb]; [apply Z.eqb_eq in E|]; lia.
Qed.

(** X22: a sync of a table with well-formed keys against its own snapshot,
    first or later: when the function returns, the four counts add up to
    the size of the diff and the keys are still well formed.  When it
    reports no skipped item, the table agrees with the sheet, so that
    the diff of the same sheet rows against the new snapshot is empty.
    When it reports a skipped item, the transaction was rolled back and
    the snapshot is the one before the sync. *)
Theorem syncFunction_converges (tbl : Table) (now : Z) (sheetData : list obj)
        (columns : list string) (counts : Counts) (tbl' : Table) :
  well_formed tbl = true ->
  syncFunction tbl now sheetData (getSnapshot tbl columns) columns = (inr counts, tbl') ->
  inserted counts + updated counts + deleted counts + skipped counts
  = Z.of_nat (length (inserts (computeDiff sheetData (getSnapshot tbl columns) columns))
              + length (updates (computeDiff sheetData (getSnapshot tbl columns) columns))
              + length (deletes (computeDiff sheetData (getSnapshot tbl columns) columns))) /\
  well_formed tbl' = true /\
  (skipped counts = 0 ->
   computeDiff sheetData (getSnapshot tbl' columns) columns
   = mkDiff [] [] [] (Z.of_nat (length sheetData))) /\
  (skipped counts <> 0 -> getSnapshot tbl' columns = getSnapshot tbl columns).
Proof.
  intros Hwf. unfold syncFunction.
  destruct (length (getSnapshot tbl columns) =? 0)%nat eqn:Hlen.
  - apply Nat.eqb_eq in Hlen.
    assert (Hnone : active_rows tbl = []).
    { unfold getSnapshot in Hlen. rewrite select_active_well_formed, length_map in Hlen by done.
      by destruct (active_rows tbl). }
    assert (Hsnap : getSnapshot tbl columns = []) by (by destruct (getSnapshot tbl columns)).
    destruct (storeSnapshot tbl now columns sheetData computeRowHash) as [[err|[ins skip]] t] eqn:E;
      [done|]. intros [= <- <-].
    pose proof (storeSnapshot_well_formed _ _ _ _ _ _ _ E Hwf) as Hwf'.
    pose proof (storeSnapshot_account tbl now columns sheetData) as Ha. rewrite E in Ha.
    destruct Ha as (_ & _ & _ & Hsum & _).
    destruct (seeding_converged _ _ _ _ _ _ _ Hwf Hnone E) as (_ & Hok & Hbad).
    cbn [inserted updated deleted skipped]. split; [|split; [done|split]].
    + rewrite Hsnap, computeDiff_shape. cbn [inserts updates deletes length drop imap].
      rewrite zip_with_nil_r. cbn [imap omap list_omap length].
      rewrite !length_imap, drop_nil, drop_0. cbn [length]. lia.
    + intros Hs. by apply Hok.
    + intros Hs. rewrite Hsnap. by apply Hbad.
  - intros H. pose proof (applyDiff_well_formed _ _ _ _ _ _ _ H Hwf) as Hwf'.
    destruct (applyDiff_account _ _ _ _ _ _ _ H) as (_ & _ & _ & _ & Hsum & _).
    destruct (pass_converged _ _ _ _ _ _ _ Hwf H) as [Hok Hbad].
    done.
Qed.

(** X23: a later sync (the snapshot is not empty) runs [applyDiff] with a
    revision above every stored one, so that afterwards the rows that
    carry this revision are exactly the rows the sync changed or added:
    a stored row is as it was, or carries the new revision, and not both. *)
Theorem syncFunction_revision (tbl : Table) (now : Z) (sheetData dbSnapshot : list obj)
        (columns : list string) (res : result Counts) (tbl' : Table) :
  dbSnapshot <> [] ->
  syncFunction tbl now sheetData dbSnapshot columns = (res, tbl') ->
  (forall e, e ∈ t_rows tbl -> e_revision e < nextRevision tbl) /\
  (forall i e', t_rows tbl' !! i = Some e' ->
     (e_revision e' = nextRevision tbl <-> t_rows tbl !! i <> Some e')).
Proof.
  intros Hne. unfold syncFunction.
  destruct dbSnapshot as [|d ds]; [done|]. cbn [length Nat.eqb].
  intros H%applyDiff_evolves. destruct H as [_ Hold Hnew].
  split; [apply nextRevision_above|].
  intros i e' He'. destruct (t_rows tbl !! i) as [e|] eqn:He.
  - destruct (Hold i e He) as (e'' & He'' & Hstep).
    rewrite He' in He''. injection He'' as <-.
    pose proof (nextRevision_above tbl e (list_elem_of_lookup_2 _ _ _ He)) as Hlt.
    destruct Hstep as [-> | (_ & _ & Hrev)].
    + split; [lia|]. intros Hx. by destruct Hx.
    + split; [|done]. intros _ [= ->]. lia.
  - split; [done|]. intros _. apply (Hnew i e' He'). by apply lookup_ge_None.
Qed.

(** X24: with an empty snapshot the function does not look at the table.
    When it reports no skipped row, it has stored every sheet row as a
    new active row with revision 1, after whatever the table holds: run
    on a table that got its rows after the snapshot was read, it stores
    the sheet rows a second time.  When it reports a skipped row, an
    INSERT raised, the transaction was rolled back and the rows are
    those before the call. *)
Theorem syncFunction_empty_snapshot (tbl : Table) (now : Z) (sheetData : list obj)
        (columns : list string) (counts : Counts) (tbl' : Table) :
  syncFunction tbl now sheetData [] columns = (inr counts, tbl') ->
  0 <= inserted counts /\ updated counts = 0 /\ deleted counts = 0 /\ 0 <= skipped counts /\
  inserted counts + skipped counts = Z.of_nat (length sheetData) /\
  (skipped counts = 0 ->
   t_rows tbl' = t_rows tbl ++
                 imap (fun j row => new_entry now 1 columns (t_next_id tbl + Z.of_nat j)
                                      (computeRowHash row columns) row) sheetData /\
   length (active_rows tbl') = (length (active_rows tbl) + length sheetData)%nat) /\
  (skipped counts <> 0 -> t_rows tbl' = t_rows tbl).
Proof.
  unfold syncFunction. cbn [length Nat.eqb].
  pose proof (storeSnapshot_account tbl now columns sheetData) as Ha.
  destruct (storeSnapshot tbl now columns sheetData computeRowHash) as [[err|[ins skip]] t];
    [done|]. intros [= <- <-]. cbn [inserted updated deleted skipped].
  destruct Ha as (_ & Hi & Hs & Hsum & Hok & Hbad).
  repeat (split; [done|]). split.
  - intros H0. rewrite (Hok H0). cbn [t_rows]. split; [done|].
    rewrite active_rows_app, new_entries_active, length_app, length_imap. done.
  - intros H0. by destruct (Hbad H0) as (_ & ? & _).
Qed.

Lemma syncFunction_throws (tbl : Table) (now : Z) (sheetData dbSnapshot : list obj)
      (columns : list string) (error : string) (tbl' : Table) :
  syncFunction tbl now sheetData dbSnapshot columns = (inl error, tbl') -> tbl' = tbl.
Proof.
  unfold syncFunction. destruct (length dbSnapshot =? 0)%nat.
  - destruct (storeSnapshot _ _ _ _ _) as [[err|[ins skip]] t] eqn:E; [|done].
    intros [= _ <-]. by eapply storeSnapshot_throws.
  - by apply applyDiff_throws.
Qed.

(** X25: the whole step under the lock.  When the sheet is locked, the sync
    throws the contention error and the table is untouched.  When the
    sheet is free and the function returns, the result and the table are
    the function's and the lock map is as before.  When the sheet is free
    and the function throws, the error is passed on and the table is
    untouched. *)
Theorem syncSheet_locked (others : State -> State) (st : State) (sheetId : string)
        (tbl : Table) (now : Z) (sheetData : list obj) (columns : list string) :
  (is_Some (syncLocks st !! sheetId) ->
   (syncSheet others st sheetId tbl now sheetData columns).1.1
   = Thrown (contentionError sheetId) /\
   (syncSheet others st sheetId tbl now sheetData columns).2 = tbl) /\
  (syncLocks st !! sheetId = None ->
   forall counts tbl',
     syncFunction tbl now sheetData (getSnapshot tbl columns) columns = (inr counts, tbl') ->
     (syncSheet others st sheetId tbl now sheetData columns).1.1 = Returned counts /\
     (syncSheet others st sheetId tbl now sheetData columns).2 = tbl' /\
     syncLocks (syncSheet others st sheetId tbl now sheetData columns).1.2 = syncLocks st) /\
  (syncLocks st !! sheetId = None ->
   forall error tbl',
     syncFunction tbl now sheetData (getSnapshot tbl columns) columns = (inl error, tbl') ->
     tbl' = tbl /\
     (syncSheet others st sheetId tbl now sheetData columns).1.1 = Thrown error /\
     (syncSheet others st sheetId tbl now sheetData columns).2 = tbl).
Proof.
  split; [|split].
  - intros Hheld. unfold syncSheet, withSyncLock.
    rewrite (acquireSyncLock_held st sheetId Hheld), contentionError_includes. done.
  - intros Hfree counts tbl' Hrun. unfold syncSheet, withSyncLock.
    rewrite (acquireSyncLock_free st sheetId Hfree), Hrun. cbn [fst snd].
    split; [done|]. split; [done|]. cbn [release syncLocks rh_sheetId].
    rewrite delete_insert_eq. by apply delete_id.
  - intros Hfree error tbl' Hrun. split; [by eapply syncFunction_throws|].
    unfold syncSheet, withSyncLock.
    rewrite (acquireSyncLock_free st sheetId Hfree), Hrun. done.
Qed.

End RouteProps.

(* --------------------------------------------------------------------- *)
(** ** Row operations: positions and manual inserts *)
(* --------------------------------------------------------------------- *)

Section OperationProps.
Import Js DiffEngine Schema SnapshotStore Operations StoreSpec StoreShape.

(** The loop over the columns decides every property it sets; the
    others keep the value of the object the loop starts from. *)
Lemma row_loop_agree (dbCols columns : list string) (row : Entry) (o1 o2 : obj) (k : string) :
  (k ∈ columns /\ k <> "__proto__") \/ obj_get o1 k = obj_get o2 k ->
  let step := fun (rowObj : obj) originalCol =>
       let sanitizedCol := sanitizeColumnName originalCol in
       match List.find (fun dbCol => String.eqb dbCol sanitizedCol) dbCols with
       | Some dbCol =>
           if truthy (VStr dbCol)
           then obj_set rowObj originalCol (cell_or_empty row dbCol)
           else obj_set rowObj originalCol (VStr "")
       | None => obj_set rowObj originalCol (VStr "")
       end in
  obj_get (fold_left step columns o1) k = obj_get (fold_left step columns o2) k.
Proof.
  cbv zeta. revert o1 o2. induction columns as [|c columns IH]; intros o1 o2 H; cbn [fold_left].
  - destruct H as [[H _]|H]; [by apply elem_of_nil in H|done].
  - apply IH. destruct (decide (c = k)) as [->|Hne].
    + destruct (decide (k = "__proto__")) as [->|Hp].
      * right. destruct H as [[_ H]|H]; [done|].
        destruct (find _ dbCols) as [dbCol|]; [destruct (truthy (VStr dbCol))|];
          by rewrite !obj_set_proto.
      * right. destruct (find _ dbCols) as [dbCol|]; [destruct (truthy (VStr dbCol))|];
          rewrite !obj_get_set; by rewrite !decide_True.
    + destruct H as [[[-> | H]%elem_of_cons Hp] | H]; [done|by left|right].
      destruct (find _ dbCols) as [dbCol|]; [destruct (truthy (VStr dbCol))|];
        by rewrite !obj_get_set_other.
Qed.

(** X26: [fetchTableData] throws when the table has no data column, where
    [getSnapshot] returns; otherwise it returns the rows of the snapshot
    without the snapshot's bookkeeping: as many rows, in the same order,
    with the same [id] and the same cell for every column. *)
Theorem fetchTableData_getSnapshot (tbl : Table) (columns : list string) :
  (dbColumnNames tbl = [] -> fetchTableData tbl columns = inl queryError) /\
  (dbColumnNames tbl <> [] ->
   exists rows,
     fetchTableData tbl columns = inr rows /\
     length rows = length (getSnapshot tbl columns) /\
     forall i r s k,
       rows !! i = Some r ->
       getSnapshot tbl columns !! i = Some s ->
       k ∈ columns \/ k = "id" ->
       obj_get r k = obj_get s k).
Proof.
  unfold fetchTableData, getSnapshot. split; [by intros ->|].
  intros Hne. destruct (dbColumnNames tbl) as [|c cs] eqn:E; [done|].
  eexists. split; [reflexivity|]. split; [by rewrite !length_map|].
  intros i r s k Hr Hs Hk. rewrite list_lookup_fmap in Hr, Hs.
  destruct (select_active tbl !! i) as [e|]; [|done].
  injection Hr as <-. injection Hs as <-.
  apply row_loop_agree. destruct Hk as [Hk | ->]; [|by right].
  destruct (decide (k = "__proto__")) as [->|Hp]; [by right|by left].
Qed.

Lemma fetch_row_key dbCols columns (row : Entry) :
  "id" ∉ columns -> obj_get (fetch_row dbCols columns row) "id" = VNum (e_id row).
Proof.
  intros H. rewrite <- (snapshot_row_key columns dbCols row H).
  apply row_loop_agree. by right.
Qed.

Lemma filter_below (l : list Entry) (i : nat) (e : Entry) :
  StronglySorted Z.lt (map e_id l) -> l !! i = Some e ->
  filter (fun e' => e_id e' < e_id e) l = take i l.
Proof.
  revert i. induction l as [|x l IH]; intros i Hs Hi; [done|].
  cbn [map] in Hs. apply StronglySorted_inv in Hs as [Hs Hx].
  destruct i as [|i]; cbn in Hi.
  - injection Hi as ->. rewrite filter_cons, decide_False by lia. cbn [take].
    apply filter_none. rewrite Forall_forall in Hx. rewrite Forall_forall.
    intros y Hy. specialize (Hx (e_id y)).
    assert (e_id e < e_id y); [|lia]. apply Hx, list_elem_of_fmap. eauto.
  - rewrite Forall_forall in Hx.
    assert (e_id x < e_id e).
    { apply Hx, list_elem_of_fmap. exists e. split; [done|]. by eapply list_elem_of_lookup_2. }
    rewrite filter_cons, decide_True by done. cbn [take]. f_equal. by apply IH.
Qed.

Lemma position_of_active (tbl : Table) (i : nat) (e : Entry) :
  well_formed tbl = true -> select_active tbl !! i = Some e ->
  getRowPosition tbl (e_id e) = Some (Z.of_nat i).
Proof.
  intros Hwf Hi. rewrite select_active_well_formed in Hi by done.
  unfold getRowPosition, position_query. do 2 f_equal.
  destruct (ascending_bounds _ _ _ Hwf) as (_ & _ & Hs).
  assert (Hf : filter (fun e' => e_id e' < e_id e /\ is_active e' = true) (t_rows tbl)
               = filter (fun e' => e_id e' < e_id e) (active_rows tbl)).
  { unfold active_rows. rewrite list_filter_filter. done. }
  rewrite Hf, (filter_below _ i e); [| |done].
  - rewrite length_take. apply lookup_lt_Some in Hi. lia.
  - by apply sorted_keys_filter.
Qed.

(** X27: [getRowPosition] of the key of a fetched row is the index of that
    row in the result of [fetchTableData] (and of [getSnapshot]); it is
    never null, whatever the key. *)
Theorem getRowPosition_index (tbl : Table) (columns : list string) (rows : list obj)
        (i : nat) (r : obj) :
  well_formed tbl = true -> "id" ∉ columns ->
  fetchTableData tbl columns = inr rows -> rows !! i = Some r ->
  (exists x, obj_get r "id" = VNum x /\ getRowPosition tbl x = Some (Z.of_nat i)) /\
  (forall x, getRowPosition tbl x <> None).
Proof.
  intros Hwf Hid Hrows Hr. split; [|done].
  unfold fetchTableData in Hrows. destruct (dbColumnNames tbl) as [|c cs]; [done|].
  injection Hrows as <-. rewrite list_lookup_fmap in Hr.
  destruct (select_active tbl !! i) as [e|] eqn:He; [|done]. injection Hr as <-.
  exists (e_id e). split; [by apply fetch_row_key|by apply position_of_active].
Qed.

(** X28: a manual insert and the lookups after it: [insertRow] returns the
    next key of the sequence; the snapshot afterwards is the snapshot
    before followed by one row that carries this key, the hash of the
    inserted data, revision 1 and the source ["manual"]; the position of
    the key is the length of the snapshot before. *)
Theorem insertRow_roundtrip (tbl : Table) (now : Z) (columns : list string)
        (rowData : obj) (id : Z) (tbl' : Table) :
  well_formed tbl = true ->
  insertRow tbl now columns rowData = (inr id, tbl') ->
  id = t_next_id tbl /\
  well_formed tbl' = true /\
  (exists r, getSnapshot tbl' columns = getSnapshot tbl columns ++ [r] /\
             obj_get r "id" = VNum id /\
             obj_get r "row_hash" = VStr (computeRowHash rowData columns) /\
             obj_get r "revision" = VNum 1 /\
             obj_get r "source" = VStr "manual") /\
  getRowPosition tbl' id = Some (Z.of_nat (length (getSnapshot tbl columns))).
Proof.
  intros Hwf. unfold insertRow. destruct (0 <? length _)%nat eqn:Hm; [done|].
  destruct (schema_check_columns tbl columns Hm) as [Hid Hrh].
  destruct (exec now _ tbl) as [t|] eqn:E; [|done]. intros [= <- <-]. split; [done|].
  apply exec_inv in E as [_ (stored & src & Hh & Hs & _ & E)].
  apply bind_hash_short in Hh as ->; [|apply computeRowHash_length].
  assert (src = "manual") as -> by (vm_compute in Hs; congruence).
  cbn [execute] in E. destruct (int4 (t_next_id tbl)); [|done]. injection E as <-.
  set (e := mkEntry (t_next_id tbl) now now (computeRowHash rowData columns) 1 "manual" None
                    (set_data (sanitizedColumnsOf columns) (dataValues rowData columns) ∅)).
  set (tbl' := mkTable _ _ _).
  assert (Hwf' : well_formed tbl' = true).
  { apply (well_formed_appended tbl tbl' 1); [done| |done].
    unfold keys, fresh_keys, tbl'. cbn [t_rows map seq]. rewrite map_app. cbn [map].
    by rewrite Z.add_0_r. }
  assert (Hact : active_rows tbl' = active_rows tbl ++ [e]).
  { unfold tbl'. by rewrite active_rows_app. }
  assert (Hsnap : getSnapshot tbl' columns
                  = getSnapshot tbl columns ++ [snapshot_row (dbColumnNames tbl) columns e]).
  { unfold getSnapshot. rewrite !select_active_well_formed, Hact, map_app by done. done. }
  split; [done|]. split.
  - eexists. split; [exact Hsnap|].
    assert (Hcols : forall k, k ∈ columns -> sanitizeColumnName k ∉ systemColumns).
    { intros k Hk Hsys. apply (sanitized_listed columns) in Hk.
      assert (Hmiss : sanitizeColumnName k ∈ missingColumns tbl (sanitizedColumnsOf columns)).
      { apply list_elem_of_filter. split; [|done]. rewrite dbColumnNames_elem. tauto. }
      apply Nat.ltb_ge in Hm. destruct (missingColumns _ _); [by apply elem_of_nil in Hmiss|].
      cbn in Hm. lia. }
    assert (Hno : forall k, sanitizeColumnName k = k -> k ∈ systemColumns -> k ∉ columns).
    { intros k Hk Hsys Hin. apply (Hcols k Hin). by rewrite Hk. }
    rewrite !snapshot_row_other; [done| | | |];
      apply Hno; try reflexivity; vm_compute; repeat constructor.
  - change (t_next_id tbl) with (e_id e). apply position_of_active; [done|].
    rewrite select_active_well_formed, Hact by done.
    unfold getSnapshot. rewrite select_active_well_formed, length_map by done.
    by apply list_lookup_middle.
Qed.

End OperationProps.

(* --------------------------------------------------------------------- *)
(** ** Sheet ids: what is extracted from an input *)
(* --------------------------------------------------------------------- *)

Section SheetInputProps.
Import Js Schema SchemaSpec SheetInput.

Lemma append_cons (c : ascii) (a b : string) : String c a +:+ b = String c (a +:+ b).
Proof. reflexivity. Qed.

Lemma append_nil (b : string) : "" +:+ b = b.
Proof. reflexivity. Qed.

Lemma take_id_chars (s : string) : all_chars is_sheet_id_char (take_id s) = true.
Proof.
  induction s as [|c s IH]; [done|]. cbn [take_id].
  destruct (is_sheet_id_char c) eqn:E; [|done]. cbn [all_chars]. by rewrite E, IH.
Qed.

Lemma take_id_prefix (s : string) : exists b, s = take_id s +:+ b.
Proof.
  induction s as [|c s [b IH]]; [by exists ""|]. cbn [take_id].
  destruct (is_sheet_id_char c); [|by eexists].
  exists b. by rewrite append_cons, <- IH.
Qed.

(** The id of a text that starts with an id and goes on with something
    that is not part of an id. *)
Lemma take_id_app (id rest : string) :
  all_chars is_sheet_id_char id = true ->
  take_id rest = "" ->
  take_id (id +:+ rest) = id.
Proof.
  intros Hid Hrest. induction id as [|c id IH]; [done|].
  cbn [all_chars] in Hid. apply andb_true_iff in Hid as [Hc Hid].
  rewrite append_cons. cbn [take_id]. by rewrite Hc, IH.
Qed.

Lemma match_miss (c : ascii) (s : string) :
  String.prefix sheetPath (String c s) = false ->
  match_sheet_id (String c s) = match_sheet_id s.
Proof. intros H. cbn [match_sheet_id]. by rewrite H. Qed.

Lemma match_hit (s : string) :
  take_id s <> "" -> match_sheet_id (sheetPath +:+ s) = Some (take_id s).
Proof.
  intros H. unfold sheetPath. rewrite !append_cons, append_nil.
  cbn [match_sheet_id].
  assert (Hp : String.prefix sheetPath
                 (String "/" (String "s" (String "p" (String "r" (String "e" (String "a"
                 (String "d" (String "s" (String "h" (String "e" (String "e" (String "t"
                 (String "s" (String "/" (String "d" (String "/" s)))))))))))))))) = true).
  { apply prefix_app. by exists s. }
  rewrite Hp. cbn [sheetPath String.length skip].
  apply String.eqb_neq in H. by rewrite H.
Qed.

(** X29: the usual URLs give their id: from
    [https://docs.google.com/spreadsheets/d/<id><rest>], where [<id>] is
    a non-empty text of id characters and [<rest>] ([/edit],
    [/edit?usp=sharing], nothing, ...) does not go on with one,
    [extractSheetId] returns [<id>], and the URL validates. *)
Theorem extractSheetId_url (id rest : string) :
  id <> "" -> all_chars is_sheet_id_char id = true -> take_id rest = "" ->
  extractSheetId ("https://docs.google.com/spreadsheets/d/" +:+ id +:+ rest) = Some id /\
  validateSheetInput ("https://docs.google.com/spreadsheets/d/" +:+ id +:+ rest) = true.
Proof.
  intros Hne Hid Hrest.
  assert (Hm : match_sheet_id ("https://docs.google.com/spreadsheets/d/" +:+ id +:+ rest)
               = Some id).
  { change "https://docs.google.com/spreadsheets/d/"
      with ("https://docs.google.com" +:+ sheetPath).
    rewrite append_assoc', !append_cons, append_nil.
    rewrite !match_miss by reflexivity.
    rewrite match_hit; rewrite take_id_app by done; done. }
  assert (He : extractSheetId ("https://docs.google.com/spreadsheets/d/" +:+ id +:+ rest)
               = Some id).
  { unfold extractSheetId. rewrite Hm.
    assert (Hh : includes ("https://docs.google.com/spreadsheets/d/" +:+ id +:+ rest) "http"
                 = true).
    { apply includes_app. exists "", ("s://docs.google.com/spreadsheets/d/" +:+ id +:+ rest).
      reflexivity. }
    rewrite Hh, andb_false_r. reflexivity. }
  split; [exact He|]. unfold validateSheetInput. rewrite He.
  assert (Ht : trim ("https://docs.google.com/spreadsheets/d/" +:+ id +:+ rest) <> "").
  { rewrite !append_cons. by rewrite trim_plain by reflexivity. }
  destruct (trim _) as [|c t] eqn:E; [done|]. cbn [String.length Nat.eqb orb truthy].
  rewrite !append_cons. cbn [String.eqb negb orb]. 
  destruct id; [done|]. reflexivity.
Qed.

Lemma match_sheet_id_sound (url id : string) :
  match_sheet_id url = Some id ->
  id <> "" /\ all_chars is_sheet_id_char id = true /\
  includes url (sheetPath +:+ id) = true.
Proof.
  induction url as [|c url IH].
  - cbn [match_sheet_id]. by destruct (String.prefix sheetPath "").
  - cbn [match_sheet_id].
    destruct (String.prefix sheetPath (String c url)) eqn:Hp.
    + pose proof Hp as Hp'. apply prefix_app in Hp' as [b Hb].
      assert (Hs : skip (String.length sheetPath) (String c url) = b)
        by (rewrite Hb; reflexivity).
      rewrite Hs. destruct (String.eqb_spec (take_id b) "") as [He|Hne]; cbn [negb].
      * intros H. destruct (IH H) as (H1 & H2 & H3). split; [done|]. split; [done|].
        cbn [includes]. by rewrite H3, orb_true_r.
      * intros Hid. assert (Heq : id = take_id b) by congruence. subst id.
        split; [done|]. split; [apply take_id_chars|].
        rewrite Hb. destruct (take_id_prefix b) as [b' Hb'].
        apply includes_app. exists "", b'. rewrite append_nil, append_assoc'. by rewrite <- Hb'.
    + cbn [String.eqb negb]. intros H. destruct (IH H) as (H1 & H2 & H3).
      split; [done|]. split; [done|]. cbn [includes]. by rewrite H3, orb_true_r.
Qed.

(** X30: what [extractSheetId] can return: the input itself, untrimmed and
    unchecked, when it is shorter than 50 characters and does not contain
    ["http"]; otherwise a non-empty text of id characters that follows
    ["/spreadsheets/d/"] in the input.  An input that validates has such
    an id. *)
Theorem extractSheetId_sound (url id : string) :
  (extractSheetId url = Some id ->
   (id = url /\ (String.length url < 50)%nat /\ includes url "http" = false) \/
   (id <> "" /\ all_chars is_sheet_id_char id = true /\
    includes url (sheetPath +:+ id) = true)) /\
  (validateSheetInput url = true ->
   exists id', extractSheetId url = Some id' /\ id' <> "").
Proof.
  split.
  - unfold extractSheetId. destruct (negb (truthy (VStr url))); [done|].
    destruct (String.length url <? 50)%nat eqn:Hl; cbn [andb].
    + destruct (includes url "http") eqn:Hi; cbn [negb].
      * intros H. right. by apply match_sheet_id_sound.
      * intros [= <-]. left. apply Nat.ltb_lt in Hl. done.
    + intros H. right. by apply match_sheet_id_sound.
  - unfold validateSheetInput. destruct (_ || _); [done|].
    destruct (extractSheetId url) as [id'|]; [|done].
    intros H. exists id'. split; [done|]. intros ->. done.
Qed.

End SheetInputProps.

(* --------------------------------------------------------------------- *)
(** ** Instances of the further properties *)
(* --------------------------------------------------------------------- *)

Section MoreInstances.
Import Js DiffEngine Schema SnapshotStore SyncLock StoreSpec StoreShape DiffShape.
Import Operations SyncRoute SheetInput SchemaSpec.
Import Samples Scenarios.

Ltac decided := apply (bool_decide_unpack _); vm_compute; exact I.

Lemma computeDiff_noop_witness :
  computeDiff [row_al] [hashed_al] cols = mkDiff [] [] [] (Z.of_nat (length [row_al])).
Proof.
  apply (computeDiff_noop [row_al] [hashed_al] cols).
  - reflexivity.
  - intros [|i] row dbRow Hrow Hdb.
    + injection Hrow as <-. injection Hdb as <-. vm_compute. reflexivity.
    + discriminate Hrow.
Defined.

Lemma applyDiff_accounts_witness :
  keys (applyDiff table 10 cols diff_delete 2).2
  = keys table ++ fresh_keys table (length (inserts diff_delete)).
Proof.
  destruct (applyDiff_accounts table 10 cols diff_delete 2 (mkCounts 0 0 1 0)
              (applyDiff table 10 cols diff_delete 2).2) as (_ & _ & _ & _ & _ & _ & Hclean & _).
  - vm_compute. reflexivity.
  - apply Hclean. reflexivity.
Defined.

Lemma well_formed_later_witness :
  well_formed (applyDiff table 10 cols diff_delete 2).2 = true.
Proof.
  apply (well_formed_later table (applyDiff table 10 cols diff_delete 2).2).
  - reflexivity.
  - apply (later_applyDiff table 10 cols diff_delete 2
             (applyDiff table 10 cols diff_delete 2).1
             (applyDiff table 10 cols diff_delete 2).2); [reflexivity|apply later_now].
Defined.

Lemma applyDiff_reconciles_witness :
  active_rows
    (applyDiff table 10 cols (computeDiff sheet_two (getSnapshot table cols) cols) 2).2
  = reconciled_rows 10 2 cols table sheet_two.
Proof.
  destruct (applyDiff_reconciles table 10 cols sheet_two 2 (mkCounts 1 1 0 0)
              (applyDiff table 10 cols
                 (computeDiff sheet_two (getSnapshot table cols) cols) 2).2) as (_ & Hok & _).
  - reflexivity.
  - vm_compute. reflexivity.
  - exact (proj2 (Hok eq_refl)).
Defined.

Lemma applyDiff_converges_witness :
  computeDiff sheet_two
    (getSnapshot
       (applyDiff table 10 cols (computeDiff sheet_two (getSnapshot table cols) cols) 2).2
       cols) cols
  = mkDiff [] [] [] (Z.of_nat (length sheet_two)).
Proof.
  destruct (applyDiff_converges table 10 cols sheet_two 2 (mkCounts 1 1 0 0)
              (applyDiff table 10 cols
                 (computeDiff sheet_two (getSnapshot table cols) cols) 2).2) as [Hok _].
  - reflexivity.
  - vm_compute. reflexivity.
  - exact (Hok eq_refl).
Defined.

Lemma storeSnapshot_converges_witness :
  computeDiff sheet_two
    (getSnapshot (storeSnapshot empty_table 10 cols sheet_two computeRowHash).2 cols) cols
  = mkDiff [] [] [] (Z.of_nat (length sheet_two)).
Proof.
  destruct (storeSnapshot_converges empty_table 10 cols sheet_two 2 0
              (storeSnapshot empty_table 10 cols sheet_two computeRowHash).2) as (_ & Hok & _).
  - reflexivity.
  - reflexivity.
  - vm_compute. reflexivity.
  - exact (proj2 (proj2 (Hok eq_refl))).
Defined.

Lemma syncFunction_converges_witness :
  computeDiff sheet_two
    (getSnapshot (syncFunction table 10 sheet_two (getSnapshot table cols) cols).2 cols) cols
  = mkDiff [] [] [] (Z.of_nat (length sheet_two)).
Proof.
  destruct (syncFunction_converges table 10 sheet_two cols (mkCounts 1 1 0 0)
              (syncFunction table 10 sheet_two (getSnapshot table cols) cols).2)
    as (_ & _ & Hok & _).
  - reflexivity.
  - vm_compute. reflexivity.
  - exact (Hok eq_refl).
Defined.

Lemma syncFunction_revision_witness :
  e_revision entry_bo < nextRevision table.
Proof.
  apply (syncFunction_revision table 10 sheet_two (getSnapshot table cols) cols
           (syncFunction table 10 sheet_two (getSnapshot table cols) cols).1
           (syncFunction table 10 sheet_two (getSnapshot table cols) cols).2).
  - vm_compute. discriminate.
  - reflexivity.
  - right. left.
Defined.

Lemma syncFunction_empty_snapshot_witness :
  length (active_rows (syncFunction table 10 sheet_two [] cols).2)
  = (length (active_rows table) + length sheet_two)%nat.
Proof.
  destruct (syncFunction_empty_snapshot table 10 sheet_two cols (mkCounts 2 0 0 0)
              (syncFunction table 10 sheet_two [] cols).2) as (_ & _ & _ & _ & _ & Hok & _).
  - vm_compute. reflexivity.
  - exact (proj2 (Hok eq_refl)).
Defined.

Lemma getRowPosition_index_witness :
  exists x, obj_get (fetch_row (dbColumnNames table) cols entry_al) "id" = VNum x /\
            getRowPosition table x = Some (Z.of_nat 0).
Proof.
  apply (getRowPosition_index table cols
           [fetch_row (dbColumnNames table) cols entry_al] 0%nat
           (fetch_row (dbColumnNames table) cols entry_al)).
  - reflexivity.
  - decided.
  - vm_compute. reflexivity.
  - reflexivity.
Defined.

Lemma insertRow_roundtrip_witness :
  getRowPosition (insertRow table 10 cols row_bo).2 3
  = Some (Z.of_nat (length (getSnapshot table cols))).
Proof.
  apply (insertRow_roundtrip table 10 cols row_bo 3 (insertRow table 10 cols row_bo).2).
  - reflexivity.
  - vm_compute. reflexivity.
Defined.

Lemma extractSheetId_url_witness :
  extractSheetId ("https://docs.google.com/spreadsheets/d/" +:+ "1AbC-_9"
                  +:+ "/edit?usp=sharing") = Some "1AbC-_9".
Proof.
  apply (extractSheetId_url "1AbC-_9" "/edit?usp=sharing").
  - discriminate.
  - reflexivity.
  - reflexivity.
Defined.

End MoreInstances.
